(** * LinkedIn Zip Solver: a shallow embedding of the extension

    The extension has two scripts.  [content.js] runs in the page: it reads
    the hydration payload, extracts the solution with three regular
    expressions, parses it with [JSON.parse], and replays it as clicks paced
    by timers.  The background service worker reacts to the toolbar icon and
    to tab updates, polls the page for readiness and sends the solve command.

    Part I embeds the code: JavaScript strings, the regular expressions,
    [JSON.parse], the content script ([Content]) and the service worker
    ([Background]).  Part II proves the properties. *)

From Stdlib Require Import ZArith NArith List String Ascii Bool Lia.
From stdpp Require Import base list relations.

Local Open Scope N_scope.
Local Set Warnings "-register-all".

(* ===================================================================== *)
(** * Part I.  The embedding                                              *)
(* ===================================================================== *)

(** ** JavaScript strings

    A JavaScript string is a sequence of UTF-16 code units; the regular
    expressions of the extension carry no [u] flag, so they and
    [String.prototype.trim] work on code units. *)

Abbreviation jsstring := (list N).

Module Js.

(** The code units of an ASCII literal of the source. *)
Definition lit (s : string) : jsstring :=
  map N_of_ascii (list_ascii_of_string s).

Definition backslash : N := 92.
Definition dquote : N := 34.
Definition lbracket : N := 91.
Definition rbracket : N := 93.
Definition lbrace : N := 123.
Definition rbrace : N := 125.
Definition comma : N := 44.
Definition colon : N := 58.
Definition minus : N := 45.
Definition plus : N := 43.
Definition dot : N := 46.
Definition slash : N := 47.

(** ECMAScript LineTerminator: LF, CR, LS, PS. *)
Definition isLineTerminator (c : N) : bool :=
  (c =? 10) || (c =? 13) || (c =? 8232) || (c =? 8233).

(** ECMAScript WhiteSpace: TAB, VT, FF, SP, NBSP, ZWNBSP and category Zs. *)
Definition isWhiteSpace (c : N) : bool :=
  (c =? 9) || (c =? 11) || (c =? 12) || (c =? 32) || (c =? 160)
  || (c =? 5760) || ((8192 <=? c) && (c <=? 8202))
  || (c =? 8239) || (c =? 8287) || (c =? 12288) || (c =? 65279).

(** What [trim] strips from both ends. *)
Definition isTrimmable (c : N) : bool :=
  isWhiteSpace c || isLineTerminator c.

Fixpoint trimStart (s : jsstring) : jsstring :=
  match s with
  | c :: s' => if isTrimmable c then trimStart s' else s
  | [] => []
  end.

Definition trimEnd (s : jsstring) : jsstring :=
  rev (trimStart (rev s)).

(** [String.prototype.trim]. *)
Definition trim (s : jsstring) : jsstring := trimEnd (trimStart s).

Definition eqb (s t : jsstring) : bool :=
  bool_decide (s = t).

(** A string is falsy exactly when it is empty. *)
Definition truthy (s : jsstring) : bool :=
  match s with [] => false | _ :: _ => true end.

Fixpoint startsWith (p s : jsstring) : bool :=
  match p, s with
  | [], _ => true
  | a :: p', b :: s' => (a =? b) && startsWith p' s'
  | _ :: _, [] => false
  end.

(** [String.prototype.includes]. *)
Fixpoint includes (s p : jsstring) : bool :=
  startsWith p s
  || match s with
     | [] => false
     | _ :: s' => includes s' p
     end.

(** [String.prototype.indexOf]: the position of the first occurrence. *)
Fixpoint indexOf (s p : jsstring) : option nat :=
  if startsWith p s then Some O
  else
    match s with
    | [] => None
    | _ :: s' =>
        match indexOf s' p with
        | Some i => Some (S i)
        | None => None
        end
    end.

End Js.

(** ** Regular expressions

    The three patterns of [extractSolution] use literal characters, the
    dot, one negated one-character class, a lazy star, a greedy plus and one
    capturing group.  [exec] is the backtracking matcher of ECMAScript
    restricted to these constructs: alternatives are explored in the order
    the language prescribes (lazy: the continuation first; greedy: one more
    character first), and the search starts at the leftmost position. *)

Module Regex.

Inductive cclass :=
| Dot (dotAll : bool)   (* [.]; with the [s] flag it also matches line terminators *)
| NotChar (c : N).      (* a negated class of one character *)

Definition in_class (k : cclass) (c : N) : bool :=
  match k with
  | Dot dotAll => dotAll || negb (Js.isLineTerminator c)
  | NotChar x => negb (c =? x)
  end.

Inductive atom :=
| Chr (c : N)           (* a literal character *)
| LazyStar (k : cclass)     (* k*? *)
| GreedyPlus (k : cclass).  (* k+  *)

(** A pattern with exactly one capturing group:
    [before ( group ) after]. *)
Record regex := Regex {
  before : list atom;
  group : list atom;
  after : list atom
}.

Definition chars (s : jsstring) : list atom := map Chr s.

Section Matcher.
Context {A : Type}.

(** [k*?] followed by the continuation [k]: try the continuation, and
    only when it fails consume one more character of the class. *)
Fixpoint lazy_star (c : cclass) (k : jsstring -> option A)
    (s : jsstring) : option A :=
  match k s with
  | Some r => Some r
  | None =>
      match s with
      | x :: s' => if in_class c x then lazy_star c k s' else None
      | [] => None
      end
  end.

(** [k*] followed by the continuation: consume as much as possible and
    give back one character at a time. *)
Fixpoint greedy_star (c : cclass) (k : jsstring -> option A)
    (s : jsstring) : option A :=
  match s with
  | x :: s' =>
      if in_class c x then
        match greedy_star c k s' with
        | Some r => Some r
        | None => k s
        end
      else k s
  | [] => k s
  end.

Fixpoint match_atoms (r : list atom) (s : jsstring)
    (k : jsstring -> option A) : option A :=
  match r with
  | [] => k s
  | Chr c :: r' =>
      match s with
      | x :: s' => if x =? c then match_atoms r' s' k else None
      | [] => None
      end
  | LazyStar c :: r' => lazy_star c (fun s' => match_atoms r' s' k) s
  | GreedyPlus c :: r' =>
      match s with
      | x :: s' =>
          if in_class c x
          then greedy_star c (fun s' => match_atoms r' s' k) s'
          else None
      | [] => None
      end
  end.
End Matcher.

(** The array returned by [String.prototype.match] without the [g] flag:
    index 0 is the matched text, index 1 the text of the group. *)
Record match_result := MatchResult {
  matched : jsstring;
  group1 : jsstring
}.

(** The text consumed between [s] and its suffix [s']. *)
Definition consumed (s s' : jsstring) : jsstring :=
  take (length s - length s') s.

(** A match anchored at the start of [s]. *)
Definition exec_at (r : regex) (s : jsstring) : option match_result :=
  match_atoms (before r) s (fun s1 =>
  match_atoms (group r) s1 (fun s2 =>
  match_atoms (after r) s2 (fun s3 =>
    Some {| matched := consumed s s3; group1 := consumed s1 s2 |}))).

(** [s.match(r)]: the leftmost position with a match; [None] is [null]. *)
Fixpoint exec (r : regex) (s : jsstring) : option match_result :=
  match exec_at r s with
  | Some m => Some m
  | None =>
      match s with
      | [] => None
      | _ :: s' => exec r s'
      end
  end.

End Regex.

(** ** JSON.parse

    The JSON grammar of ECMA-404, which [JSON.parse] implements.  A number
    keeps the exact decimal value of its literal; the double it denotes is
    the correctly rounded one, and [lt0] decides the sign of that double. *)

Module Json.

(** The number [(-1)^negative * mantissa * 10^exp10]. *)
Record number := Number {
  negative : bool;
  mantissa : N;
  exp10 : Z
}.

Definition of_N (n : N) : number :=
  {| negative := false; mantissa := n; exp10 := 0 |}.

(** The magnitude rounds to zero as a double exactly when it is at most
    half of the least subnormal, [2^-1075] (a tie rounds to even). *)
Definition rounds_to_zero (n : number) : bool :=
  (mantissa n =? 0)
  || ((exp10 n <? 0)%Z
      && (Z.of_N (mantissa n) * 2 ^ 1075 <=? 10 ^ (- exp10 n))%Z).

(** [cell < 0] on the double. *)
Definition lt0 (n : number) : bool :=
  negative n && negb (rounds_to_zero n).

(** [cell >= 0] on the double (no JSON literal denotes NaN). *)
Definition ge0 (n : number) : bool := negb (lt0 n).

Inductive value :=
| Null
| Bool (b : bool)
| Num (n : number)
| Str (s : jsstring)
| Arr (elements : list value)
| Obj (members : list (jsstring * value)).

(** The value of a natural-number literal. *)
Definition natural (n : N) : value := Num (of_N n).

(** [typeof v === 'number'] *)
Definition is_number (v : value) : bool :=
  match v with Num _ => true | _ => false end.

(** [Array.isArray(v)] *)
Definition isArray (v : value) : bool :=
  match v with Arr _ => true | _ => false end.

(** *** Lexical grammar *)

Definition is_ws (c : N) : bool :=
  (c =? 32) || (c =? 9) || (c =? 10) || (c =? 13).

Fixpoint skip_ws (s : jsstring) : jsstring :=
  match s with
  | c :: s' => if is_ws c then skip_ws s' else s
  | [] => []
  end.

Definition is_digit (c : N) : bool := (48 <=? c) && (c <=? 57).

(** The longest prefix of digits, as digit values, and the rest. *)
Fixpoint span_digits (s : jsstring) : list N * jsstring :=
  match s with
  | c :: s' =>
      if is_digit c
      then let '(ds, r) := span_digits s' in ((c - 48) :: ds, r)
      else ([], s)
  | [] => ([], [])
  end.

Definition digits_value (ds : list N) : N :=
  fold_left (fun a d => 10 * a + d) ds 0.

(** int = 0 | [1-9][0-9]* *)
Definition lex_int (s : jsstring) : option (list N * jsstring) :=
  match s with
  | c :: s' =>
      if c =? 48 then Some ([0], s')
      else if is_digit c
      then let '(ds, r) := span_digits s' in Some ((c - 48) :: ds, r)
      else None
  | [] => None
  end.

(** frac = . [0-9]+, optional *)
Definition lex_frac (s : jsstring) : option (list N * jsstring) :=
  match s with
  | c :: s' =>
      if c =? Js.dot then
        match span_digits s' with
        | ([], _) => None
        | (ds, r) => Some (ds, r)
        end
      else Some ([], s)
  | [] => Some ([], s)
  end.

(** exp = [eE] [+-]? [0-9]+, optional *)
Definition lex_exp (s : jsstring) : option (Z * jsstring) :=
  match s with
  | c :: s' =>
      if (c =? 101) || (c =? 69) then
        let '(neg, s'') :=
          match s' with
          | d :: t =>
              if d =? Js.minus then (true, t)
              else if d =? Js.plus then (false, t)
              else (false, s')
          | [] => (false, s')
          end in
        match span_digits s'' with
        | ([], _) => None
        | (ds, r) =>
            let e := Z.of_N (digits_value ds) in
            Some (if neg then (- e)%Z else e, r)
        end
      else Some (0%Z, s)
  | [] => Some (0%Z, s)
  end.

(** number = -? int frac? exp? *)
Definition lex_number (s : jsstring) : option (number * jsstring) :=
  let '(neg, s0) :=
    match s with
    | c :: s' => if c =? Js.minus then (true, s') else (false, s)
    | [] => (false, s)
    end in
  match lex_int s0 with
  | None => None
  | Some (ints, s1) =>
      match lex_frac s1 with
      | None => None
      | Some (fracs, s2) =>
          match lex_exp s2 with
          | None => None
          | Some (e, s3) =>
              Some ({| negative := neg;
                       mantissa := digits_value (ints ++ fracs);
                       exp10 := (e - Z.of_nat (length fracs))%Z |}, s3)
          end
      end
  end.

Definition hex_value (c : N) : option N :=
  if is_digit c then Some (c - 48)
  else if (97 <=? c) && (c <=? 102) then Some (c - 87)
  else if (65 <=? c) && (c <=? 70) then Some (c - 55)
  else None.

Definition hex4 (a b c d : N) : option N :=
  match hex_value a, hex_value b, hex_value c, hex_value d with
  | Some x, Some y, Some z, Some w => Some (((x * 16 + y) * 16 + z) * 16 + w)
  | _, _, _, _ => None
  end.

(** The character denoted by a one-letter escape. *)
Definition unescape (e : N) : option N :=
  if e =? Js.dquote then Some Js.dquote
  else if e =? Js.backslash then Some Js.backslash
  else if e =? Js.slash then Some Js.slash
  else if e =? 98 then Some 8
  else if e =? 102 then Some 12
  else if e =? 110 then Some 10
  else if e =? 114 then Some 13
  else if e =? 116 then Some 9
  else None.

Definition push (c : N) (r : option (jsstring * jsstring))
    : option (jsstring * jsstring) :=
  match r with
  | Some (str, rest) => Some (c :: str, rest)
  | None => None
  end.

(** The body of a string after its opening quote: the decoded text and
    what follows the closing quote. *)
Fixpoint lex_string (s : jsstring) : option (jsstring * jsstring) :=
  match s with
  | [] => None
  | c :: s' =>
      if c =? Js.dquote then Some ([], s')
      else if c =? Js.backslash then
        match s' with
        | [] => None
        | e :: s'' =>
            if e =? 117 then
              match s'' with
              | h1 :: h2 :: h3 :: h4 :: t =>
                  match hex4 h1 h2 h3 h4 with
                  | Some u => push u (lex_string t)
                  | None => None
                  end
              | _ => None
              end
            else
              match unescape e with
              | Some x => push x (lex_string s'')
              | None => None
              end
        end
      else if c <? 32 then None
      else push c (lex_string s')
  end.

(** *** Values *)

Inductive presult (A : Type) :=
| POk (a : A) (rest : jsstring)
| PSyntax
| PFuel.
Arguments POk {A} a rest.
Arguments PSyntax {A}.
Arguments PFuel {A}.

(** [parse_value] reads one value at the start of [s] (no leading white
    space); [parse_elements] the elements of a non-empty array up to and
    including the closing bracket; [parse_members] the members of a
    non-empty object up to and including the closing brace. *)
Fixpoint parse_value (fuel : nat) (s : jsstring) : presult value :=
  match fuel with
  | O => PFuel
  | S f =>
      match s with
      | [] => PSyntax
      | c :: s' =>
          if c =? Js.lbracket then
            match skip_ws s' with
            | [] => PSyntax
            | c' :: s'' =>
                if c' =? Js.rbracket then POk (Arr []) s''
                else
                  match parse_elements f (c' :: s'') with
                  | POk vs r => POk (Arr vs) r
                  | PSyntax => PSyntax
                  | PFuel => PFuel
                  end
            end
          else if c =? Js.lbrace then
            match skip_ws s' with
            | [] => PSyntax
            | c' :: s'' =>
                if c' =? Js.rbrace then POk (Obj []) s''
                else
                  match parse_members f (c' :: s'') with
                  | POk ms r => POk (Obj ms) r
                  | PSyntax => PSyntax
                  | PFuel => PFuel
                  end
            end
          else if c =? Js.dquote then
            match lex_string s' with
            | Some (str, r) => POk (Str str) r
            | None => PSyntax
            end
          else if Js.startsWith (Js.lit "true") s then
            POk (Bool true) (drop 4 s)
          else if Js.startsWith (Js.lit "false") s then
            POk (Bool false) (drop 5 s)
          else if Js.startsWith (Js.lit "null") s then
            POk Null (drop 4 s)
          else
            match lex_number s with
            | Some (n, r) => POk (Num n) r
            | None => PSyntax
            end
      end
  end
with parse_elements (fuel : nat) (s : jsstring) : presult (list value) :=
  match fuel with
  | O => PFuel
  | S f =>
      match parse_value f s with
      | POk v r =>
          match skip_ws r with
          | [] => PSyntax
          | c :: r' =>
              if c =? Js.comma then
                match parse_elements f (skip_ws r') with
                | POk vs r'' => POk (v :: vs) r''
                | PSyntax => PSyntax
                | PFuel => PFuel
                end
              else if c =? Js.rbracket then POk [v] r'
              else PSyntax
          end
      | PSyntax => PSyntax
      | PFuel => PFuel
      end
  end
with parse_members (fuel : nat) (s : jsstring)
    : presult (list (jsstring * value)) :=
  match fuel with
  | O => PFuel
  | S f =>
      match s with
      | [] => PSyntax
      | q :: s1 =>
          if q =? Js.dquote then
            match lex_string s1 with
            | None => PSyntax
            | Some (key, s2) =>
                match skip_ws s2 with
                | [] => PSyntax
                | c :: s3 =>
                    if c =? Js.colon then
                      match parse_value f (skip_ws s3) with
                      | POk v s4 =>
                          match skip_ws s4 with
                          | [] => PSyntax
                          | d :: s5 =>
                              if d =? Js.comma then
                                match parse_members f (skip_ws s5) with
                                | POk ms r => POk ((key, v) :: ms) r
                                | PSyntax => PSyntax
                                | PFuel => PFuel
                                end
                              else if d =? Js.rbrace
                              then POk [(key, v)] s5
                              else PSyntax
                          end
                      | PSyntax => PSyntax
                      | PFuel => PFuel
                      end
                    else PSyntax
                end
            end
          else PSyntax
      end
  end.

(** Fuel that never runs out on [s] (see [parse_text_fuel]). *)
Definition enough (s : jsstring) : nat := 2 * length s + 2.

(** The whole text is one value between optional white space. *)
Definition parse_text (text : jsstring) : presult value :=
  match parse_value (enough text) (skip_ws text) with
  | POk v r =>
      match skip_ws r with
      | [] => POk v []
      | _ :: _ => PSyntax
      end
  | PSyntax => PSyntax
  | PFuel => PFuel
  end.

(** [JSON.parse(text)]; [None] is a thrown [SyntaxError]. *)
Definition parse (text : jsstring) : option value :=
  match parse_text text with
  | POk v _ => Some v
  | _ => None
  end.

End Json.

(** ** The content script (content.js) *)

Module Content.

(** *** CONFIG *)

Definition CLICK_DELAY_MS : Z := 100.
Definition NOTIFICATION_DURATION_MS : Z := 3000.
Definition NOTIFICATION_ANIMATION_MS : Z := 300.
Definition READY_MIN_LENGTH : nat := 100.

(** The key of LinkedIn's escaped format: a backslash and a quote on each
    side of [solution], then a colon and an opening bracket. *)
Definition escaped_key : jsstring :=
  [Js.backslash; Js.dquote] ++ Js.lit "solution"
  ++ [Js.backslash; Js.dquote; Js.colon; Js.lbracket].

(** The same key with plain quotes. *)
Definition plain_key : jsstring :=
  [Js.dquote] ++ Js.lit "solution" ++ [Js.dquote; Js.colon; Js.lbracket].

(** [CONFIG.REGEX.SOLUTION]: the escaped key, a lazy run of any
    characters (flag [s]) as group 1, a closing bracket. *)
Definition SOLUTION : Regex.regex :=
  {| Regex.before := Regex.chars escaped_key;
     Regex.group := [Regex.LazyStar (Regex.Dot true)];
     Regex.after := [Regex.Chr Js.rbracket] |}.

(** The alternative pattern of [extractSolution]: the plain key, one or
    more characters other than a closing bracket as group 1, a closing
    bracket. *)
Definition PLAIN_SOLUTION : Regex.regex :=
  {| Regex.before := Regex.chars plain_key;
     Regex.group := [Regex.GreedyPlus (Regex.NotChar Js.rbracket)];
     Regex.after := [Regex.Chr Js.rbracket] |}.

(** The general pattern: the word [solution], a lazy run of characters of
    one line, one or more characters other than a closing bracket as
    group 1, a closing bracket. *)
Definition LOOSE_SOLUTION : Regex.regex :=
  {| Regex.before :=
       Regex.chars (Js.lit "solution") ++ [Regex.LazyStar (Regex.Dot false)];
     Regex.group := [Regex.GreedyPlus (Regex.NotChar Js.rbracket)];
     Regex.after := [Regex.Chr Js.rbracket] |}.

(** *** Errors

    One constructor per [new Error(...)] of the script, and one for the
    [SyntaxError] of [JSON.parse], whose wording is the engine's. *)
Inductive error :=
| GameDataNotFound      (* 'Game data not found. Make sure the page is fully loaded.' *)
| GameDataEmpty         (* 'Game data is empty' *)
| SolutionDataNotFound  (* 'Solution data not found. LinkedIn game structure may have changed.' *)
| CouldNotParse (parseError : error)  (* `Could not parse solution: ${parseError.message}` *)
| SolutionDataInvalid   (* 'Solution data is empty or invalid' *)
| JsonSyntaxError       (* thrown by JSON.parse *)
| NotAnArray            (* 'Solution is not a valid array' *)
| InvalidCellNumbers    (* 'Solution contains invalid cell numbers' *)
| SolutionEmpty.        (* 'Solution is empty or invalid' *)

Inductive result (A : Type) :=
| Ok (a : A)
| Throw (e : error).
Arguments Ok {A} a.
Arguments Throw {A} e.

(** *** The page *)

(** The events [clickCell] sends to a cell: [cell.click()], three mouse
    events and two pointer events. *)
Inductive dom_event :=
| ElementClick
| MouseDown
| MouseUp
| MouseClick
| PointerDown
| PointerUp.

(** What the script uses of the document.  [rehydrateData] is the
    [textContent] of the element with id [rehydrate-data], when there is
    one; [querySelector] resolves the selector of a cell number;
    [dispatch] delivers one event to a cell: it gives the page after the
    listeners ran, and [false] when the call throws; [hasBody] is
    [document.body]. *)
Class Dom (Page Elem : Type) := {
  rehydrateData : Page -> option jsstring;
  querySelector : Page -> Json.value -> option Elem;
  dispatch : Page -> Elem -> dom_event -> Page * bool;
  hasBody : Page -> bool
}.

(** *** State *)

(** The functions handed to [addTimeout]. *)
Inductive callback :=
| ClickStep (call : nat) (cellNumber : Json.value) (index len : nat)
    (* the arrow function of [forEach] in [applySolution] *)
| LastMove (call : nat)
    (* the function scheduled after the last move *)
| AutoRemove (notification : nat)
    (* [() => hideNotification(notification)] of [showNotification] *)
| RemoveNode (notification : nat).
    (* the removal scheduled by [hideNotification] *)

Record timer := Timer {
  tid : nat;
  due : Z;
  action : callback
}.

(** The closure of one call of [applySolution]: its two counters, whether
    its promise is resolved, and the request whose [sendResponse] waits
    for the promise (attached by the message listener). *)
Record replay := Replay {
  completedClicks : nat;
  failedClicks : nat;
  resolved : bool;
  waiter : option nat
}.

Inductive severity := success | error_ | info | warning.

Inductive message :=
| MsgSolving                     (* 'Solving game...' *)
| MsgError (e : error)           (* `Error: ${error.message}` *)
| MsgSolvedWithErrors (failed : nat)  (* `Game solved! (with ${failedClicks} errors)` *)
| MsgSolved.                     (* 'Game successfully solved!' *)

Inductive log_entry :=
| LogSolving
| LogSolutionFound (solution : list Json.value)
| LogErrorOccurred (e : error)
| LogCellNotFound (cellNumber : Json.value)
| LogCellClicked (cellNumber : Json.value)
| LogCouldNotClick (cellNumber : Json.value)
| LogGameSolved (completed failed : nat)
| LogNoBody
| LogReady (ready : bool).

(** The answers of the message listener. *)
Inductive response :=
| ReadyResponse (ready : bool)       (* { ready } *)
| SuccessResponse                    (* { success: true } *)
| FailureResponse (e : error).       (* { success: false, error: error.message } *)

Inductive request :=
| CheckReady
| SolvePuzzle
| OtherAction.

(** How the promise of [solveZipGame] stands when the function yields. *)
Inductive promise :=
| Fulfilled
| Rejected (e : error)
| Pending (call : nat).

Section Script.
Context {Page Elem : Type} `{Dom Page Elem}.

Record agent := Agent {
  page : Page;
  clock : Z;
  nextTimeoutId : nat;
  timers : list timer;            (* the timers the browser holds *)
  activeTimeouts : list nat;      (* [let activeTimeouts = []] *)
  animationStyleInjected : bool;
  notifications : list (message * severity);  (* created elements *)
  banner : option nat;            (* the notification in the document *)
  replays : list replay;
  console : list log_entry;
  responses : list (nat * response)   (* calls of [sendResponse] *)
}.

Definition set_page (p : Page) (a : agent) : agent :=
  Agent p (clock a) (nextTimeoutId a) (timers a) (activeTimeouts a)
    (animationStyleInjected a) (notifications a) (banner a) (replays a)
    (console a) (responses a).
Definition set_clock (t : Z) (a : agent) : agent :=
  Agent (page a) t (nextTimeoutId a) (timers a) (activeTimeouts a)
    (animationStyleInjected a) (notifications a) (banner a) (replays a)
    (console a) (responses a).
Definition set_timers (nxt : nat) (ts : list timer) (act : list nat)
    (a : agent) : agent :=
  Agent (page a) (clock a) nxt ts act
    (animationStyleInjected a) (notifications a) (banner a) (replays a)
    (console a) (responses a).
Definition set_banner (inj : bool) (ns : list (message * severity))
    (b : option nat) (a : agent) : agent :=
  Agent (page a) (clock a) (nextTimeoutId a) (timers a) (activeTimeouts a)
    inj ns b (replays a) (console a) (responses a).
Definition set_replays (rs : list replay) (a : agent) : agent :=
  Agent (page a) (clock a) (nextTimeoutId a) (timers a) (activeTimeouts a)
    (animationStyleInjected a) (notifications a) (banner a) rs
    (console a) (responses a).
Definition log (e : log_entry) (a : agent) : agent :=
  Agent (page a) (clock a) (nextTimeoutId a) (timers a) (activeTimeouts a)
    (animationStyleInjected a) (notifications a) (banner a) (replays a)
    (console a ++ [e]) (responses a).
Definition sendResponse (rid : nat) (r : response) (a : agent) : agent :=
  Agent (page a) (clock a) (nextTimeoutId a) (timers a) (activeTimeouts a)
    (animationStyleInjected a) (notifications a) (banner a) (replays a)
    (console a) (responses a ++ [(rid, r)]).

(** *** State management *)

(** [clearTimeout] on every registered id, then an empty registry. *)
Definition clearAllTimeouts (a : agent) : agent :=
  set_timers (nextTimeoutId a)
    (filter (fun t => tid t ∉ activeTimeouts a) (timers a))
    [] a.

(** [setTimeout] hands out a fresh id; [addTimeout] records it. *)
Definition addTimeout (cb : callback) (delay : Z) (a : agent)
    : agent * nat :=
  let timeoutId := nextTimeoutId a in
  (set_timers (S timeoutId)
     (timers a ++ [{| tid := timeoutId; due := (clock a + delay)%Z;
                      action := cb |}])
     (activeTimeouts a ++ [timeoutId]) a,
   timeoutId).

(** *** Notifications *)

Definition hideNotification (n : nat) (a : agent) : agent :=
  if bool_decide (banner a = Some n)
  then fst (addTimeout (RemoveNode n) NOTIFICATION_ANIMATION_MS a)
  else a.

(** [showNotification]: the animation styles are injected once, the
    notification in the document is removed, a new one is created and,
    when the document has a body, appended and given a timer.  The
    messages of the script are non-empty strings and its types are
    strings, so the two input checks pass. *)
Definition showNotification (m : message) (type : severity) (a : agent)
    : agent :=
  let notification := length (notifications a) in
  let created := notifications a ++ [(m, type)] in
  if hasBody (page a)
  then fst (addTimeout (AutoRemove notification) NOTIFICATION_DURATION_MS
              (set_banner true created (Some notification) a))
  else log LogNoBody (set_banner true created None a).

(** The listener of a click on the notification. *)
Definition onNotificationClick (n : nat) (a : agent) : agent :=
  hideNotification n a.

(** *** Game solving logic *)

(** The test of [solution.some]: not a number, or negative. *)
Definition invalidCell (cell : Json.value) : bool :=
  match cell with
  | Json.Num n => Json.lt0 n
  | _ => true
  end.

(** The [try] block of [extractSolution]. *)
Definition parseSolutionData (solutionData : jsstring)
    : result (list Json.value) :=
  if negb (Js.truthy solutionData)
     || Js.eqb solutionData (Js.lit "undefined")
     || Js.eqb (Js.trim solutionData) []
  then Throw SolutionDataInvalid
  else
    let solutionData := Js.trim solutionData in
    match Json.parse ([Js.lbracket] ++ solutionData ++ [Js.rbracket]) with
    | None => Throw JsonSyntaxError
    | Some (Json.Arr solution) =>
        if existsb invalidCell solution
        then Throw InvalidCellNumbers
        else Ok solution
    | Some _ => Throw NotAnArray
    end.

Definition extractSolution (p : Page) : result (list Json.value) :=
  match rehydrateData p with
  | None => Throw GameDataNotFound
  | Some scriptContent =>
      if negb (Js.truthy scriptContent)
         || (length (Js.trim scriptContent) =? 0)%nat
      then Throw GameDataEmpty
      else
        let solutionMatch := Regex.exec SOLUTION scriptContent in
        let solutionMatch :=
          match solutionMatch with
          | None => Regex.exec PLAIN_SOLUTION scriptContent
          | Some _ => solutionMatch
          end in
        let solutionMatch :=
          match solutionMatch with
          | None => Regex.exec LOOSE_SOLUTION scriptContent
          | Some _ => solutionMatch
          end in
        match solutionMatch with
        | None => Throw SolutionDataNotFound
        | Some m =>
            if negb (Js.truthy (Regex.group1 m))
            then Throw SolutionDataNotFound
            else
              match parseSolutionData (Regex.group1 m) with
              | Ok solution => Ok solution
              | Throw parseError => Throw (CouldNotParse parseError)
              end
        end
  end.

(** The events of [clickCell] in order inside the [try]: the page they
    leave, and [false] when one of them threw, which skips the rest. *)
Fixpoint dispatchAll (p : Page) (cell : Elem) (es : list dom_event)
    : Page * bool :=
  match es with
  | [] => (p, true)
  | e :: es' =>
      let '(p', delivered) := dispatch p cell e in
      if delivered then dispatchAll p' cell es' else (p', false)
  end.

Definition clickEvents : list dom_event :=
  [ElementClick; MouseDown; MouseUp; MouseClick; PointerDown; PointerUp].

Definition clickCell (cellNumber : Json.value) (a : agent)
    : agent * bool :=
  match querySelector (page a) cellNumber with
  | None => (log (LogCellNotFound cellNumber) a, false)
  | Some cell =>
      let '(p, delivered) := dispatchAll (page a) cell clickEvents in
      if delivered
      then (log (LogCellClicked cellNumber) (set_page p a), true)
      else (log (LogCouldNotClick cellNumber) (set_page p a), false)
  end.

(** [solution.forEach((cellNumber, index) => addTimeout(..., index *
    CLICK_DELAY_MS))] from position [index] on. *)
Fixpoint scheduleClicks (call len index : nat)
    (solution : list Json.value) (a : agent) : agent :=
  match solution with
  | [] => a
  | cellNumber :: rest =>
      scheduleClicks call len (S index) rest
        (fst (addTimeout (ClickStep call cellNumber index len)
                (Z.of_nat index * CLICK_DELAY_MS) a))
  end.

(** [applySolution]: a new promise with its two counters, and one timer
    per cell.  The number returned names the promise. *)
Definition applySolution (solution : list Json.value) (a : agent)
    : agent * nat :=
  let call := length (replays a) in
  let a := set_replays (replays a ++ [Replay 0 0 false None]) a in
  (scheduleClicks call (length solution) 0 solution a, call).

Definition count (success : bool) (r : replay) : replay :=
  if success
  then Replay (S (completedClicks r)) (failedClicks r) (resolved r) (waiter r)
  else Replay (completedClicks r) (S (failedClicks r)) (resolved r) (waiter r).

Definition resolve (r : replay) : replay :=
  Replay (completedClicks r) (failedClicks r) true (waiter r).

(** The body of the timer of one cell. *)
Definition clickStep (call : nat) (cellNumber : Json.value)
    (index len : nat) (a : agent) : agent :=
  let '(a, ok) := clickCell cellNumber a in
  let a := set_replays (alter (count ok) call (replays a)) a in
  if (index =? len - 1)%nat
  then fst (addTimeout (LastMove call) CLICK_DELAY_MS a)
  else a.

(** The body of the timer that follows the last move: the report, then
    [resolve()], on which the functions waiting for the promise run. *)
Definition lastMove (call : nat) (a : agent) : agent :=
  match replays a !! call with
  | None => a
  | Some r =>
      let a := log (LogGameSolved (completedClicks r) (failedClicks r)) a in
      let a :=
        if (0 <? failedClicks r)%nat
        then showNotification (MsgSolvedWithErrors (failedClicks r)) warning a
        else showNotification MsgSolved success a in
      let a := set_replays (alter resolve call (replays a)) a in
      match waiter r with
      | Some rid => sendResponse rid SuccessResponse a
      | None => a
      end
  end.

(** The [try] block of [solveZipGame] from the value of
    [await extractSolution()] on, with the [catch]: every error is
    reported there and the function returns normally. *)
Definition afterExtraction (extracted : result (list Json.value))
    (a : agent) : agent * promise :=
  let attempt :=
    match extracted with
    | Throw e => Throw e
    | Ok solution =>
        if (length solution =? 0)%nat then Throw SolutionEmpty
        else Ok solution
    end in
  match attempt with
  | Ok solution =>
      let a := log (LogSolutionFound solution) a in
      let a := showNotification MsgSolving info a in
      let '(a, call) := applySolution solution a in
      (a, Pending call)
  | Throw e =>
      let a := log (LogErrorOccurred e) a in
      (showNotification (MsgError e) error_ a, Fulfilled)
  end.

Definition solveZipGame (a : agent) : agent * promise :=
  let a := log LogSolving a in
  let a := clearAllTimeouts a in
  afterExtraction (extractSolution (page a)) a.

(** *** Message handling *)

Definition isPageReady (p : Page) : bool :=
  match rehydrateData p with
  | None => false
  | Some textContent =>
      Js.truthy textContent && (READY_MIN_LENGTH <? length textContent)%nat
  end.

Definition attach (rid : nat) (r : replay) : replay :=
  Replay (completedClicks r) (failedClicks r) (resolved r) (Some rid).

(** The listener of [chrome.runtime.onMessage]; [rid] names the
    [sendResponse] of this message.  The boolean is the value the
    listener returns: [true] announces an asynchronous answer. *)
Definition onMessage (req : request) (rid : nat) (a : agent)
    : agent * bool :=
  match req with
  | CheckReady =>
      let ready := isPageReady (page a) in
      (sendResponse rid (ReadyResponse ready) (log (LogReady ready) a),
       false)
  | SolvePuzzle =>
      let '(a, p) := solveZipGame a in
      (match p with
       | Fulfilled => sendResponse rid SuccessResponse a        (* .then *)
       | Rejected e => sendResponse rid (FailureResponse e) a   (* .catch *)
       | Pending call => set_replays (alter (attach rid) call (replays a)) a
       end, true)
  | OtherAction => (a, false)
  end.

(** [beforeunload] *)
Definition onBeforeUnload (a : agent) : agent := clearAllTimeouts a.

(** *** The timers of the browser *)

Definition earlier (t u : timer) : bool :=
  (due t <? due u)%Z || ((due t =? due u)%Z && (tid t <? tid u)%nat).

(** The timer that fires next: the least due time, and among equals the
    one registered first. *)
Fixpoint earliest (ts : list timer) : option timer :=
  match ts with
  | [] => None
  | t :: ts' =>
      match earliest ts' with
      | Some u => if earlier u t then Some u else Some t
      | None => Some t
      end
  end.

Definition runCallback (cb : callback) (a : agent) : agent :=
  match cb with
  | ClickStep call cellNumber index len => clickStep call cellNumber index len a
  | LastMove call => lastMove call a
  | AutoRemove n => hideNotification n a
  | RemoveNode n =>
      if bool_decide (banner a = Some n)
      then set_banner (animationStyleInjected a) (notifications a) None a
      else a
  end.

(** One timer fires, [late] milliseconds after it is due and not before
    the present: the function [addTimeout] wrapped around the callback runs
    it and takes the id out of the registry. *)
Definition fire (late : N) (a : agent) : option agent :=
  match earliest (timers a) with
  | None => None
  | Some t =>
      let a := set_clock (Z.max (clock a) (due t) + Z.of_N late)%Z a in
      let a := set_timers (nextTimeoutId a)
                 (filter (fun u => tid u ≠ tid t) (timers a))
                 (activeTimeouts a) a in
      let a := runCallback (action t) a in
      Some (set_timers (nextTimeoutId a) (timers a)
              (filter (fun id => id ≠ tid t) (activeTimeouts a)) a)
  end.

(** The page left alone while its timers fire, one for each entry of
    [lates], the entry being how late that timer is. *)
Fixpoint run (lates : list N) (a : agent) : agent :=
  match lates with
  | [] => a
  | late :: lates' =>
      match fire late a with
      | Some a' => run lates' a'
      | None => a
      end
  end.

(** A freshly loaded page. *)
Definition start (p : Page) : agent :=
  Agent p 0 1 [] [] false [] None [] [] [].

End Script.

Arguments agent : clear implicits.

End Content.

(** ** The service worker (background.js)

    The worker runs on one thread.  A handler is embedded as running to its
    end: each [await] of the browser is answered by the oracles [deliver]
    and [reject] before the next event is handled.  What the worker asks of
    the browser is recorded in [trace], and the callbacks it hands to
    [setTimeout] wait in [timers] until the event loop fires them. *)

Module Background.

(** *** CONFIG *)

Definition LINKEDIN_ZIP_URL : jsstring :=
  Js.lit "https://www.linkedin.com/games/zip/".
Definition LINKEDIN_ZIP_URL_PATTERN : jsstring :=
  Js.lit "linkedin.com/games/zip".
Definition SCRIPT_INJECTION_DELAY_MS : Z := 100.
Definition MESSAGE_TIMEOUT_MS : Z := 5000.
Definition PAGE_LOAD_DELAY_MS : Z := 500.
Definition RETRY_DELAY_MS : Z := 200.
Definition MAX_RETRIES : nat := 10.
Definition BADGE_CLEAR_DELAY_MS : Z := 3000.

(** [CONFIG.MESSAGES] *)
Inductive message :=
| SOLVE_PUZZLE
| CHECK_READY.

(** The three badge texts: none, the reload sign and the cross. *)
Inductive badge :=
| BadgeEmpty
| BadgeRedirecting
| BadgeFailed.

(** The functions handed to [setTimeout]. *)
Inductive task :=
| RetrySolve (tabId : Z) (retryCount : nat)
    (* [solvePuzzleInTab(tabId, retryCount - 1)] after RETRY_DELAY_MS *)
| AutoSolve (tabId : Z)
    (* [solvePuzzleInTabWithRetry(tabId)] after PAGE_LOAD_DELAY_MS *)
| ClearBadge (tabId : Z).
    (* the error badge taken away after three seconds *)

(** What the worker asks of the browser, in the order it asks. *)
Inductive call :=
| SendMessage (tabId : Z) (m : message)     (* chrome.tabs.sendMessage *)
| ExecuteScript (tabId : Z)                 (* chrome.scripting.executeScript *)
| SetBadgeText (tabId : Z) (text : badge)   (* chrome.action.setBadgeText *)
| SetBadgeBackgroundColor (tabId : Z) (color : string)
| TabsUpdate (tabId : Z) (url : jsstring)   (* chrome.tabs.update *)
| Sleep (ms : Z)               (* awaiting a promise resolved by a timer *)
| SetTimeout (t : task) (ms : Z).

(** What comes back from [chrome.tabs.sendMessage] within the time
    [sendMessageToTab] allows: a response (possibly [undefined]), an
    error in [chrome.runtime.lastError], or nothing. *)
Inductive answer :=
| Answered (r : option Content.response)
| LastError (m : jsstring)
| NoAnswer.

Inductive error :=
| MessageTimedOut                 (* 'Message timed out' *)
| RuntimeError (m : jsstring)     (* chrome.runtime.lastError.message *)
| InjectionError (m : jsstring)   (* `Script injection error: ${error.message}` *)
| ApiError (m : jsstring).        (* a rejected promise of the chrome API *)

Record tab := Tab {
  id : option Z;
  url : option jsstring
}.

Inductive tab_status := loading | complete.

Record change_info := ChangeInfo {
  status : option tab_status
}.

Record worker := Worker {
  pendingSolveTabId : option Z;    (* [let pendingSolveTabId = null] *)
  trace : list call;
  timers : list (task * Z)
}.

Definition isLinkedInZipPage (url : option jsstring) : bool :=
  match url with
  | Some u => Js.truthy u && Js.includes u LINKEDIN_ZIP_URL_PATTERN
  | None => false
  end.

(** [readyResponse && readyResponse.ready] as a condition. *)
Definition readyOf (r : option Content.response) : bool :=
  match r with
  | Some (Content.ReadyResponse b) => b
  | _ => false
  end.

Section Worker.
(** The browser and the pages: how a message to a tab is answered and
    whether a call of the API is rejected, given all that was asked
    before. *)
Variable deliver : list call -> Z -> message -> answer.
Variable reject : list call -> call -> option jsstring.

(** Computations of the worker: they change its state and either return
    or throw. *)
Definition M (A : Type) : Type := worker -> worker * (A + error).

Definition ret {A} (x : A) : M A := fun w => (w, inl x).
Definition throw {A} (e : error) : M A := fun w => (w, inr e).
Definition bind {A B} (m : M A) (k : A -> M B) : M B :=
  fun w =>
    match m w with
    | (w', inl x) => k x w'
    | (w', inr e) => (w', inr e)
    end.
Definition catch {A} (m : M A) (h : error -> M A) : M A :=
  fun w =>
    match m w with
    | (w', inl x) => (w', inl x)
    | (w', inr e) => h e w'
    end.

Notation "x <- m ;; k" := (bind m (fun x => k))
  (at level 100, m at next level, right associativity).
Notation "m ;;; k" := (bind m (fun _ => k))
  (at level 100, right associativity).

Definition record (c : call) (w : worker) : worker :=
  Worker (pendingSolveTabId w) (trace w ++ [c]) (timers w).

Definition setPending (p : option Z) : M unit :=
  fun w => (Worker p (trace w) (timers w), inl tt).

(** A call of the chrome API that returns a promise of nothing. *)
Definition api (c : call) : M unit :=
  fun w =>
    match reject (trace w) c with
    | None => (record c w, inl tt)
    | Some m => (record c w, inr (ApiError m))
    end.

Definition sleep (ms : Z) : M unit :=
  fun w => (record (Sleep ms) w, inl tt).

Definition setTimeout (t : task) (ms : Z) : M unit :=
  fun w =>
    (Worker (pendingSolveTabId w) (trace w ++ [SetTimeout t ms])
       (timers w ++ [(t, ms)]), inl tt).

(** [sendMessageToTab]: the response, the error of the runtime, or a
    timeout after MESSAGE_TIMEOUT_MS. *)
Definition sendMessageToTab (tabId : Z) (m : message)
    : M (option Content.response) :=
  fun w =>
    let w' := record (SendMessage tabId m) w in
    match deliver (trace w) tabId m with
    | Answered r => (w', inl r)
    | LastError e => (w', inr (RuntimeError e))
    | NoAnswer => (w', inr MessageTimedOut)
    end.

Definition injectContentScript (tabId : Z) : M unit :=
  catch (api (ExecuteScript tabId))
    (fun e =>
       match e with
       | ApiError m => throw (InjectionError m)
       | _ => throw e
       end).

Definition sendMessageWithInjection (tabId : Z) (m : message)
    : M (option Content.response) :=
  catch (sendMessageToTab tabId m)
    (fun _ =>
       catch
         (injectContentScript tabId ;;;
          sleep SCRIPT_INJECTION_DELAY_MS ;;;
          sendMessageToTab tabId m)
         (fun injectError => throw injectError)).

(** The [catch] of [solvePuzzleInTab]: the error badge, taken away three
    seconds later; an error of the badge itself is only logged. *)
Definition showErrorBadge (tabId : Z) : M unit :=
  catch
    (api (SetBadgeText tabId BadgeFailed) ;;;
     api (SetBadgeBackgroundColor tabId "#ef4444") ;;;
     setTimeout (ClearBadge tabId) BADGE_CLEAR_DELAY_MS)
    (fun _ => ret tt).

Definition solvePuzzleInTab (tabId : Z) (retryCount : nat) : M unit :=
  catch
    (api (SetBadgeText tabId BadgeEmpty) ;;;
     isReady <- catch
                  (readyResponse <- sendMessageToTab tabId CHECK_READY ;;
                   ret (readyOf readyResponse))
                  (fun _ =>
                     injectContentScript tabId ;;;
                     sleep SCRIPT_INJECTION_DELAY_MS ;;;
                     ret false) ;;
     if negb isReady && (0 <? retryCount)%nat
     then setTimeout (RetrySolve tabId (retryCount - 1)) RETRY_DELAY_MS
     else
       (* at [retryCount === 0] a warning is logged: trying anyway *)
       sendMessageWithInjection tabId SOLVE_PUZZLE ;;;
       ret tt)
    (fun _ => showErrorBadge tabId).

Definition solvePuzzleInTabWithRetry (tabId : Z) : M unit :=
  solvePuzzleInTab tabId MAX_RETRIES.

Definition handleActionClick (t : tab) : M unit :=
  match id t with
  | None => ret tt
  | Some tabId =>
      if (tabId =? 0)%Z then ret tt
      else if negb (isLinkedInZipPage (url t)) then
        catch
          (api (SetBadgeText tabId BadgeRedirecting) ;;;
           api (SetBadgeBackgroundColor tabId "#3b82f6") ;;;
           setPending (Some tabId) ;;;
           api (TabsUpdate tabId LINKEDIN_ZIP_URL))
          (fun _ => setPending None)
      else solvePuzzleInTab tabId MAX_RETRIES
  end.

Definition handleTabUpdate (tabId : Z) (changeInfo : change_info)
    (t : tab) : M unit :=
  fun w =>
    if bool_decide (pendingSolveTabId w = Some tabId)
       && match status changeInfo with
          | Some complete => true
          | _ => false
          end
    then
      (setPending None ;;;
       if isLinkedInZipPage (url t)
       then setTimeout (AutoSolve tabId) PAGE_LOAD_DELAY_MS
       else ret tt) w
    else (w, inl tt).

Definition runTask (t : task) : M unit :=
  match t with
  | RetrySolve tabId retryCount => solvePuzzleInTab tabId retryCount
  | AutoSolve tabId => solvePuzzleInTabWithRetry tabId
  | ClearBadge tabId =>
      catch (api (SetBadgeText tabId BadgeEmpty)) (fun _ => ret tt)
  end.

(** The state an event handler leaves; the handlers catch every error,
    and one that escaped would only be logged. *)
Definition after (m : M unit) (w : worker) : worker := fst (m w).

(** The pending timer at position [i] fires. *)
Definition fire (i : nat) (w : worker) : option worker :=
  match timers w !! i with
  | None => None
  | Some (t, _) =>
      Some (after (runTask t)
              (Worker (pendingSolveTabId w) (trace w)
                 (delete i (timers w))))
  end.

(** One timer fires, whichever. *)
Inductive step : worker -> worker -> Prop :=
| step_fire i w w' : fire i w = Some w' -> step w w'.

(** The timers fire in the order they were set, at most [n] of them. *)
Fixpoint settle (n : nat) (w : worker) : worker :=
  match n with
  | O => w
  | S n' =>
      match fire 0 w with
      | Some w' => settle n' w'
      | None => w
      end
  end.

End Worker.

(** The worker as it starts. *)
Definition start : worker := Worker None [] [].

End Background.

(** ** A page for the examples

    A grid whose cells carry the indices listed in [cells]; every event
    sent to a cell is recorded and no listener throws. *)

Module Grid.

Record grid := Grid {
  payload : option jsstring;
  cells : list N;
  events : list (N * Content.dom_event);
  body : bool
}.

(** The index a cell number selects: the selector is built from the
    decimal text of the number, and the cells carry natural numbers. *)
Definition cellIndex (cellNumber : Json.value) : option N :=
  match cellNumber with
  | Json.Num n =>
      if negb (Json.negative n) && (Json.exp10 n =? 0)%Z
      then Some (Json.mantissa n)
      else None
  | _ => None
  end.

#[global] Instance grid_dom : Content.Dom grid N := {|
  Content.rehydrateData := payload;
  Content.querySelector g cellNumber :=
    match cellIndex cellNumber with
    | Some i => if bool_decide (i ∈ cells g) then Some i else None
    | None => None
    end;
  Content.dispatch g cell e :=
    (Grid (payload g) (cells g) (events g ++ [(cell, e)]) (body g), true);
  Content.hasBody := body
|}.

(** A page with the given payload and cells 0 to 35. *)
Definition withPayload (text : jsstring) : grid :=
  Grid (Some text) (map N.of_nat (seq 0 36)) [] true.

(** A page without the payload element. *)
Definition withoutPayload : grid :=
  Grid None (map N.of_nat (seq 0 36)) [] true.

End Grid.

(** ** The vocabulary of the properties

    What follows is not code of the extension: it names the notions the
    properties of Part II are stated with, and the inputs of the examples. *)

(** *** Extraction *)

Section ExtractionVocabulary.
Import Regex Content.

(** A continuation that needs a closing bracket at once. *)
Definition wants_bracket {A} (k : jsstring -> option A) : Prop :=
  forall x t, x ≠ Js.rbracket -> k (x :: t) = None.

(** The patterns in the order [extractSolution] tries them. *)
Definition patterns : list Regex.regex :=
  [SOLUTION; PLAIN_SOLUTION; LOOSE_SOLUTION].

(** The combinator of the specification: the patterns in order, the first
    that matches wins. *)
Fixpoint firstMatch (ps : list Regex.regex) (text : jsstring)
    : option Regex.match_result :=
  match ps with
  | [] => None
  | r :: ps' =>
      match Regex.exec r text with
      | Some m => Some m
      | None => firstMatch ps' text
      end
  end.

(** What [extractSolution] makes of the match it holds: an empty group is
    no solution data, and an error of the [try] block is wrapped. *)
Definition fromMatch (m : Regex.match_result) : result (list Json.value) :=
  if Js.truthy (Regex.group1 m) then
    match parseSolutionData (Regex.group1 m) with
    | Ok solution => Ok solution
    | Throw parseError => Throw (CouldNotParse parseError)
    end
  else Throw SolutionDataNotFound.

End ExtractionVocabulary.

(** *** The texts of the examples *)

Definition escaped (list_text : string) : jsstring :=
  Content.escaped_key ++ Js.lit list_text.
Definition plain (list_text : string) : jsstring :=
  Content.plain_key ++ Js.lit list_text.

(** An escaped list that does not parse, then a plain list that would. *)
Definition text_unparseable_first : jsstring :=
  escaped "x]" ++ Js.lit " " ++ plain "4,5]".

(** An escaped list, then the plain list with the negative entry. *)
Definition text_escaped_before_negative : jsstring :=
  escaped "7]" ++ Js.lit " " ++ plain "1,-2,3]".

(** Only the plain list with the negative entry. *)
Definition text_negative : jsstring :=
  Js.lit "{" ++ plain "1,-2,3]" ++ Js.lit "}".

(** Two escaped lists, the second being 1,2,3. *)
Definition text_two_escaped : jsstring :=
  escaped "9]" ++ Js.lit "," ++ escaped "1,2,3]".

(** The escaped list 1,2,3 inside other data. *)
Definition text_escaped : jsstring :=
  Js.lit "{" ++ escaped "1,2,3]" ++ Js.lit ",x:[0]}".

(** The escaped key followed by an empty list. *)
Definition text_empty_list : jsstring :=
  Js.lit "{" ++ escaped "]" ++ Js.lit "}".

(** *** The service worker *)

Section WorkerVocabulary.
Import Background.

(** One unsuccessful round of polling with [n] retries left after it. *)
Definition pollRound (tabId : Z) (n : nat) : list call :=
  [SetBadgeText tabId BadgeEmpty; SendMessage tabId CHECK_READY;
   SetTimeout (RetrySolve tabId n) RETRY_DELAY_MS].

(** The rounds that use up a budget of [n]: the timers carry
    [n-1], ..., [0]. *)
Definition pollRounds (tabId : Z) (n : nat) : list call :=
  flat_map (pollRound tabId) (rev (seq 0 n)).

Definition isCheck (c : call) : bool :=
  match c with SendMessage _ CHECK_READY => true | _ => false end.

Definition isRetry (c : call) : bool :=
  match c with SetTimeout (RetrySolve _ _) _ => true | _ => false end.

Definition isSolve (c : call) : bool :=
  match c with SendMessage _ SOLVE_PUZZLE => true | _ => false end.

Definition isRetryTask (t : task * Z) : bool :=
  match t with (RetrySolve _ _, _) => true | _ => false end.

(** The budget a call leaves to the retry it schedules. *)
Definition retryBudget (c : call) : option nat :=
  match c with
  | SetTimeout (RetrySolve _ n) _ => Some n
  | _ => None
  end.

(** What a handler added to the trace and to the timers. *)
Definition asked (w w' : worker) : list call :=
  drop (length (trace w)) (trace w').
Definition scheduled (w w' : worker) : list (task * Z) :=
  drop (length (timers w)) (timers w').

(** The tab whose load would start an automatic solve. *)
Definition tracked (w : worker) (tabId : Z) : Prop :=
  exists changeInfo t,
    scheduled w (after (handleTabUpdate tabId changeInfo t) w)
    = [(AutoSolve tabId, PAGE_LOAD_DELAY_MS)].

End WorkerVocabulary.

(** *** A browser for the examples *)

(** No page is ever ready; the solve command is answered with success. *)
Definition deliver_not_ready (h : list Background.call) (tabId : Z)
    (m : Background.message) : Background.answer :=
  match m with
  | Background.CHECK_READY =>
      Background.Answered (Some (Content.ReadyResponse false))
  | Background.SOLVE_PUZZLE =>
      Background.Answered (Some Content.SuccessResponse)
  end.

(** No agent ever answers. *)
Definition deliver_nothing (h : list Background.call) (tabId : Z)
    (m : Background.message) : Background.answer :=
  Background.NoAnswer.

(** Every call of the API succeeds. *)
Definition accept_all (h : list Background.call) (c : Background.call)
    : option jsstring := None.

(** *** The timers of the content script *)

Section TimerVocabulary.
Import Content.
Context {Page Elem : Type} `{Dom Page Elem}.

Definition isClick (cb : callback) : bool :=
  match cb with ClickStep _ _ _ _ => true | _ => false end.

Definition isLast (call : nat) (cb : callback) : bool :=
  match cb with LastMove c => (c =? call)%nat | _ => false end.

(** A callback schedules only callbacks of less weight, which bounds the
    number of timers that can still fire. *)
Definition weight (cb : callback) : nat :=
  match cb with
  | ClickStep _ _ _ _ => 4
  | LastMove _ => 3
  | AutoRemove _ => 2
  | RemoveNode _ => 1
  end.

Definition load (ts : list timer) : nat :=
  foldr (fun t n => (weight (action t) + n)%nat) 0%nat ts.

(** The state in which the callback of [t] starts, and the state the
    wrapper of [addTimeout] leaves after it. *)
Definition dequeue (late : N) (t : timer) (a : agent Page) : agent Page :=
  let a := set_clock (Z.max (clock a) (due t) + Z.of_N late)%Z a in
  set_timers (nextTimeoutId a)
    (filter (fun u => tid u ≠ tid t) (timers a)) (activeTimeouts a) a.

Definition unregister (t : timer) (a : agent Page) : agent Page :=
  set_timers (nextTimeoutId a) (timers a)
    (filter (fun id => id ≠ tid t) (activeTimeouts a)) a.

(** What one click does to the page, and whether it succeeds. *)
Definition clickOutcome (p : Page) (cellNumber : Json.value) : Page * bool :=
  match querySelector p cellNumber with
  | None => (p, false)
  | Some cell => dispatchAll p cell clickEvents
  end.

(** The clicks of a solution one after the other: the page they leave and
    the outcome at each position. *)
Fixpoint replayAll (p : Page) (solution : list Json.value)
    : Page * list bool :=
  match solution with
  | [] => (p, [])
  | cellNumber :: rest =>
      let '(p1, ok) := clickOutcome p cellNumber in
      let '(p2, oks) := replayAll p1 rest in
      (p2, ok :: oks)
  end.

Definition successes (outcomes : list bool) : nat :=
  length (List.filter (fun ok => ok) outcomes).
Definition failures (outcomes : list bool) : nat :=
  length (List.filter negb outcomes).

(** The timers [scheduleClicks] registers. *)
Fixpoint stepTimers (id : nat) (now : Z) (call len index : nat)
    (solution : list Json.value) : list timer :=
  match solution with
  | [] => []
  | cellNumber :: rest =>
      {| tid := id; due := (now + Z.of_nat index * CLICK_DELAY_MS)%Z;
         action := ClickStep call cellNumber index len |}
      :: stepTimers (S id) now call len (S index) rest
  end.

(** The pending timers have distinct identifiers, all handed out. *)
Definition ids_ok (a : agent Page) : Prop :=
  NoDup (map tid (timers a))
  /\ Forall (fun t => (tid t < nextTimeoutId a)%nat) (timers a).

(** The replay a callback belongs to. *)
Definition callOf (cb : callback) : option nat :=
  match cb with
  | ClickStep c _ _ _ | LastMove c => Some c
  | _ => None
  end.

(** A state in which no click is pending and every pending timer belongs
    to a replay already created; [solveZipGame] reaches [applySolution]
    in such a state. *)
Definition quiet (a : agent Page) : Prop :=
  Forall (fun t => isClick (action t) = false
                   /\ forall c, callOf (action t) = Some c ->
                        (c < length (replays a))%nat) (timers a).

(** A replay has reported its counts. *)
Definition reported (a : agent Page) (call completed failed : nat) : Prop :=
  exists listener,
    replays a !! call = Some (Replay completed failed true listener).

(** Every pending timer is in the registry of [addTimeout]. *)
Definition registered (a : agent Page) : Prop :=
  Forall (fun t => tid t ∈ activeTimeouts a) (timers a).

(** The states the content script can be in: it starts with the page, and
    then messages arrive, timers fire, the notification is clicked, the page
    unloads, or the document changes under it. *)
Inductive reachable : agent Page -> Prop :=
| reach_start p : reachable (start p)
| reach_message req rid a :
    reachable a -> reachable (fst (onMessage req rid a))
| reach_timer late a a' :
    reachable a -> fire late a = Some a' -> reachable a'
| reach_click n a : reachable a -> reachable (onNotificationClick n a)
| reach_unload a : reachable a -> reachable (onBeforeUnload a)
| reach_page p a : reachable a -> reachable (set_page p a).

End TimerVocabulary.

(** *** One replay *)

Section ReplayVocabulary.
Import Content.
Context {Page Elem : Type} `{Dom Page Elem}.
Variables (call n id0 : nat) (t0 : Z) (p0 : Page).
Variable solution : list Json.value.
Variable listener : option nat.

Definition clicksOf (ts : list timer) : list timer :=
  filter (fun t => isClick (action t) = true) ts.
Definition lastsOf (ts : list timer) : list timer :=
  filter (fun t => isLast call (action t) = true) ts.

(** Where the replay stands: clicking, waiting for the timer that
    follows the last move, or reported. *)
Inductive phase (a : agent Page) (rest : list Json.value)
    (completed failed : nat) (res : bool) : Prop :=
| Clicking :
    rest ≠ [] -> lastsOf (timers a) = [] -> res = false ->
    phase a rest completed failed res
| Finishing t :
    rest = [] -> lastsOf (timers a) = [t] -> res = false ->
    phase a rest completed failed res
| Reported :
    rest = [] -> lastsOf (timers a) = [] -> res = true ->
    LogGameSolved completed failed ∈ console a ->
    phase a rest completed failed res.

(** The invariant of a replay: the cells [done] were clicked in order
    on the page, the counters tally their outcomes, and the timers of
    the cells [rest] are the only click timers pending. *)
Record progress (done rest : list Json.value) (a : agent Page) : Prop := {
  pr_split : solution = done ++ rest;
  pr_ids : ids_ok a;
  pr_clicks :
    clicksOf (timers a)
    = stepTimers (id0 + length done) t0 call n (length done) rest;
  pr_page : page a = fst (replayAll p0 done);
  pr_replay :
    exists res,
      replays a !! call
      = Some (Replay (successes (snd (replayAll p0 done)))
                (failures (snd (replayAll p0 done))) res listener)
      /\ phase a rest (successes (snd (replayAll p0 done)))
           (failures (snd (replayAll p0 done))) res
}.

End ReplayVocabulary.

(** *** The replays of the examples *)

(** A solution whose second cell is not on the grid. *)
Definition solution_with_missing_cell : list Json.value :=
  [Json.natural 1; Json.natural 99; Json.natural 2].

(** How late each of twelve timers fires. *)
Definition late_timers : list N := [0; 3; 0; 250; 1; 0; 0; 7; 0; 0; 40; 0].

(** *** The events of a page *)

Section EventVocabulary.
Import Content.
Context {Page Elem : Type} `{Dom Page Elem}.

(** What can happen to the content script once it is loaded. *)
Inductive event :=
| Message (req : request) (rid : nat)   (* a message of the worker arrives *)
| TimerFires (late : N)                 (* the next timer fires *)
| NotificationClicked (n : nat)         (* a click on notification [n] *)
| Unload                                (* [beforeunload] *)
| PageChanges (p : Page).               (* the document changes by itself *)

Definition handle (e : event) (a : agent Page) : agent Page :=
  match e with
  | Message req rid => fst (onMessage req rid a)
  | TimerFires late =>
      match fire late a with
      | Some a' => a'
      | None => a
      end
  | NotificationClicked n => onNotificationClick n a
  | Unload => onBeforeUnload a
  | PageChanges p => set_page p a
  end.

(** The events of a list, one after the other. *)
Fixpoint play (es : list event) (a : agent Page) : agent Page :=
  match es with
  | [] => a
  | e :: es' => play es' (handle e a)
  end.


(** The notification in the document has a timer that will take it away. *)
Definition attended (a : agent Page) : Prop :=
  forall n, banner a = Some n ->
    exists t, t ∈ timers a
              /\ (action t = AutoRemove n \/ action t = RemoveNode n).


End EventVocabulary.
Arguments event : clear implicits.

(** *** The events a page records *)


(** *** The text of a list of numbers *)




(** *** The calls of a solve cycle *)

Section PollingVocabulary.
Import Background.

Definition isInjection (c : call) : bool :=
  match c with ExecuteScript _ => true | _ => false end.

(** The rounds of polling that leave the budgets [n-1] down to [n-k]. *)
Definition pollRoundsFrom (tabId : Z) (n k : nat) : list call :=
  flat_map (pollRound tabId) (rev (seq (n - k) k)).

End PollingVocabulary.

(** *** More browsers for the examples *)

(** The page is ready from the check number [k] on, counting from 0. *)
Definition deliver_ready_after (k : nat) (h : list Background.call)
    (tabId : Z) (m : Background.message) : Background.answer :=
  match m with
  | Background.CHECK_READY =>
      Background.Answered
        (Some (Content.ReadyResponse
                 (negb (length (List.filter isCheck h) <? k)%nat)))
  | Background.SOLVE_PUZZLE =>
      Background.Answered (Some Content.SuccessResponse)
  end.

(** The browser refuses to inject scripts, as on its own pages. *)
Definition refuse_injection (h : list Background.call)
    (c : Background.call) : option jsstring :=
  match c with
  | Background.ExecuteScript _ => Some (Js.lit "Cannot access the page")
  | _ => None
  end.

(** The browser refuses to navigate. *)
Definition refuse_navigation (h : list Background.call)
    (c : Background.call) : option jsstring :=
  match c with
  | Background.TabsUpdate _ _ => Some (Js.lit "No tab with that id")
  | _ => None
  end.

(** *** More texts and timers for the examples *)


(** A payload as a JSON printer that puts a space after the colon writes
    it. *)
Definition text_spaced_json : jsstring :=
  [Js.lbrace; Js.dquote] ++ Js.lit "solution" ++ [Js.dquote]
  ++ Js.lit ": [1, 2, 3]}".

(** A payload of 101 spaces. *)
Definition text_blank : jsstring := repeat 32 101%nat.

(** How late each of twenty-four timers fires. *)
Definition late_timers_twice : list N := late_timers ++ late_timers.

(* ===================================================================== *)
(** * Part II.  Properties                                                *)
(* ===================================================================== *)

(** ** Strings *)

Section StringFacts.

Lemma startsWith_app p r : Js.startsWith p (p ++ r) = true.
Proof.
  induction p as [|a p IH]; simpl; [done|].
  by rewrite N.eqb_refl, IH.
Qed.

Lemma startsWith_inv p s :
  Js.startsWith p s = true -> s = p ++ drop (length p) s.
Proof.
  revert s. induction p as [|a p IH]; intros [|b s]; simpl; try done.
  intros [Hab Hps]%andb_prop.
  apply N.eqb_eq in Hab as ->. f_equal. by apply IH.
Qed.

Lemma indexOf_found s p i :
  Js.indexOf s p = Some i -> Js.startsWith p (drop i s) = true.
Proof.
  revert i. induction s as [|c s IH]; intros i; simpl.
  - destruct (Js.startsWith p []) eqn:E; [|done].
    intros [= <-]. done.
  - destruct (Js.startsWith p (c :: s)) eqn:E.
    + intros [= <-]. done.
    + destruct (Js.indexOf s p) as [j|] eqn:Ej; [|done].
      intros [= <-]. simpl. by apply IH.
Qed.

(** The text from the first occurrence of [p] on. *)
Lemma indexOf_split s p i :
  Js.indexOf s p = Some i ->
  s = take i s ++ p ++ drop (i + length p) s.
Proof.
  intros Hi. pose proof (indexOf_found _ _ _ Hi) as Hp.
  apply startsWith_inv in Hp.
  rewrite <- (take_drop i s) at 1. f_equal.
  rewrite Hp at 1. f_equal. by rewrite drop_drop.
Qed.

Lemma trimStart_keeps c s :
  c ∈ s -> Js.isTrimmable c = false ->
  c ∈ Js.trimStart s.
Proof.
  intros Hin Hc. induction s as [|x s IH]; [done|].
  simpl. destruct (Js.isTrimmable x) eqn:Ex; [|done].
  apply elem_of_cons in Hin as [->|Hin]; [congruence|by apply IH].
Qed.

Lemma trim_keeps c s :
  c ∈ s -> Js.isTrimmable c = false -> c ∈ Js.trim s.
Proof.
  intros Hin Hc. unfold Js.trim, Js.trimEnd.
  apply list_elem_of_In, in_rev. rewrite rev_involutive.
  apply list_elem_of_In, trimStart_keeps; [|done].
  apply list_elem_of_In, in_rev. rewrite rev_involutive.
  by apply list_elem_of_In, trimStart_keeps.
Qed.

(** A text with a character that [trim] keeps passes the emptiness check
    of [extractSolution]. *)
Lemma not_blank c s :
  c ∈ s -> Js.isTrimmable c = false ->
  negb (Js.truthy s) || (length (Js.trim s) =? 0)%nat = false.
Proof.
  intros Hin Hc. pose proof (trim_keeps _ _ Hin Hc) as Ht.
  destruct s; [by apply elem_of_nil in Hin|]. simpl.
  destruct (Js.trim (n :: s)); [by apply elem_of_nil in Ht|done].
Qed.

Lemma trimStart_head s c r :
  Js.trimStart s = c :: r -> Js.isTrimmable c = false.
Proof.
  induction s as [|x s IH]; simpl; [done|].
  destruct (Js.isTrimmable x) eqn:Ex; [done|]. by intros [= <- _].
Qed.

Lemma trimStart_suffix s : exists l, s = l ++ Js.trimStart s.
Proof.
  induction s as [|x s [l IH]]; simpl; [by exists []|].
  destruct (Js.isTrimmable x); [|by exists []].
  exists (x :: l). simpl. by f_equal.
Qed.

Lemma trimStart_idem s : Js.trimStart (Js.trimStart s) = Js.trimStart s.
Proof.
  induction s as [|x s IH]; simpl; [done|].
  destruct (Js.isTrimmable x) eqn:Ex; [done|]. simpl. by rewrite Ex.
Qed.

(** What [trim] returns does not begin with a character it strips. *)
Lemma trim_head s c r : Js.trim s = c :: r -> Js.isTrimmable c = false.
Proof.
  unfold Js.trim, Js.trimEnd. intros Hr.
  destruct (trimStart_suffix (rev (Js.trimStart s))) as [l Hl].
  apply (f_equal (@rev N)) in Hl.
  rewrite rev_involutive, rev_app_distr, Hr in Hl.
  by apply (trimStart_head s c (r ++ rev l)).
Qed.

End StringFacts.

(** ** The matcher *)

Section RegexFacts.
Import Regex.

Lemma match_chars {A} p r s (k : jsstring -> option A) :
  match_atoms (chars p ++ r) s k =
  if Js.startsWith p s then match_atoms r (drop (length p) s) k else None.
Proof.
  revert s. induction p as [|a p IH]; intros s; simpl; [done|].
  destruct s as [|x s]; [done|].
  rewrite (N.eqb_sym a x). destruct (x =? a); [apply IH|done].
Qed.

Lemma exec_unfold r s :
  exec r s =
  match exec_at r s with
  | Some m => Some m
  | None => match s with [] => None | _ :: s' => exec r s' end
  end.
Proof. by destruct s. Qed.

(** No match starts where the literal head of the pattern is absent. *)
Lemma exec_at_needs_key R key r s :
  before R = chars key ++ r ->
  Js.startsWith key s = false ->
  exec_at R s = None.
Proof.
  intros HR Hs. unfold exec_at. by rewrite HR, match_chars, Hs.
Qed.

(** The search skips to the first occurrence of that head. *)
Lemma exec_from_first R key r s i :
  before R = chars key ++ r ->
  Js.indexOf s key = Some i ->
  exec R s = exec R (drop i s).
Proof.
  intros HR. revert i. induction s as [|c s IH]; intros i; simpl Js.indexOf.
  - destruct (Js.startsWith key []); [|done]. by intros [= <-].
  - destruct (Js.startsWith key (c :: s)) eqn:E; [by intros [= <-]|].
    destruct (Js.indexOf s key) as [j|] eqn:Ej; [|done].
    intros [= <-]. rewrite exec_unfold.
    rewrite (exec_at_needs_key R key r _ HR E). simpl. by apply IH.
Qed.

(** A match begins with the first character of the pattern. *)
Lemma Regex_exec_head R c r s m :
  before R = Chr c :: r ->
  exec R s = Some m ->
  c ∈ s.
Proof.
  intros HR. induction s as [|x s IH]; rewrite exec_unfold.
  - unfold exec_at. rewrite HR. done.
  - destruct (exec_at R (x :: s)) eqn:E.
    + intros _. unfold exec_at in E. rewrite HR in E. simpl in E.
      destruct (x =? c) eqn:Exc; [|done].
      apply N.eqb_eq in Exc as ->. apply elem_of_cons. by left.
    + intros Hm. apply elem_of_cons. right. by apply IH.
Qed.

Lemma consumed_app l s : consumed (l ++ s) s = l.
Proof.
  unfold consumed. rewrite length_app.
  replace (length l + length s - length s)%nat with (length l) by lia.
  by rewrite take_app_length.
Qed.

Lemma bracket_then {A} (k : jsstring -> jsstring -> option A) :
  wants_bracket (fun s' => match_atoms [Chr Js.rbracket] s' (k s')).
Proof.
  intros x t Hx. simpl. apply N.eqb_neq in Hx. by rewrite Hx.
Qed.

(** The lazy star of the first pattern stops at the first closing
    bracket. *)
Lemma lazy_star_to_bracket {A} body s (k : jsstring -> option A) :
  wants_bracket k ->
  Forall (fun c => c ≠ Js.rbracket) body ->
  lazy_star (Dot true) k (body ++ s) = lazy_star (Dot true) k s.
Proof.
  intros Hk. induction 1 as [|c body Hc _ IH]; [done|].
  cbn [app lazy_star in_class orb]. by rewrite (Hk _ _ Hc).
Qed.

(** The greedy plus of the other patterns runs to the first closing
    bracket and stays there. *)
Lemma greedy_star_to_bracket {A} body rest (k : jsstring -> option A) :
  wants_bracket k ->
  Forall (fun c => c ≠ Js.rbracket) body ->
  greedy_star (NotChar Js.rbracket) k (body ++ Js.rbracket :: rest)
  = k (Js.rbracket :: rest).
Proof.
  intros Hk. induction 1 as [|c body Hc _ IH].
  - done.
  - cbn [app greedy_star in_class]. rewrite IH.
    pose proof Hc as Hc'. apply N.eqb_neq in Hc'. rewrite Hc'. cbn [negb].
    destruct (k (Js.rbracket :: rest)); [done|]. by apply Hk.
Qed.

(** The first pattern at an occurrence of its key: group 1 is the text up
    to the next closing bracket. *)
Lemma exec_at_SOLUTION body rest :
  Forall (fun c => c ≠ Js.rbracket) body ->
  exec_at Content.SOLUTION
    (Content.escaped_key ++ body ++ Js.rbracket :: rest)
  = Some {| matched := Content.escaped_key ++ body ++ [Js.rbracket];
            group1 := body |}.
Proof.
  intros Hbody. unfold exec_at. cbn [Content.SOLUTION before group after].
  rewrite <- (app_nil_r (chars Content.escaped_key)).
  rewrite match_chars, startsWith_app, drop_app_length.
  cbn [match_atoms app].
  rewrite lazy_star_to_bracket
    by (done || apply (bracket_then (fun _ _ => Some _))).
  cbn [lazy_star]. rewrite N.eqb_refl.
  f_equal. f_equal.
  - rewrite <- (consumed_app (Content.escaped_key ++ body ++ [Js.rbracket]) rest).
    f_equal. by rewrite <- !app_assoc.
  - apply (consumed_app body (Js.rbracket :: rest)).
Qed.

(** The second pattern at an occurrence of its key followed by a
    non-empty list. *)
Lemma exec_at_PLAIN c body rest :
  Forall (fun c => c ≠ Js.rbracket) (c :: body) ->
  exec_at Content.PLAIN_SOLUTION
    (Content.plain_key ++ (c :: body) ++ Js.rbracket :: rest)
  = Some {| matched := Content.plain_key ++ (c :: body) ++ [Js.rbracket];
            group1 := c :: body |}.
Proof.
  intros Hbody. unfold exec_at.
  cbn [Content.PLAIN_SOLUTION before group after].
  rewrite <- (app_nil_r (chars Content.plain_key)).
  rewrite match_chars, startsWith_app, drop_app_length.
  inversion Hbody as [|? ? Hc Hb]; subst.
  cbn [match_atoms app in_class]. apply N.eqb_neq in Hc. rewrite Hc.
  cbn [negb].
  rewrite greedy_star_to_bracket
    by (done || apply (bracket_then (fun _ _ => Some _))).
  rewrite N.eqb_refl.
  f_equal. f_equal.
  - etransitivity;
      [|apply (consumed_app
                 (Content.plain_key ++ (c :: body) ++ [Js.rbracket]) rest)].
    f_equal. by rewrite <- !app_assoc.
  - apply (consumed_app (c :: body) (Js.rbracket :: rest)).
Qed.

End RegexFacts.

(** ** The parser *)

Section JsonFacts.
Import Json.

Lemma skip_ws_length s : (length (skip_ws s) <= length s)%nat.
Proof.
  induction s as [|c s IH]; simpl; [done|].
  destruct (is_ws c); simpl; lia.
Qed.

Lemma span_digits_length s ds r :
  span_digits s = (ds, r) -> (length r + length ds = length s)%nat.
Proof.
  revert ds r. induction s as [|c s IH]; intros ds r; simpl.
  - by intros [= <- <-].
  - destruct (is_digit c).
    + destruct (span_digits s) as [ds' r'] eqn:E. intros [= <- <-].
      specialize (IH _ _ eq_refl). simpl. lia.
    + intros [= <- <-]. simpl. lia.
Qed.

Lemma lex_string_length s str r :
  lex_string s = Some (str, r) -> (length r < length s)%nat.
Proof.
  remember (length s) as n eqn:Hn. revert s str r Hn.
  induction n as [n IH] using lt_wf_ind. intros s str r ->.
  destruct s as [|c s]; simpl; [done|].
  destruct (c =? Js.dquote); [intros [= _ <-]; lia|].
  assert (Hpush : forall x t, (length t < S (length s))%nat ->
            push x (lex_string t) = Some (str, r) ->
            (length r < S (length s))%nat).
  { intros x t Ht. unfold push.
    destruct (lex_string t) as [[str' r']|] eqn:E; [|done].
    intros [= _ <-]. eapply IH in E; [|exact Ht|done]. lia. }
  destruct (c =? Js.backslash).
  - destruct s as [|e s]; [done|]. destruct (e =? 117).
    + destruct s as [|h1 [|h2 [|h3 [|h4 t]]]]; try done.
      destruct (hex4 h1 h2 h3 h4); [|done].
      apply Hpush. simpl. lia.
    + destruct (unescape e); [|done]. apply Hpush. simpl. lia.
  - destruct (c <? 32); [done|]. apply Hpush. lia.
Qed.

Lemma lex_number_length s n r :
  lex_number s = Some (n, r) -> (length r < length s)%nat.
Proof.
  unfold lex_number.
  set (p := match s with
            | c :: s' => if c =? Js.minus then (true, s') else (false, s)
            | [] => (false, s)
            end).
  assert (Hp : (length p.2 <= length s)%nat).
  { subst p. destruct s as [|c s]; simpl; [done|].
    destruct (c =? Js.minus); simpl; lia. }
  destruct p as [neg s0]. simpl in Hp.
  destruct (lex_int s0) as [[ints s1]|] eqn:Ei; [|done].
  assert (H1 : (length s1 < length s0)%nat).
  { unfold lex_int in Ei. destruct s0 as [|c s0]; [done|].
    destruct (c =? 48); [injection Ei as <- <-; simpl; lia|].
    destruct (is_digit c); [|done].
    destruct (span_digits s0) as [ds r'] eqn:E. injection Ei as <- <-.
    apply span_digits_length in E. simpl. lia. }
  destruct (lex_frac s1) as [[fracs s2]|] eqn:Ef; [|done].
  assert (H2 : (length s2 <= length s1)%nat).
  { unfold lex_frac in Ef. destruct s1 as [|c s1]; [by injection Ef as <- <-|].
    destruct (c =? Js.dot); [|by injection Ef as <- <-].
    destruct (span_digits s1) as [ds r'] eqn:E.
    apply span_digits_length in E.
    destruct ds; [done|]. injection Ef as <- <-. simpl. lia. }
  destruct (lex_exp s2) as [[e s3]|] eqn:Ee; [|done].
  assert (H3 : (length s3 <= length s2)%nat).
  { unfold lex_exp in Ee. destruct s2 as [|c s2]; [by injection Ee as <- <-|].
    destruct ((c =? 101) || (c =? 69)); [|by injection Ee as <- <-].
    set (q := match s2 with
              | d :: t =>
                  if d =? Js.minus then (true, t)
                  else if d =? Js.plus then (false, t) else (false, s2)
              | [] => (false, s2)
              end) in Ee.
    assert (Hq : (length q.2 <= length s2)%nat).
    { subst q. destruct s2 as [|d t]; simpl; [done|].
      destruct (d =? Js.minus); simpl; [lia|].
      destruct (d =? Js.plus); simpl; lia. }
    destruct q as [sg s2']. simpl in Hq.
    destruct (span_digits s2') as [ds r'] eqn:E.
    apply span_digits_length in E.
    destruct ds; [done|]. injection Ee as <- <-. simpl. lia. }
  intros [= _ <-]. lia.
Qed.

Lemma startsWith_length p s :
  Js.startsWith p s = true -> (length p <= length s)%nat.
Proof.
  intros E%startsWith_inv. rewrite E, length_app. lia.
Qed.

Ltac parse_result E :=
  match goal with
  | |- context [match ?x with POk _ _ => _ | PSyntax => _ | PFuel => _ end] =>
      destruct x eqn:E; [|done|done]
  end.

(** Every value, element list and member list takes at least one
    character. *)
Lemma parse_lengths f :
  (forall s v r, parse_value f s = POk v r -> (length r < length s)%nat)
  /\ (forall s vs r, parse_elements f s = POk vs r -> (length r < length s)%nat)
  /\ (forall s ms r, parse_members f s = POk ms r -> (length r < length s)%nat).
Proof.
  induction f as [|f (IHv & IHe & IHm)]; [by repeat split|].
  repeat split.
  - intros s v r. cbn [parse_value]. destruct s as [|c s]; [done|].
    destruct (c =? Js.lbracket).
    { pose proof (skip_ws_length s) as Hs.
      destruct (skip_ws s) as [|c' s''] eqn:E; [done|]. simpl in Hs.
      destruct (c' =? Js.rbracket); [intros [= _ <-]; simpl; lia|].
      parse_result E2. intros [= _ <-]. apply IHe in E2. simpl in *. lia. }
    destruct (c =? Js.lbrace).
    { pose proof (skip_ws_length s) as Hs.
      destruct (skip_ws s) as [|c' s''] eqn:E; [done|]. simpl in Hs.
      destruct (c' =? Js.rbrace); [intros [= _ <-]; simpl; lia|].
      parse_result E2. intros [= _ <-]. apply IHm in E2. simpl in *. lia. }
    destruct (c =? Js.dquote).
    { destruct (lex_string s) as [[str r']|] eqn:E; [|done].
      intros [= _ <-]. apply lex_string_length in E. simpl. lia. }
    destruct (Js.startsWith (Js.lit "true") (c :: s)) eqn:Et.
    { intros [= _ <-]. apply startsWith_length in Et.
      rewrite length_drop. cbn in Et |- *. lia. }
    destruct (Js.startsWith (Js.lit "false") (c :: s)) eqn:Ef.
    { intros [= _ <-]. apply startsWith_length in Ef.
      rewrite length_drop. cbn in Ef |- *. lia. }
    destruct (Js.startsWith (Js.lit "null") (c :: s)) eqn:En.
    { intros [= _ <-]. apply startsWith_length in En.
      rewrite length_drop. cbn in En |- *. lia. }
    destruct (lex_number (c :: s)) as [[n r']|] eqn:E; [|done].
    intros [= _ <-]. by apply lex_number_length in E.
  - intros s vs r. cbn [parse_elements]. parse_result E.
    apply IHv in E. pose proof (skip_ws_length rest) as Hs.
    destruct (skip_ws rest) as [|c r'] eqn:E1; [done|]. simpl in Hs.
    destruct (c =? Js.comma).
    { parse_result E2. intros [= _ <-]. apply IHe in E2.
      pose proof (skip_ws_length r'). lia. }
    destruct (c =? Js.rbracket); [|done]. intros [= _ <-]. lia.
  - intros s ms r. cbn [parse_members]. destruct s as [|q s1]; [done|].
    destruct (q =? Js.dquote); [|done].
    destruct (lex_string s1) as [[key s2]|] eqn:E; [|done].
    apply lex_string_length in E. pose proof (skip_ws_length s2) as Hs2.
    destruct (skip_ws s2) as [|c s3] eqn:E2; [done|]. simpl in Hs2.
    destruct (c =? Js.colon); [|done].
    parse_result E3. apply IHv in E3.
    pose proof (skip_ws_length s3) as Hs3.
    pose proof (skip_ws_length rest) as Hs4.
    destruct (skip_ws rest) as [|d s5] eqn:E4; [done|]. simpl in Hs4.
    destruct (d =? Js.comma).
    { parse_result E5. intros [= _ <-]. apply IHm in E5.
      pose proof (skip_ws_length s5). simpl. lia. }
    destruct (d =? Js.rbrace); [|done]. intros [= _ <-]. simpl. lia.
Qed.

(** With fuel twice the length of the text the parser never runs out. *)
Lemma parse_fuel f :
  (forall s, (2 * length s + 1 <= f)%nat -> parse_value f s ≠ PFuel)
  /\ (forall s, (2 * length s + 2 <= f)%nat -> parse_elements f s ≠ PFuel)
  /\ (forall s, (2 * length s + 2 <= f)%nat -> parse_members f s ≠ PFuel).
Proof.
  induction f as [|f (IHv & IHe & IHm)]; [repeat split; intros; lia|].
  destruct (parse_lengths f) as (Lv & Le & Lm).
  repeat split.
  - intros s Hf. cbn [parse_value]. destruct s as [|c s]; [done|].
    simpl in Hf.
    destruct (c =? Js.lbracket).
    { pose proof (skip_ws_length s) as Hs.
      destruct (skip_ws s) as [|c' s''] eqn:E; [done|].
      destruct (c' =? Js.rbracket); [done|].
      destruct (parse_elements f (c' :: s'')) eqn:E2; try done.
      exfalso. revert E2. apply IHe. lia. }
    destruct (c =? Js.lbrace).
    { pose proof (skip_ws_length s) as Hs.
      destruct (skip_ws s) as [|c' s''] eqn:E; [done|].
      destruct (c' =? Js.rbrace); [done|].
      destruct (parse_members f (c' :: s'')) eqn:E2; try done.
      exfalso. revert E2. apply IHm. lia. }
    destruct (c =? Js.dquote); [by destruct (lex_string s) as [[??]|]|].
    destruct (Js.startsWith (Js.lit "true") (c :: s)); [done|].
    destruct (Js.startsWith (Js.lit "false") (c :: s)); [done|].
    destruct (Js.startsWith (Js.lit "null") (c :: s)); [done|].
    by destruct (lex_number (c :: s)) as [[??]|].
  - intros s Hf. cbn [parse_elements].
    destruct (parse_value f s) as [v r| |] eqn:E; [|done|].
    + apply Lv in E. pose proof (skip_ws_length r) as Hs.
      destruct (skip_ws r) as [|c r'] eqn:E1; [done|]. simpl in Hs.
      destruct (c =? Js.comma).
      { pose proof (skip_ws_length r').
        destruct (parse_elements f (skip_ws r')) eqn:E2; try done.
        exfalso. revert E2. apply IHe. lia. }
      by destruct (c =? Js.rbracket).
    + exfalso. revert E. apply IHv. lia.
  - intros s Hf. cbn [parse_members]. destruct s as [|q s1]; [done|].
    simpl in Hf.
    destruct (q =? Js.dquote); [|done].
    destruct (lex_string s1) as [[key s2]|] eqn:E; [|done].
    apply lex_string_length in E. pose proof (skip_ws_length s2) as Hs2.
    destruct (skip_ws s2) as [|c s3] eqn:E2; [done|]. simpl in Hs2.
    destruct (c =? Js.colon); [|done].
    pose proof (skip_ws_length s3) as Hs3.
    destruct (parse_value f (skip_ws s3)) as [v s4| |] eqn:E3; [|done|].
    + apply Lv in E3. pose proof (skip_ws_length s4) as Hs4.
      destruct (skip_ws s4) as [|d s5] eqn:E4; [done|]. simpl in Hs4.
      destruct (d =? Js.comma).
      { pose proof (skip_ws_length s5).
        destruct (parse_members f (skip_ws s5)) eqn:E5; try done.
        exfalso. revert E5. apply IHm. lia. }
      by destruct (d =? Js.rbrace).
    + exfalso. revert E3. apply IHv. lia.
Qed.

(** [None] from [parse] is a syntax error, never a lack of fuel. *)
Lemma parse_text_fuel text : parse_text text ≠ PFuel.
Proof.
  unfold parse_text.
  destruct (parse_value (enough text) (skip_ws text)) as [v r| |] eqn:E.
  - by destruct (skip_ws r).
  - done.
  - exfalso. revert E. apply (proj1 (parse_fuel _)).
    pose proof (skip_ws_length text). unfold enough. lia.
Qed.

Lemma parse_elements_nonempty f s vs r :
  parse_elements f s = POk vs r -> vs ≠ [].
Proof.
  destruct f as [|f]; [done|]. cbn [parse_elements].
  destruct (parse_value f s) as [v r0| |]; [|done|done].
  destruct (skip_ws r0) as [|c r']; [done|].
  destruct (c =? Js.comma).
  - destruct (parse_elements f (skip_ws r')); [|done|done].
    by intros [= <- _].
  - destruct (c =? Js.rbracket); [|done]. by intros [= <- _].
Qed.

Lemma skip_ws_head c s : is_ws c = false -> skip_ws (c :: s) = c :: s.
Proof. intros Hc. simpl. by rewrite Hc. Qed.

Lemma skip_ws_nil s : skip_ws s = [] -> Forall (fun c => is_ws c = true) s.
Proof.
  induction s as [|c s IH]; simpl; [done|].
  destruct (is_ws c) eqn:E; [|done]. intros Hs. constructor; auto.
Qed.

(** A text in brackets parses to the empty array only when it is blank. *)
Lemma parse_empty_array t :
  parse ([Js.lbracket] ++ t ++ [Js.rbracket]) = Some (Arr []) ->
  Forall (fun c => is_ws c = true) t.
Proof.
  unfold parse, parse_text.
  set (f := enough _). simpl app.
  rewrite skip_ws_head by done.
  destruct f as [|f]; [done|]. cbn [parse_value].
  rewrite N.eqb_refl.
  destruct (skip_ws (t ++ [Js.rbracket])) as [|c' s''] eqn:E; [done|].
  destruct (c' =? Js.rbracket) eqn:Ec.
  - apply N.eqb_eq in Ec as ->.
    destruct (skip_ws s'') eqn:E2; [|done]. intros _.
    apply skip_ws_nil in E2.
    (* the bracket found is the closing one *)
    clear f. revert s'' E E2. induction t as [|x t IH]; intros s'' E E2.
    + done.
    + simpl in E. destruct (is_ws x) eqn:Ex.
      * constructor; [done|]. by apply (IH s'').
      * injection E as -> <-. exfalso.
        apply Forall_app in E2 as [_ E2].
        by inversion E2.
  - destruct (parse_elements f (c' :: s'')) as [vs r| |] eqn:E2; [|done|done].
    apply parse_elements_nonempty in E2.
    destruct (skip_ws r); [|done]. intros [= ->]. done.
Qed.

End JsonFacts.

(** ** Extraction *)

Section ExtractionFacts.
Import Content.
Context {Page Elem : Type} `{Dom Page Elem}.

Lemma firstMatch_not_blank text m :
  firstMatch patterns text = Some m ->
  negb (Js.truthy text) || (length (Js.trim text) =? 0)%nat = false.
Proof.
  unfold patterns, firstMatch.
  destruct (Regex.exec SOLUTION text) eqn:E1.
  { intros _. eapply (not_blank Js.backslash); [|done].
    eapply Regex_exec_head; [|exact E1]. reflexivity. }
  destruct (Regex.exec PLAIN_SOLUTION text) eqn:E2.
  { intros _. eapply (not_blank Js.dquote); [|done].
    eapply Regex_exec_head; [|exact E2]. reflexivity. }
  destruct (Regex.exec LOOSE_SOLUTION text) eqn:E3; [|done].
  intros _. eapply (not_blank 115); [|done].
  eapply Regex_exec_head; [|exact E3]. reflexivity.
Qed.

(** [extractSolution] on a text one of the patterns matches. *)
Lemma extract_firstMatch p text m :
  rehydrateData p = Some text ->
  firstMatch patterns text = Some m ->
  extractSolution p = fromMatch m.
Proof.
  intros Hp Hm. unfold extractSolution. rewrite Hp.
  rewrite (firstMatch_not_blank _ _ Hm).
  unfold patterns, firstMatch in Hm. unfold fromMatch.
  destruct (Regex.exec SOLUTION text) as [m1|].
  { injection Hm as ->. by destruct (Js.truthy (Regex.group1 m)). }
  destruct (Regex.exec PLAIN_SOLUTION text) as [m2|].
  { injection Hm as ->. by destruct (Js.truthy (Regex.group1 m)). }
  destruct (Regex.exec LOOSE_SOLUTION text) as [m3|]; [|done].
  injection Hm as ->. by destruct (Js.truthy (Regex.group1 m)).
Qed.

Lemma extract_no_match p text :
  rehydrateData p = Some text ->
  firstMatch patterns text = None ->
  extractSolution p = Throw GameDataEmpty
  \/ extractSolution p = Throw SolutionDataNotFound.
Proof.
  intros Hp Hm. unfold extractSolution. rewrite Hp.
  destruct (negb (Js.truthy text) || _); [by left|right].
  unfold patterns, firstMatch in Hm.
  destruct (Regex.exec SOLUTION text); [done|].
  destruct (Regex.exec PLAIN_SOLUTION text); [done|].
  by destruct (Regex.exec LOOSE_SOLUTION text).
Qed.

(** The first pattern on a text whose first escaped key is followed by
    [body] and a closing bracket. *)
Lemma exec_SOLUTION_first text i body :
  Js.indexOf text escaped_key = Some i ->
  Js.startsWith (body ++ [Js.rbracket])
    (drop (i + length escaped_key) text) = true ->
  Forall (fun c => c ≠ Js.rbracket) body ->
  Regex.exec SOLUTION text
  = Some {| Regex.matched := escaped_key ++ body ++ [Js.rbracket];
            Regex.group1 := body |}.
Proof.
  intros Hi Hb Hbody.
  rewrite (exec_from_first SOLUTION escaped_key [] text i)
    by (done || by rewrite app_nil_r).
  pose proof (indexOf_found _ _ _ Hi) as Hk. apply startsWith_inv in Hk.
  apply startsWith_inv in Hb. rewrite drop_drop in Hk.
  rewrite Hb, <- app_assoc in Hk. rewrite Hk.
  rewrite exec_unfold. simpl ([Js.rbracket] ++ _).
  by rewrite exec_at_SOLUTION.
Qed.

Lemma exec_PLAIN_first text i c body :
  Js.indexOf text plain_key = Some i ->
  Js.startsWith ((c :: body) ++ [Js.rbracket])
    (drop (i + length plain_key) text) = true ->
  Forall (fun c => c ≠ Js.rbracket) (c :: body) ->
  Regex.exec PLAIN_SOLUTION text
  = Some {| Regex.matched := plain_key ++ (c :: body) ++ [Js.rbracket];
            Regex.group1 := c :: body |}.
Proof.
  intros Hi Hb Hbody.
  rewrite (exec_from_first PLAIN_SOLUTION plain_key [] text i)
    by (done || by rewrite app_nil_r).
  pose proof (indexOf_found _ _ _ Hi) as Hk. apply startsWith_inv in Hk.
  apply startsWith_inv in Hb. rewrite drop_drop in Hk.
  rewrite Hb, <- app_assoc in Hk. rewrite Hk.
  rewrite exec_unfold. simpl ([Js.rbracket] ++ _).
  by rewrite exec_at_PLAIN.
Qed.

(** A returned solution passed the validation. *)
Lemma parseSolutionData_valid data solution :
  parseSolutionData data = Ok solution ->
  existsb invalidCell solution = false
  /\ Json.parse ([Js.lbracket] ++ Js.trim data ++ [Js.rbracket])
     = Some (Json.Arr solution)
  /\ Js.trim data ≠ [].
Proof.
  unfold parseSolutionData.
  destruct (negb (Js.truthy data) || Js.eqb data (Js.lit "undefined")
            || Js.eqb (Js.trim data) []) eqn:E; [done|].
  apply orb_false_elim in E as [_ E]. unfold Js.eqb in E.
  apply bool_decide_eq_false in E.
  destruct (Json.parse _) as [[| | | |arr|]|]; try done.
  destruct (existsb invalidCell arr) eqn:Ev; [done|].
  by intros [= <-].
Qed.

Lemma extract_Ok p solution :
  extractSolution p = Ok solution ->
  exists data, parseSolutionData data = Ok solution.
Proof.
  unfold extractSolution.
  destruct (rehydrateData p) as [text|]; [|done].
  destruct (negb (Js.truthy text) || _); [done|].
  set (m := match _ with Some _ => _ | None => Regex.exec LOOSE_SOLUTION text end).
  destruct m as [m|]; [|done].
  destruct (negb (Js.truthy (Regex.group1 m))); [done|].
  destruct (parseSolutionData (Regex.group1 m)) eqn:E; [|done].
  intros [= <-]. eauto.
Qed.

(** An array with an invalid cell is rejected as a whole. *)
Lemma parseSolutionData_invalid data arr :
  Json.parse ([Js.lbracket] ++ Js.trim data ++ [Js.rbracket])
  = Some (Json.Arr arr) ->
  existsb invalidCell arr = true ->
  parseSolutionData data = Throw InvalidCellNumbers.
Proof.
  intros Hparse Hbad. unfold parseSolutionData.
  destruct (negb (Js.truthy data) || Js.eqb data (Js.lit "undefined")
            || Js.eqb (Js.trim data) []) eqn:E.
  - exfalso. apply orb_prop in E as [E|E]; [apply orb_prop in E as [E|E]|].
    + destruct data; [|done]. vm_compute in Hparse.
      injection Hparse as <-. done.
    + unfold Js.eqb in E. apply bool_decide_eq_true in E. subst data.
      vm_compute in Hparse. done.
    + unfold Js.eqb in E. apply bool_decide_eq_true in E.
      rewrite E in Hparse. vm_compute in Hparse.
      injection Hparse as <-. done.
  - by rewrite Hparse, Hbad.
Qed.

End ExtractionFacts.

Section ExtractionClaims.
Import Content.
Context {Page Elem : Type} `{Dom Page Elem}.

(** C3.  The three patterns have a fixed priority: the result of
    extraction is what the first pattern that matches yields, whatever the
    later patterns would match, and when the list it captured does not
    parse, extraction fails; there is no fallback. *)
Theorem extraction_first_match_wins p text :
  rehydrateData p = Some text ->
  (forall m, Regex.exec SOLUTION text = Some m ->
             extractSolution p = fromMatch m)
  /\ (forall m, Regex.exec SOLUTION text = None ->
                Regex.exec PLAIN_SOLUTION text = Some m ->
                extractSolution p = fromMatch m)
  /\ (forall m, Regex.exec SOLUTION text = None ->
                Regex.exec PLAIN_SOLUTION text = None ->
                Regex.exec LOOSE_SOLUTION text = Some m ->
                extractSolution p = fromMatch m)
  /\ (forall m e, Js.truthy (Regex.group1 m) = true ->
                  parseSolutionData (Regex.group1 m) = Throw e ->
                  fromMatch m = Throw (CouldNotParse e)).
Proof.
  intros Hp. repeat split.
  - intros m Hm. apply (extract_firstMatch p text); [done|].
    unfold patterns, firstMatch. by rewrite Hm.
  - intros m H1 Hm. apply (extract_firstMatch p text); [done|].
    unfold patterns, firstMatch. by rewrite H1, Hm.
  - intros m H1 H2 Hm. apply (extract_firstMatch p text); [done|].
    unfold patterns, firstMatch. by rewrite H1, H2, Hm.
  - intros m e Ht He. unfold fromMatch. by rewrite Ht, He.
Qed.

(** C4, amended.  When the escaped pattern does not match and the first
    plain key of the text is followed by 1,-2,3 and a closing bracket,
    extraction fails with the parse error of invalid cell numbers.  Every
    element of a returned solution is a number that is not negative, and
    an array with one entry that is negative or not a number fails the
    whole extraction. *)
Theorem negative_entry_rejected p text :
  rehydrateData p = Some text ->
  (forall i, Regex.exec SOLUTION text = None ->
             Js.indexOf text plain_key = Some i ->
             Js.startsWith (Js.lit "1,-2,3]")
               (drop (i + length plain_key) text) = true ->
             extractSolution p = Throw (CouldNotParse InvalidCellNumbers))
  /\ (forall solution, extractSolution p = Ok solution ->
        Forall (fun cell => exists n, cell = Json.Num n /\ Json.ge0 n = true)
          solution)
  /\ (forall m arr,
        firstMatch patterns text = Some m ->
        Json.parse ([Js.lbracket] ++ Js.trim (Regex.group1 m) ++ [Js.rbracket])
        = Some (Json.Arr arr) ->
        existsb invalidCell arr = true ->
        extractSolution p = Throw (CouldNotParse InvalidCellNumbers)).
Proof.
  intros Hp. repeat split.
  - intros i H1 Hi Hs.
    pose proof (exec_PLAIN_first text i 49 (Js.lit ",-2,3") Hi Hs) as H2.
    assert (Hbody : Forall (fun c => c ≠ Js.rbracket) (49 :: Js.lit ",-2,3"))
      by (vm_compute; repeat constructor; done).
    specialize (H2 Hbody).
    rewrite (extract_firstMatch p text _ Hp
               ltac:(unfold patterns, firstMatch; rewrite H1, H2; done)).
    by vm_compute.
  - intros solution [data Hd]%extract_Ok.
    apply parseSolutionData_valid in Hd as (Hv & _ & _).
    apply Forall_forall. intros cell Hin.
    assert (Hc : invalidCell cell = false).
    { destruct (invalidCell cell) eqn:E; [|done].
      rewrite <- Hv. symmetry. apply existsb_exists.
      exists cell. split; [by apply list_elem_of_In|done]. }
    destruct cell; try done. exists n. split; [done|].
    unfold Json.ge0. simpl in Hc. by rewrite Hc.
  - intros m arr Hm Hparse Hbad.
    rewrite (extract_firstMatch p text m Hp Hm). unfold fromMatch.
    rewrite (parseSolutionData_invalid _ _ Hparse Hbad).
    destruct (Js.truthy (Regex.group1 m)) eqn:Et; [done|].
    destruct (Regex.group1 m); [|done]. vm_compute in Hparse.
    injection Hparse as <-. done.
Qed.

(** C5, amended.  When the first escaped key of the text is followed by
    1,2,3 and a closing bracket, extraction returns the solution
    1, 2, 3. *)
Theorem escaped_solution_extracted p text i :
  rehydrateData p = Some text ->
  Js.indexOf text escaped_key = Some i ->
  Js.startsWith (Js.lit "1,2,3]") (drop (i + length escaped_key) text) = true ->
  extractSolution p = Ok [Json.natural 1; Json.natural 2; Json.natural 3].
Proof.
  intros Hp Hi Hs.
  pose proof (exec_SOLUTION_first text i (Js.lit "1,2,3") Hi Hs) as H1.
  assert (Hbody : Forall (fun c => c ≠ Js.rbracket) (Js.lit "1,2,3"))
    by (vm_compute; repeat constructor; done).
  specialize (H1 Hbody).
  rewrite (extract_firstMatch p text _ Hp
             ltac:(unfold patterns, firstMatch; rewrite H1; done)).
  by vm_compute.
Qed.

End ExtractionClaims.

Lemma extraction_first_match_wins_witness :
  Content.extractSolution (Grid.withPayload text_unparseable_first)
  = Content.Throw (Content.CouldNotParse Content.JsonSyntaxError)
  /\ (exists m, Regex.exec Content.PLAIN_SOLUTION text_unparseable_first = Some m
                /\ fromMatch m = Content.Ok [Json.natural 4; Json.natural 5]).
Proof.
  destruct (@extraction_first_match_wins _ _ Grid.grid_dom
              (Grid.withPayload text_unparseable_first)
              text_unparseable_first eq_refl) as (H1 & _ & _ & H4).
  split.
  - rewrite (H1 {| Regex.matched := escaped "x]"; Regex.group1 := Js.lit "x" |});
      [|vm_compute; reflexivity].
    apply H4; vm_compute; reflexivity.
  - eexists. split; vm_compute; reflexivity.
Defined.

Lemma negative_entry_rejected_counterexample :
  ~ (Js.includes text_escaped_before_negative (plain "1,-2,3]") = true ->
     exists e, Content.extractSolution
                 (Grid.withPayload text_escaped_before_negative)
               = Content.Throw (Content.CouldNotParse e)).
Proof.
  intros Hc. destruct Hc as [e He]; [vm_compute; reflexivity|].
  vm_compute in He. discriminate He.
Qed.

Lemma negative_entry_rejected_witness :
  Content.extractSolution (Grid.withPayload text_negative)
  = Content.Throw (Content.CouldNotParse Content.InvalidCellNumbers).
Proof.
  destruct (@negative_entry_rejected _ _ Grid.grid_dom
              (Grid.withPayload text_negative)
              text_negative eq_refl) as (H1 & _ & _).
  apply (H1 1%nat); vm_compute; reflexivity.
Defined.

Lemma escaped_solution_extracted_counterexample :
  ~ (Js.includes text_two_escaped (escaped "1,2,3]") = true ->
     Content.extractSolution (Grid.withPayload text_two_escaped)
     = Content.Ok [Json.natural 1; Json.natural 2; Json.natural 3]).
Proof.
  intros Hc. specialize (Hc ltac:(vm_compute; reflexivity)).
  vm_compute in Hc. discriminate Hc.
Qed.

Lemma escaped_solution_extracted_witness :
  Content.extractSolution (Grid.withPayload text_escaped)
  = Content.Ok [Json.natural 1; Json.natural 2; Json.natural 3].
Proof.
  apply (escaped_solution_extracted (Grid.withPayload text_escaped)
           text_escaped 1%nat); vm_compute; reflexivity.
Defined.

(** ** The service worker *)

Section WorkerFacts.
Import Background.
Variable deliver : list call -> Z -> message -> answer.
Variable reject : list call -> call -> option jsstring.

Abbreviation solvePuzzleInTab := (solvePuzzleInTab deliver reject).
Abbreviation sendMessageWithInjection :=
  (sendMessageWithInjection deliver reject).
Abbreviation handleActionClick := (handleActionClick deliver reject).

(** Case analysis on what the browser answers, one call at a time. *)
Ltac answer_calls :=
  repeat (cbn [trace pendingSolveTabId timers fst snd negb andb];
          rewrite <- ?app_assoc; cbn [app];
          match goal with
          | |- context [match deliver ?h ?t ?m with _ => _ end] =>
              destruct (deliver h t m)
          | |- context [match reject ?h ?c with _ => _ end] =>
              destruct (reject h c)
          | |- context [readyOf ?r] => destruct (readyOf r)
          | |- context [(0 <? ?n)%nat] => destruct (0 <? n)%nat
          end).

Lemma fire_head p tr t d ts :
  fire deliver reject 0 (Worker p tr ((t, d) :: ts))
  = Some (after (runTask deliver reject t) (Worker p tr ts)).
Proof. reflexivity. Qed.

Section Polling.
Variable tabId : Z.
Hypothesis badge_accepted :
  forall h, reject h (SetBadgeText tabId BadgeEmpty) = None.
Hypothesis never_ready :
  forall h, exists r,
    deliver h tabId CHECK_READY = Answered r /\ readyOf r = false.

(** An unsuccessful check with budget left sets one timer with the
    budget less one. *)
Lemma poll_retry n w :
  after (solvePuzzleInTab tabId (S n)) w
  = Worker (pendingSolveTabId w) (trace w ++ pollRound tabId n)
      (timers w ++ [(RetrySolve tabId n, RETRY_DELAY_MS)]).
Proof.
  unfold after, Background.solvePuzzleInTab, catch, bind, api,
    sendMessageToTab, ret, record.
  rewrite badge_accepted. cbn [trace pendingSolveTabId timers].
  destruct (never_ready (trace w ++ [SetBadgeText tabId BadgeEmpty]))
    as (r & -> & ->).
  cbn. rewrite Nat.sub_0_r. by rewrite <- !app_assoc.
Qed.

(** The rounds of a budget of [n], then the check with no budget left. *)
Lemma poll_rounds n w :
  timers w = [] ->
  settle deliver reject n (after (solvePuzzleInTab tabId n) w)
  = after (solvePuzzleInTab tabId 0)
      (Worker (pendingSolveTabId w) (trace w ++ pollRounds tabId n) []).
Proof.
  revert w. induction n as [|n IH]; intros [p tr ts] Hts; simpl in Hts; subst ts.
  - unfold pollRounds. simpl. by rewrite app_nil_r.
  - rewrite poll_retry. cbn [settle timers pendingSolveTabId trace app].
    rewrite fire_head. cbn [runTask].
    rewrite IH by done. cbn [pendingSolveTabId trace].
    do 2 f_equal. unfold pollRounds.
    rewrite seq_S, rev_app_distr. cbn [rev app flat_map plus].
    by rewrite <- app_assoc.
Qed.

(** While polling, one timer is pending at a time, so the order in which
    the event loop fires timers does not matter. *)
Lemma poll_any_order n w w' :
  timers w = [] ->
  nsteps (step deliver reject) n (after (solvePuzzleInTab tabId n) w) w' ->
  w' = settle deliver reject n (after (solvePuzzleInTab tabId n) w).
Proof.
  revert w. induction n as [|n IH]; intros [p tr ts] Hts Hsteps;
    simpl in Hts; subst ts.
  - by inversion Hsteps.
  - rewrite poll_retry in Hsteps |- *.
    cbn [settle timers pendingSolveTabId trace app] in *.
    rewrite fire_head. cbn [runTask].
    inversion Hsteps as [|? ? w2 ? Hstep Hrest]; subst.
    inversion Hstep as [i ? ? Hfire]; subst.
    destruct i as [|i]; [|by unfold fire in Hfire].
    rewrite fire_head in Hfire. injection Hfire as <-.
    by apply IH.
Qed.

(** With no budget left the solve command follows the check. *)
Lemma poll_exhausted w :
  exists rest,
    trace (after (solvePuzzleInTab tabId 0) w)
    = trace w ++ [SetBadgeText tabId BadgeEmpty;
                  SendMessage tabId CHECK_READY;
                  SendMessage tabId SOLVE_PUZZLE] ++ rest
    /\ forallb (fun c => negb (isCheck c) && negb (isRetry c)) rest = true
    /\ forallb (fun t => negb (isRetryTask t))
         (drop (length (timers w))
            (timers (after (solvePuzzleInTab tabId 0) w))) = true
    /\ take (length (timers w))
         (timers (after (solvePuzzleInTab tabId 0) w)) = timers w.
Proof.
  unfold after, Background.solvePuzzleInTab, catch, bind, api,
    sendMessageToTab, ret, record.
  rewrite badge_accepted. cbn [trace pendingSolveTabId timers].
  destruct (never_ready (trace w ++ [SetBadgeText tabId BadgeEmpty]))
    as (r & -> & ->).
  cbn [negb andb Nat.ltb Nat.leb].
  unfold Background.sendMessageWithInjection, injectContentScript,
    showErrorBadge, catch, bind, api, sendMessageToTab, sleep, setTimeout,
    throw, ret, record.
  answer_calls;
    cbn [fst snd trace timers];
    rewrite <- ?app_assoc; cbn [app];
    (eexists; split; [reflexivity|]);
    rewrite ?drop_app_length, ?take_app_length, ?drop_all, ?firstn_all;
    done.
Qed.
End Polling.

(** C6.  When every readiness check is answered "not ready", the polling
    started with MAX_RETRIES = 10 makes ten rounds of one check and one
    retry timer, the timers carrying the budgets 9 down to 0, then checks
    once more and, the budget being used up, sends the solve command
    instead of failing; no further retry is scheduled. *)
Theorem polling_exhausts_budget_then_dispatches tabId w :
  (forall h, reject h (SetBadgeText tabId BadgeEmpty) = None) ->
  (forall h, exists r,
      deliver h tabId CHECK_READY = Answered r /\ readyOf r = false) ->
  timers w = [] ->
  exists rest,
    let w' := settle deliver reject MAX_RETRIES
                (after (solvePuzzleInTab tabId MAX_RETRIES) w) in
    trace w'
    = trace w ++ pollRounds tabId MAX_RETRIES
      ++ [SetBadgeText tabId BadgeEmpty; SendMessage tabId CHECK_READY;
          SendMessage tabId SOLVE_PUZZLE] ++ rest
    /\ omap retryBudget (pollRounds tabId MAX_RETRIES)
       = [9; 8; 7; 6; 5; 4; 3; 2; 1; 0]%nat
    /\ length (List.filter isRetry (asked w w')) = 10%nat
    /\ length (List.filter isCheck (asked w w')) = 11%nat
    /\ forallb (fun t => negb (isRetryTask t)) (timers w') = true.
Proof.
  intros Hbadge Hnever Hts.
  rewrite (poll_rounds tabId Hbadge Hnever _ w Hts).
  set (w0 := Worker _ _ _).
  destruct (poll_exhausted tabId Hbadge Hnever w0)
    as (rest & Htr & Hrest & Hsched & _).
  exists rest. cbn zeta. set (w' := after _ w0) in *.
  assert (Hasked : asked w w'
                   = pollRounds tabId MAX_RETRIES
                     ++ [SetBadgeText tabId BadgeEmpty;
                         SendMessage tabId CHECK_READY;
                         SendMessage tabId SOLVE_PUZZLE] ++ rest).
  { unfold asked. rewrite Htr. subst w0. cbn [trace].
    rewrite <- app_assoc. apply drop_app_length. }
  assert (Hnone : List.filter isRetry rest = []
                  /\ List.filter isCheck rest = []).
  { clear -Hrest. induction rest as [|c rest' IH]; [done|].
    cbn [forallb] in Hrest.
    apply andb_prop in Hrest as [[Hc Hr]%andb_prop Hrest].
    cbn [List.filter]. apply negb_true_iff in Hc, Hr. rewrite Hc, Hr.
    by apply IH. }
  split; [rewrite Htr; subst w0; cbn [trace]; by rewrite <- app_assoc|].
  split; [reflexivity|].
  split; [|split].
  - rewrite Hasked, !List.filter_app, (proj1 Hnone). reflexivity.
  - rewrite Hasked, !List.filter_app, (proj2 Hnone). reflexivity.
  - exact Hsched.
Qed.

(** C7.  When the first send finds no agent, [sendMessageWithInjection]
    injects the agent once and, if the injection succeeds, waits and sends
    once more; the outcome of that second send, or the error of the
    injection, is what the caller gets.  In a whole solve cycle the solve
    command is sent at most twice, and once it was sent no retry is
    scheduled. *)
Theorem single_injection_single_retry tabId m w :
  (forall r, deliver (trace w) tabId m ≠ Answered r) ->
  (let (w', result) := sendMessageWithInjection tabId m w in
   pendingSolveTabId w' = pendingSolveTabId w
   /\ timers w' = timers w
   /\ match reject (trace w ++ [SendMessage tabId m]) (ExecuteScript tabId) with
      | Some e =>
          asked w w' = [SendMessage tabId m; ExecuteScript tabId]
          /\ result = inr (InjectionError e)
      | None =>
          asked w w' = [SendMessage tabId m; ExecuteScript tabId;
                        Sleep SCRIPT_INJECTION_DELAY_MS; SendMessage tabId m]
          /\ result =
             match deliver (trace w ++ [SendMessage tabId m; ExecuteScript tabId;
                                        Sleep SCRIPT_INJECTION_DELAY_MS])
                     tabId m with
             | Answered r => inl r
             | LastError e => inr (RuntimeError e)
             | NoAnswer => inr MessageTimedOut
             end
      end)
  /\ (forall n v,
        let v' := after (solvePuzzleInTab tabId n) v in
        (length (List.filter isSolve (asked v v')) <= 2)%nat
        /\ (existsb isSolve (asked v v') = true ->
            forallb (fun t => negb (isRetryTask t)) (scheduled v v') = true
            /\ forallb (fun c => negb (isRetry c)) (asked v v') = true)).
Proof.
  intros Hunreachable. split.
  - unfold Background.sendMessageWithInjection, injectContentScript,
      catch, bind, api, sendMessageToTab, sleep, throw, ret, record, asked.
    destruct (deliver (trace w) tabId m) eqn:E1;
      [by destruct (Hunreachable r)| |];
      cbn [trace pendingSolveTabId timers];
      (destruct (reject (trace w ++ [SendMessage tabId m])
                  (ExecuteScript tabId));
       cbn [trace pendingSolveTabId timers];
       rewrite <- ?app_assoc; cbn [app];
       [|destruct (deliver (trace w ++ [_; _; _]) tabId m)];
       cbn [trace pendingSolveTabId timers];
       rewrite ?drop_app_length; done).
  - intros n v. unfold after, Background.solvePuzzleInTab,
      Background.sendMessageWithInjection, injectContentScript,
      showErrorBadge, catch, bind, api, sendMessageToTab, sleep, setTimeout,
      throw, ret, record, asked, scheduled.
    answer_calls;
      cbn [trace pendingSolveTabId timers fst snd];
      rewrite <- ?app_assoc, ?drop_app_length, ?drop_all;
      cbn; (split; [lia|done]).
Qed.

Lemma tracked_pending w tabId :
  tracked w tabId -> pendingSolveTabId w = Some tabId.
Proof.
  intros (changeInfo & t & Hs). revert Hs.
  unfold scheduled, after, handleTabUpdate.
  destruct (bool_decide (pendingSolveTabId w = Some tabId)) eqn:E.
  - intros _. by apply bool_decide_eq_true in E.
  - cbn [andb fst]. rewrite drop_all. done.
Qed.

(** A trigger on a page that is not the game marks the tab, whatever was
    marked before. *)
Lemma click_marks tabId u w :
  tabId ≠ 0%Z ->
  isLinkedInZipPage u = false ->
  (forall h, reject h (SetBadgeText tabId BadgeRedirecting) = None) ->
  (forall h, reject h (SetBadgeBackgroundColor tabId "#3b82f6") = None) ->
  (forall h, reject h (TabsUpdate tabId LINKEDIN_ZIP_URL) = None) ->
  after (handleActionClick (Tab (Some tabId) u)) w
  = Worker (Some tabId)
      (trace w ++ [SetBadgeText tabId BadgeRedirecting;
                   SetBadgeBackgroundColor tabId "#3b82f6";
                   TabsUpdate tabId LINKEDIN_ZIP_URL])
      (timers w).
Proof.
  intros Hid Hu H1 H2 H3.
  unfold after, Background.handleActionClick. cbn [id url].
  apply Z.eqb_neq in Hid. rewrite Hid, Hu. cbn [negb].
  unfold catch, bind, api, setPending, record.
  rewrite H1. cbn [trace pendingSolveTabId timers].
  rewrite H2. cbn [trace pendingSolveTabId timers].
  rewrite H3. cbn [trace pendingSolveTabId timers fst].
  by rewrite <- !app_assoc.
Qed.

(** C8.  The pending navigation is one slot.  After a trigger on tab A and
    then one on tab B, both away from the game, the slot holds B: an
    update of tab A changes nothing and starts no solve, the load of tab B
    starts one; and in every state at most one tab is tracked. *)
Theorem pending_slot_overwritten tabA tabB urlA urlB w :
  tabB ≠ 0%Z ->
  tabA ≠ tabB ->
  isLinkedInZipPage urlB = false ->
  (forall h, reject h (SetBadgeText tabB BadgeRedirecting) = None) ->
  (forall h, reject h (SetBadgeBackgroundColor tabB "#3b82f6") = None) ->
  (forall h, reject h (TabsUpdate tabB LINKEDIN_ZIP_URL) = None) ->
  let w1 := after (handleActionClick (Tab (Some tabA) urlA)) w in
  let w2 := after (handleActionClick (Tab (Some tabB) urlB)) w1 in
  pendingSolveTabId w2 = Some tabB
  /\ (forall changeInfo t, after (handleTabUpdate tabA changeInfo t) w2 = w2)
  /\ ~ tracked w2 tabA
  /\ tracked w2 tabB
  /\ (forall v t1 t2, tracked v t1 -> tracked v t2 -> t1 = t2).
Proof.
  intros HB Hne HuB H1 H2 H3 w1 w2.
  assert (Hw2 : pendingSolveTabId w2 = Some tabB).
  { subst w2. by rewrite click_marks. }
  assert (Hquiet : forall changeInfo t,
             after (handleTabUpdate tabA changeInfo t) w2 = w2).
  { intros changeInfo t. unfold after, handleTabUpdate. rewrite Hw2.
    rewrite bool_decide_eq_false_2; [done|]. intros [= ->]. done. }
  split; [done|]. split; [done|]. split; [|split].
  - intros Ht%tracked_pending. rewrite Hw2 in Ht. injection Ht as ->. done.
  - exists (ChangeInfo (Some complete)), (Tab (Some tabB) (Some LINKEDIN_ZIP_URL)).
    unfold scheduled, after, handleTabUpdate. rewrite Hw2.
    rewrite bool_decide_eq_true_2 by done. cbn [andb status url].
    replace (isLinkedInZipPage (Some LINKEDIN_ZIP_URL)) with true
      by (vm_compute; reflexivity).
    unfold bind, setPending, setTimeout. cbn [fst timers].
    by rewrite drop_app_length.
  - intros v t1 t2 Ht1%tracked_pending Ht2%tracked_pending.
    rewrite Ht1 in Ht2. by injection Ht2.
Qed.

End WorkerFacts.

Lemma polling_exhausts_budget_then_dispatches_witness :
  exists rest,
    let w' := Background.settle deliver_not_ready accept_all
                Background.MAX_RETRIES
                (Background.after
                   (Background.solvePuzzleInTab deliver_not_ready accept_all
                      7 Background.MAX_RETRIES) Background.start) in
    Background.trace w'
    = Background.trace Background.start
      ++ pollRounds 7 Background.MAX_RETRIES
      ++ [Background.SetBadgeText 7 Background.BadgeEmpty;
          Background.SendMessage 7 Background.CHECK_READY;
          Background.SendMessage 7 Background.SOLVE_PUZZLE] ++ rest
    /\ omap retryBudget (pollRounds 7 Background.MAX_RETRIES)
       = [9; 8; 7; 6; 5; 4; 3; 2; 1; 0]%nat
    /\ length (List.filter isRetry (asked Background.start w')) = 10%nat
    /\ length (List.filter isCheck (asked Background.start w')) = 11%nat
    /\ forallb (fun t => negb (isRetryTask t)) (Background.timers w') = true.
Proof.
  apply (polling_exhausts_budget_then_dispatches
           deliver_not_ready accept_all 7 Background.start).
  - intros h. reflexivity.
  - intros h. eexists. split; reflexivity.
  - reflexivity.
Defined.

Lemma single_injection_single_retry_witness :
  asked Background.start
    (fst (Background.sendMessageWithInjection deliver_nothing accept_all
            7 Background.SOLVE_PUZZLE Background.start))
  = [Background.SendMessage 7 Background.SOLVE_PUZZLE;
     Background.ExecuteScript 7;
     Background.Sleep Background.SCRIPT_INJECTION_DELAY_MS;
     Background.SendMessage 7 Background.SOLVE_PUZZLE]
  /\ snd (Background.sendMessageWithInjection deliver_nothing accept_all
            7 Background.SOLVE_PUZZLE Background.start)
     = inr Background.MessageTimedOut.
Proof.
  pose proof (single_injection_single_retry deliver_nothing accept_all
                7 Background.SOLVE_PUZZLE Background.start) as Hw.
  destruct Hw as [Hw _]; [intros r; discriminate|].
  destruct (Background.sendMessageWithInjection _ _ _ _ _) as [w' result].
  destruct Hw as (_ & _ & Hw). simpl in Hw. exact Hw.
Defined.

Lemma pending_slot_overwritten_witness :
  let w1 := Background.after
              (Background.handleActionClick deliver_nothing accept_all
                 (Background.Tab (Some 3%Z) (Some (Js.lit "https://example.org/"))))
              Background.start in
  let w2 := Background.after
              (Background.handleActionClick deliver_nothing accept_all
                 (Background.Tab (Some 4%Z) None)) w1 in
  Background.pendingSolveTabId w2 = Some 4%Z
  /\ (forall changeInfo t,
        Background.after (Background.handleTabUpdate 3 changeInfo t) w2 = w2)
  /\ ~ tracked w2 3
  /\ tracked w2 4
  /\ (forall v t1 t2, tracked v t1 -> tracked v t2 -> t1 = t2).
Proof.
  apply (pending_slot_overwritten deliver_nothing accept_all 3 4
           (Some (Js.lit "https://example.org/")) None Background.start).
  - lia.
  - lia.
  - reflexivity.
  - intros h. reflexivity.
  - intros h. reflexivity.
  - intros h. reflexivity.
Defined.

(** ** The content script: timers *)

Section TimerFacts.
Import Content.
Context {Page Elem : Type} `{Dom Page Elem}.

(** *** The next timer *)

Lemma earliest_in ts t : earliest ts = Some t -> t ∈ ts.
Proof.
  revert t. induction ts as [|u ts IH]; intros t; simpl; [done|].
  destruct (earliest ts) as [v|].
  - destruct (earlier v u); intros [= <-].
    + apply elem_of_cons. right. by apply IH.
    + apply elem_of_cons. by left.
  - intros [= <-]. apply elem_of_cons. by left.
Qed.

Lemma earlier_spec t u :
  earlier t u = true
  <-> (due t < due u)%Z \/ (due t = due u /\ (tid t < tid u)%nat).
Proof.
  unfold earlier.
  rewrite orb_true_iff, andb_true_iff, Z.ltb_lt, Z.eqb_eq, Nat.ltb_lt.
  done.
Qed.

Lemma earliest_none ts : earliest ts = None -> ts = [].
Proof.
  destruct ts as [|t ts]; [done|]. simpl.
  destruct (earliest ts) as [u|]; [by destruct (earlier u t)|done].
Qed.

Lemma earliest_least ts t u :
  earliest ts = Some t -> u ∈ ts -> earlier u t = false.
Proof.
  revert t. induction ts as [|v ts IH]; intros t; simpl.
  { intros _ Hu. by apply elem_of_nil in Hu. }
  intros Ht Hu. apply not_true_is_false. intros Hut.
  apply earlier_spec in Hut.
  destruct (earliest ts) as [m|] eqn:Em.
  - destruct (earlier m v) eqn:Emv.
    + injection Ht as <-.
      apply elem_of_cons in Hu as [->|Hu].
      * apply earlier_spec in Emv. lia.
      * specialize (IH _ eq_refl Hu).
        apply not_true_iff_false in IH. apply IH, earlier_spec. lia.
    + injection Ht as <-.
      apply elem_of_cons in Hu as [->|Hu]; [lia|].
      specialize (IH _ eq_refl Hu).
      apply not_true_iff_false in IH, Emv.
      rewrite earlier_spec in IH, Emv. lia.
  - injection Ht as <-. apply earliest_none in Em as ->.
    apply elem_of_cons in Hu as [->|Hu]; [lia|by apply elem_of_nil in Hu].
Qed.

Lemma fire_inv late a a' :
  fire late a = Some a' ->
  exists t, earliest (timers a) = Some t
            /\ a' = unregister t (runCallback (action t) (dequeue late t a)).
Proof.
  unfold fire. destruct (earliest (timers a)) as [t|]; [|done].
  intros [= <-]. by exists t.
Qed.

Lemma fire_none late a : fire late a = None -> timers a = [].
Proof.
  unfold fire. destruct (earliest (timers a)) eqn:E; [done|].
  intros _. by apply earliest_none.
Qed.

(** *** What a callback leaves in the queue *)

Lemma runCallback_timers cb a :
  exists extra,
    timers (runCallback cb a) = timers a ++ extra
    /\ nextTimeoutId (runCallback cb a)
       = (nextTimeoutId a + length extra)%nat
    /\ (length extra <= 1)%nat
    /\ Forall (fun t => tid t = nextTimeoutId a
                        /\ (weight (action t) < weight cb)%nat
                        /\ isClick (action t) = false
                        /\ forall c, action t = LastMove c ->
                             exists cell index len,
                               cb = ClickStep c cell index len
                               /\ index = (len - 1)%nat) extra.
Proof.
  destruct cb as [call cell index len|call|n|n];
    cbn [runCallback].
  - unfold clickStep.
    destruct (clickCell cell a) as [a1 ok] eqn:E.
    assert (timers a1 = timers a /\ nextTimeoutId a1 = nextTimeoutId a)
      as [Ht Hn].
    { unfold clickCell in E.
      destruct (querySelector (page a) cell);
        [destruct (dispatchAll _ _ _) as [p []]|]; by injection E as <- <-. }
    destruct (index =? len - 1)%nat eqn:Ei.
    + eexists [_]. cbn. rewrite Ht, Hn. split; [done|]. split; [lia|].
      split; [lia|]. constructor; [|apply Forall_nil_2]. cbn.
      split; [done|]. split; [lia|]. split; [done|].
      intros c [= <-]. apply Nat.eqb_eq in Ei. eauto.
    + exists []. cbn. rewrite Ht, Hn, app_nil_r. split; [done|].
      split; [simpl; lia|]; split; [simpl; lia|apply Forall_nil_2].
  - unfold lastMove. destruct (replays a !! call) as [r|].
    2:{ exists []. rewrite app_nil_r. split; [done|]. split; [simpl; lia|]; split; [simpl; lia|apply Forall_nil_2]. }
    assert (Hshow : forall m ty b,
              exists extra,
                timers (showNotification m ty b) = timers b ++ extra
                /\ nextTimeoutId (showNotification m ty b)
                   = (nextTimeoutId b + length extra)%nat
                /\ (length extra <= 1)%nat
                /\ Forall (fun t => tid t = nextTimeoutId b
                                    /\ exists n, action t = AutoRemove n)
                     extra).
    { intros m ty b. unfold showNotification.
      destruct (hasBody (page b)).
      - eexists [_]. cbn. split; [done|]. split; [lia|]. split; [lia|].
        constructor; [|apply Forall_nil_2]. cbn. eauto.
      - exists []. cbn. rewrite app_nil_r. split; [done|].
        split; [simpl; lia|]; split; [simpl; lia|apply Forall_nil_2]. }
    set (b := log _ a).
    set (b1 := if (0 <? failedClicks r)%nat then _ else _).
    assert (exists extra,
               timers b1 = timers a ++ extra
               /\ nextTimeoutId b1 = (nextTimeoutId a + length extra)%nat
               /\ (length extra <= 1)%nat
               /\ Forall (fun t => tid t = nextTimeoutId a
                                   /\ exists n, action t = AutoRemove n)
                    extra) as (extra & Ht & Hn & Hlen & Hex).
    { subst b1. destruct (0 <? failedClicks r)%nat; exact (Hshow _ _ b). }
    exists extra. split; [|split; [|split]].
    + by destruct (waiter r).
    + by destruct (waiter r).
    + exact Hlen.
    + eapply Forall_impl; [exact Hex|].
      intros t (Hid & n & Hact). rewrite Hact. cbn.
      split; [done|]. split; [lia|]. split; done.
  - unfold hideNotification.
    destruct (bool_decide (banner a = Some n)).
    + eexists [_]. cbn. split; [done|]. split; [lia|]. split; [lia|].
      constructor; [|apply Forall_nil_2]. cbn.
      split; [done|]. split; [lia|]. split; done.
    + exists []. rewrite app_nil_r. split; [done|]. split; [simpl; lia|]; split; [simpl; lia|apply Forall_nil_2].
  - exists []. rewrite app_nil_r.
    destruct (bool_decide (banner a = Some n)); cbn;
      (split; [done|]; split; [simpl; lia|]; split; [simpl; lia|apply Forall_nil_2]).
Qed.

(** *** Every timer that fires lightens the queue *)

Lemma load_app ts us : load (ts ++ us) = (load ts + load us)%nat.
Proof. induction ts as [|t ts IH]; simpl; lia. Qed.

Lemma load_filter (P : timer -> Prop) `{forall t, Decision (P t)} ts :
  (load (filter P ts) <= load ts)%nat.
Proof.
  induction ts as [|t ts IH]; [done|].
  rewrite filter_cons. destruct (decide (P t)); simpl; lia.
Qed.

Lemma load_filter_out (P : timer -> Prop) `{forall t, Decision (P t)} ts t :
  t ∈ ts -> ~ P t ->
  (load (filter P ts) + weight (action t) <= load ts)%nat.
Proof.
  intros Hin HP. induction ts as [|u ts IH]; [by apply elem_of_nil in Hin|].
  rewrite filter_cons. apply elem_of_cons in Hin as [<-|Hin].
  - rewrite decide_False by done. pose proof (load_filter P ts). simpl. lia.
  - specialize (IH Hin). destruct (decide (P u)); simpl; lia.
Qed.

Lemma load_extra cb extra :
  (length extra <= 1)%nat ->
  Forall (fun t => (weight (action t) < weight cb)%nat) extra ->
  (load extra < weight cb)%nat.
Proof.
  destruct extra as [|t [|u extra]]; simpl; intros Hl Hw.
  - destruct cb; simpl; lia.
  - inversion Hw; subst. lia.
  - lia.
Qed.

Lemma fire_load late a a' :
  fire late a = Some a' -> (load (timers a') < load (timers a))%nat.
Proof.
  intros (t & Ht & ->)%fire_inv.
  destruct (runCallback_timers (action t) (dequeue late t a))
    as (extra & Hts & _ & Hlen & Hex).
  cbn [unregister set_timers timers]. rewrite Hts, load_app.
  cbn [dequeue set_timers set_clock timers].
  pose proof (load_filter_out (fun u => tid u ≠ tid t) (timers a) t
                (earliest_in _ _ Ht)) as Hout.
  assert (load extra < weight (action t))%nat.
  { apply load_extra; [done|].
    eapply Forall_impl; [exact Hex|]. by intros u (_ & Hu & _). }
  specialize (Hout ltac:(by intros ?)). lia.
Qed.

(** Given fuel for its load, the queue runs empty. *)
Lemma run_drains lates a :
  (load (timers a) <= length lates)%nat -> timers (run lates a) = [].
Proof.
  revert a. induction lates as [|late lates IH]; intros a Hn; simpl.
  - destruct (timers a) as [|t ts]; [done|].
    simpl in Hn. destruct (action t); simpl in Hn; lia.
  - destruct (fire late a) as [a'|] eqn:E; [|by apply fire_none in E].
    apply IH. apply fire_load in E. simpl in Hn. lia.
Qed.

(** *** Identifiers *)

Lemma ids_distinct ts t u :
  NoDup (map tid ts) -> t ∈ ts -> u ∈ ts -> tid t = tid u -> t = u.
Proof.
  induction ts as [|v ts IH]; [by intros _ ?%elem_of_nil|].
  simpl. intros [Hv Hts]%NoDup_cons Ht Hu Heq.
  apply elem_of_cons in Ht as [->|Ht], Hu as [->|Hu]; [done| | |by apply IH].
  - exfalso. apply Hv. rewrite Heq. apply list_elem_of_fmap. eauto.
  - exfalso. apply Hv. rewrite <- Heq. apply list_elem_of_fmap. eauto.
Qed.

Lemma fire_ids late a a' : ids_ok a -> fire late a = Some a' -> ids_ok a'.
Proof.
  intros [Hnd Hlt] (t & Ht & ->)%fire_inv.
  destruct (runCallback_timers (action t) (dequeue late t a))
    as (extra & Hts & Hnext & Hlen & Hex).
  unfold ids_ok. cbn [unregister set_timers timers nextTimeoutId].
  rewrite Hts, Hnext. cbn [dequeue set_timers set_clock timers nextTimeoutId] in *.
  assert (Hsub : forall u, u ∈ filter (fun u => tid u ≠ tid t) (timers a) ->
                           (tid u < nextTimeoutId a)%nat).
  { intros u [_ Hu]%list_elem_of_filter.
    by apply (proj1 (Forall_forall _ _) Hlt). }
  split.
  - rewrite map_app. apply NoDup_app. split; [|split].
    + apply (NoDup_fmap_2_strong tid).
      * intros x y Hx%list_elem_of_filter Hy%list_elem_of_filter Hxy.
        apply (ids_distinct (timers a)); tauto.
      * apply NoDup_filter.
        eapply NoDup_fmap_1. exact Hnd.
    + intros i (u & -> & Hu)%list_elem_of_fmap (v & Hv & Hvin)%list_elem_of_fmap.
      apply Hsub in Hu.
      pose proof (proj1 (Forall_forall _ _) Hex v Hvin) as (Hid & _).
      lia.
    + destruct extra as [|v [|v' extra]]; simpl in Hlen |- *;
        [constructor|apply NoDup_singleton|lia].
  - apply Forall_app. split.
    + apply Forall_forall. intros u Hu%Hsub. lia.
    + apply Forall_forall. intros v Hvin.
      pose proof (proj1 (Forall_forall _ _) Hex v Hvin) as (Hid & _).
      destruct extra; [by apply elem_of_nil in Hvin|]. simpl. lia.
Qed.

(** *** What a callback does to the rest of the state *)

Lemma clickCell_spec cellNumber a :
  page (fst (clickCell cellNumber a)) = fst (clickOutcome (page a) cellNumber)
  /\ snd (clickCell cellNumber a) = snd (clickOutcome (page a) cellNumber)
  /\ timers (fst (clickCell cellNumber a)) = timers a
  /\ nextTimeoutId (fst (clickCell cellNumber a)) = nextTimeoutId a
  /\ replays (fst (clickCell cellNumber a)) = replays a
  /\ exists e, console (fst (clickCell cellNumber a)) = console a ++ [e].
Proof.
  unfold clickCell, clickOutcome.
  destruct (querySelector (page a) cellNumber);
    [destruct (dispatchAll _ _ _) as [p []]|]; cbn; eauto 10.
Qed.

Lemma showNotification_frame m ty a :
  page (showNotification m ty a) = page a
  /\ replays (showNotification m ty a) = replays a
  /\ exists more, console (showNotification m ty a) = console a ++ more.
Proof.
  unfold showNotification. destruct (hasBody (page a)); cbn.
  - split; [done|]. split; [done|]. exists []. by rewrite app_nil_r.
  - eauto.
Qed.

Lemma showNotification_page m ty a :
  page (showNotification m ty a) = page a.
Proof. apply showNotification_frame. Qed.

Lemma showNotification_replays m ty a :
  replays (showNotification m ty a) = replays a.
Proof. apply showNotification_frame. Qed.

Lemma showNotification_console m ty a :
  exists more, console (showNotification m ty a) = console a ++ more.
Proof. apply showNotification_frame. Qed.

Lemma runCallback_page cb a :
  isClick cb = false -> page (runCallback cb a) = page a.
Proof.
  destruct cb as [| call | n | n]; [done| | |]; intros _; cbn [runCallback].
  - unfold lastMove. destruct (replays a !! call) as [r|]; [|done].
    destruct (waiter r), (0 <? failedClicks r)%nat; cbn;
      by rewrite showNotification_page.
  - unfold hideNotification. by destruct (bool_decide _).
  - by destruct (bool_decide _).
Qed.

Lemma runCallback_replays cb a call :
  callOf cb ≠ Some call ->
  replays (runCallback cb a) !! call = replays a !! call.
Proof.
  destruct cb as [c cell index len | c | n | n]; cbn [callOf runCallback];
    intros Hc.
  - unfold clickStep.
    destruct (clickCell_spec cell a) as (_ & _ & _ & _ & Hr & _).
    destruct (clickCell cell a) as [a1 ok]. cbn [fst] in Hr.
    destruct (index =? len - 1)%nat; cbn; rewrite Hr;
      apply list_lookup_alter_ne; congruence.
  - unfold lastMove. destruct (replays a !! c) as [r|]; [|done].
    set (b := if (0 <? failedClicks r)%nat then _ else _).
    assert (replays b = replays a) as Hb.
    { subst b. destruct (0 <? failedClicks r)%nat;
        by rewrite showNotification_replays. }
    destruct (waiter r); cbn; rewrite Hb;
      apply list_lookup_alter_ne; congruence.
  - unfold hideNotification. by destruct (bool_decide _).
  - by destruct (bool_decide _).
Qed.

Lemma runCallback_console cb a :
  exists more, console (runCallback cb a) = console a ++ more.
Proof.
  destruct cb as [c cell index len | c | n | n]; cbn [runCallback].
  - unfold clickStep.
    destruct (clickCell_spec cell a) as (_ & _ & _ & _ & _ & e & He).
    destruct (clickCell cell a) as [a1 ok]. cbn [fst] in He.
    destruct (index =? len - 1)%nat; cbn; rewrite He; eauto.
  - unfold lastMove. destruct (replays a !! c) as [r|].
    2:{ exists []. by rewrite app_nil_r. }
    set (a1 := log _ a).
    set (b := if (0 <? failedClicks r)%nat then _ else _).
    assert (exists more, console b = console a1 ++ more) as [more Hb].
    { subst b. destruct (0 <? failedClicks r)%nat;
        apply showNotification_console. }
    destruct (waiter r); cbn; rewrite Hb; subst a1; cbn;
      rewrite <- app_assoc; eauto.
  - unfold hideNotification. destruct (bool_decide _); cbn;
      exists []; by rewrite app_nil_r.
  - destruct (bool_decide _); cbn; exists []; by rewrite app_nil_r.
Qed.

(** The timer of one cell. *)
Lemma clickStep_spec call cellNumber index len a :
  let a' := clickStep call cellNumber index len a in
  let outcome := clickOutcome (page a) cellNumber in
  page a' = fst outcome
  /\ replays a' = alter (count (snd outcome)) call (replays a)
  /\ timers a'
     = timers a
       ++ (if (index =? len - 1)%nat
           then [{| tid := nextTimeoutId a;
                    due := (clock a + CLICK_DELAY_MS)%Z;
                    action := LastMove call |}]
           else []).
Proof.
  unfold clickStep.
  destruct (clickCell_spec cellNumber a) as (Hp & Hok & Ht & Hn & Hr & _).
  assert (Hc : clock (fst (clickCell cellNumber a)) = clock a).
  { unfold clickCell. destruct (querySelector (page a) cellNumber);
      [destruct (dispatchAll _ _ _) as [p []]|]; done. }
  destruct (clickCell cellNumber a) as [a1 ok]. cbn [fst snd] in *.
  destruct (index =? len - 1)%nat; cbn; rewrite ?Hp, ?Hok, ?Ht, ?Hn, ?Hr, ?Hc,
    ?app_nil_r; done.
Qed.

(** The timer after the last move. *)
Lemma lastMove_spec call r a :
  replays a !! call = Some r ->
  let a' := lastMove call a in
  replays a' = alter resolve call (replays a)
  /\ LogGameSolved (completedClicks r) (failedClicks r) ∈ console a'
  /\ (forall rid, waiter r = Some rid ->
        (rid, SuccessResponse) ∈ responses a').
Proof.
  intros Hr. unfold lastMove. rewrite Hr.
  set (a1 := log _ a).
  set (b := if (0 <? failedClicks r)%nat then _ else _).
  assert (replays b = replays a
          /\ exists more, console b = console a1 ++ more)
    as (Hb & more & Hc).
  { subst b. destruct (0 <? failedClicks r)%nat;
      (split; [by rewrite showNotification_replays
              |apply showNotification_console]). }
  assert (Hlog : forall e (l k : list log_entry), e ∈ (l ++ [e]) ++ k).
  { intros e l k. apply elem_of_app. left. apply elem_of_app. right.
    apply list_elem_of_here. }
  destruct (waiter r) as [rid|]; cbn; rewrite Hb, Hc; subst a1; cbn;
    (split; [done|]); (split; [apply Hlog|]).
  - intros ? [= <-]. apply elem_of_app. right. apply list_elem_of_here.
  - done.
Qed.

(** *** The clicks of a solution, one after the other *)

Lemma replayAll_snoc p solution cellNumber :
  replayAll p (solution ++ [cellNumber])
  = (fst (clickOutcome (fst (replayAll p solution)) cellNumber),
     snd (replayAll p solution)
     ++ [snd (clickOutcome (fst (replayAll p solution)) cellNumber)]).
Proof.
  revert p. induction solution as [|c solution IH]; intros p; simpl.
  - by destruct (clickOutcome p cellNumber).
  - destruct (clickOutcome p c) as [p1 ok]. rewrite IH.
    by destruct (replayAll p1 solution).
Qed.

Lemma replayAll_length p solution :
  length (snd (replayAll p solution)) = length solution.
Proof.
  revert p. induction solution as [|c solution IH]; intros p; simpl; [done|].
  destruct (clickOutcome p c) as [p1 ok]. specialize (IH p1).
  destruct (replayAll p1 solution). simpl in *. by rewrite IH.
Qed.

Lemma tally_snoc outcomes ok :
  successes (outcomes ++ [ok])
  = (if ok then S (successes outcomes) else successes outcomes)
  /\ failures (outcomes ++ [ok])
     = (if ok then failures outcomes else S (failures outcomes)).
Proof.
  unfold successes, failures. rewrite !List.filter_app, !length_app.
  destruct ok; simpl; lia.
Qed.

Lemma tally_total outcomes :
  (successes outcomes + failures outcomes = length outcomes)%nat.
Proof.
  unfold successes, failures.
  induction outcomes as [|[] outcomes IH]; simpl; lia.
Qed.

Lemma stepTimers_elem id now call len index solution u :
  u ∈ stepTimers id now call len index solution ->
  (id <= tid u)%nat
  /\ (now + Z.of_nat index * CLICK_DELAY_MS <= due u)%Z
  /\ isClick (action u) = true
  /\ callOf (action u) = Some call.
Proof.
  revert id index. induction solution as [|c solution IH]; intros id index.
  { by intros ?%elem_of_nil. }
  simpl. intros [->|Hu]%elem_of_cons.
  - cbn. split; [lia|]. split; [lia|done].
  - apply IH in Hu as (? & ? & ? & ?). unfold CLICK_DELAY_MS in *.
    split; [lia|]. split; [lia|done].
Qed.

End TimerFacts.

(** ** The content script: one replay *)

Section ReplayFacts.
Import Content.
Context {Page Elem : Type} `{Dom Page Elem}.

Lemma filter_swap {A} (P Q : A -> Prop)
    `{forall x, Decision (P x)} `{forall x, Decision (Q x)} (l : list A) :
  filter Q (filter P l) = filter P (filter Q l).
Proof.
  induction l as [|x l IH]; [done|].
  rewrite !(filter_cons _ x).
  destruct (decide (P x)), (decide (Q x));
    rewrite ?filter_cons_True, ?filter_cons_False by done; by rewrite IH.
Qed.

Lemma filter_all {A} (P : A -> Prop) `{forall x, Decision (P x)} (l : list A) :
  Forall P l -> filter P l = l.
Proof.
  induction 1 as [|x l Hx _ IH]; [done|].
  rewrite filter_cons_True by done. by rewrite IH.
Qed.

(** The pending timers of one kind after the timer [t] fired. *)
Lemma fired_filter (Q : timer -> Prop) `{forall u, Decision (Q u)}
    late (a : agent Page) t :
  exists extra,
    timers (runCallback (action t) (dequeue late t a))
    = filter (fun u => tid u ≠ tid t) (timers a) ++ extra
    /\ filter Q (timers (unregister t (runCallback (action t) (dequeue late t a))))
       = filter (fun u => tid u ≠ tid t) (filter Q (timers a))
         ++ filter Q extra
    /\ Forall (fun u => isClick (action u) = false
                        /\ forall c, action u = LastMove c ->
                             exists cell index len,
                               action t = ClickStep c cell index len
                               /\ index = (len - 1)%nat) extra.
Proof.
  destruct (runCallback_timers (action t) (dequeue late t a))
    as (extra & Hts & _ & _ & Hex).
  exists extra. split; [exact Hts|]. split.
  - cbn [unregister set_timers timers]. rewrite Hts, filter_app.
    cbn [dequeue set_timers set_clock timers]. by rewrite filter_swap.
  - eapply Forall_impl; [exact Hex|]. intros u (_ & _ & ? & ?). done.
Qed.

(** Timers other than the one that fired stay. *)
Lemma filter_others (ts l : list timer) t :
  NoDup (map tid ts) -> t ∈ ts ->
  (forall u, u ∈ l -> u ∈ ts /\ u ≠ t) ->
  filter (fun u => tid u ≠ tid t) l = l.
Proof.
  intros Hnd Ht Hl. apply filter_all, Forall_forall.
  intros u [Hu Hne]%Hl Heq. apply Hne.
  by apply (ids_distinct ts).
Qed.

Section OneReplay.
Variables (call n id0 : nat) (t0 : Z) (p0 : Page).
Variable solution : list Json.value.
Variable listener : option nat.
Hypothesis n_length : n = length solution.

Lemma fire_progress late done rest a a' :
  progress call n id0 t0 p0 solution listener done rest a ->
  fire late a = Some a' ->
  exists done' rest',
    progress call n id0 t0 p0 solution listener done' rest' a'.
Proof.
  intros [Hsplit Hids Hclicks Hpage (res & Hrep & Hphase)] Hfire.
  pose proof (fire_ids _ _ _ Hids Hfire) as Hids'.
  apply fire_inv in Hfire as (t & Ht & ->).
  pose proof (earliest_in _ _ Ht) as Htin.
  destruct Hids as [Hnd Hlt].
  destruct (fired_filter (fun u => isClick (action u) = true) late a t)
    as (extra & Hts & Hcl & Hex).
  destruct (fired_filter (fun u => isLast call (action u) = true) late a t)
    as (extra' & Hts' & Hla & _).
  rewrite Hts in Hts'. apply app_inv_head in Hts'. subst extra'.
  assert (Hnoclick : filter (fun u => isClick (action u) = true) extra = []).
  { clear -Hex. induction Hex as [|u extra [Hu _] _ IH]; [done|].
    rewrite filter_cons_False; [done|]. by rewrite Hu. }
  rewrite Hnoclick, app_nil_r in Hcl.
  destruct (isClick (action t)) eqn:Eclick.
  - (* a click timer: it is the one of the next cell *)
    assert (Htc : t ∈ clicksOf (timers a)) by by apply list_elem_of_filter.
    rewrite Hclicks in Htc.
    destruct rest as [|c0 rest']; [by apply elem_of_nil in Htc|].
    cbn [stepTimers] in Htc, Hclicks.
    set (h := {| tid := (id0 + length done)%nat |}) in *.
    assert (Hh : h ∈ timers a).
    { assert (h ∈ clicksOf (timers a)) as Hhc
        by (rewrite Hclicks; apply list_elem_of_here).
      by apply list_elem_of_filter in Hhc as [_ ?]. }
    assert (t = h) as ->.
    { apply elem_of_cons in Htc as [->|Htc]; [done|]. exfalso.
      apply stepTimers_elem in Htc as (_ & Hdue & _).
      pose proof (earliest_least _ _ _ Ht Hh) as Hle.
      apply not_true_iff_false in Hle. apply Hle, earlier_spec.
      left. subst h. cbn [due]. unfold CLICK_DELAY_MS in *. lia. }
    subst h. cbn [action tid] in *.
    destruct (clickStep_spec call c0 (length done) n
                (dequeue late {| tid := (id0 + length done)%nat;
                            due := (t0 + Z.of_nat (length done) * CLICK_DELAY_MS)%Z;
                            action := ClickStep call c0 (length done) n |} a))
      as (Hp' & Hr' & Ht').
    cbn [runCallback] in *.
    set (b := dequeue _ _ a) in *.
    set (a1 := clickStep call c0 (length done) n b) in *.
    assert (Hpb : page b = page a) by done.
    assert (Hrb : replays b = replays a) by done.
    rewrite Hpb, Hpage in Hp', Hr'. rewrite Hrb in Hr'.
    exists (done ++ [c0]), rest'. constructor.
    + by rewrite <- app_assoc.
    + exact Hids'.
    + unfold clicksOf. rewrite Hcl. fold (clicksOf (timers a)).
      rewrite Hclicks, filter_cons_False by (cbn; tauto).
      rewrite length_app. cbn [length].
      replace (id0 + (length done + 1))%nat with (S (id0 + length done)) by lia.
      replace (length done + 1)%nat with (S (length done)) by lia.
      apply filter_all, Forall_forall.
      intros u (Hu & _)%stepTimers_elem. cbn. lia.
    + cbn [unregister set_timers page]. rewrite Hp'.
      by rewrite replayAll_snoc.
    + rewrite replayAll_snoc. cbn [snd].
      set (outs := snd (replayAll p0 done)) in *.
      set (ok := snd (clickOutcome (fst (replayAll p0 done)) c0)) in *.
      destruct (tally_snoc outs ok) as [-> ->].
      exists false.
      assert (res = false /\ lastsOf call (timers a) = []) as [-> Hl0].
      { destruct Hphase; done. }
      split.
      * cbn [unregister set_timers replays]. rewrite Hr'.
        rewrite list_lookup_alter_eq, Hrep. cbn. by destruct ok.
      * assert (Hla' : lastsOf call (timers (unregister
                   {| tid := (id0 + length done)%nat;
                      due := (t0 + Z.of_nat (length done) * CLICK_DELAY_MS)%Z;
                      action := ClickStep call c0 (length done) n |} a1))
                 = filter (fun u => isLast call (action u) = true) extra).
        { unfold lastsOf. rewrite Hla. fold (lastsOf call (timers a)).
          by rewrite Hl0. }
        rewrite Hts in Ht'. apply app_inv_head in Ht'.
        assert ((length done = n - 1)%nat <-> rest' = []) as Hlast.
        { rewrite n_length, Hsplit, length_app. cbn [length].
          destruct rest'; cbn [length]; split; intros; try done; lia. }
        destruct (length done =? n - 1)%nat eqn:E.
        -- apply Nat.eqb_eq, Hlast in E. subst extra.
           eapply Finishing; [done| |done].
           rewrite Hla'. rewrite filter_cons_True; [done|].
           cbn. by rewrite Nat.eqb_refl.
        -- apply Nat.eqb_neq in E. subst extra.
           apply Clicking; [|by rewrite Hla'|done].
           intros ->. by apply E, Hlast.
  - (* any other timer leaves the clicks alone *)
    assert (Hkeep : forall l : list timer,
               (forall u, u ∈ l -> u ∈ timers a /\ u ≠ t) ->
               filter (fun u => tid u ≠ tid t) l = l).
    { intros l. by apply (filter_others (timers a)). }
    assert (Hcl' : clicksOf (timers (unregister t
                     (runCallback (action t) (dequeue late t a))))
                   = clicksOf (timers a)).
    { unfold clicksOf. rewrite Hcl. apply Hkeep.
      intros u [Hu Hin]%list_elem_of_filter. split; [done|].
      intros ->. congruence. }
    assert (Hpage' : page (unregister t
                       (runCallback (action t) (dequeue late t a)))
                     = page a).
    { cbn [unregister set_timers page].
      by rewrite runCallback_page. }
    destruct (decide (callOf (action t) = Some call)) as [Hcall|Hcall].
    + (* the timer that follows the last move of this replay *)
      destruct (action t) as [| c | |] eqn:Eact; try done.
      cbn in Hcall. injection Hcall as ->.
      assert (Htl : t ∈ lastsOf call (timers a)).
      { apply list_elem_of_filter. split; [|done].
        rewrite Eact. cbn. by rewrite Nat.eqb_refl. }
      destruct Hphase as [? Hl0 ?|t' Hrest Hl1 ->|? Hl0 ? ?];
        try (rewrite Hl0 in Htl; by apply elem_of_nil in Htl).
      rewrite Hl1 in Htl. apply list_elem_of_singleton in Htl as <-.
      destruct (lastMove_spec call _ (dequeue late t a) Hrep) as (Hr' & Hlog & _).
      exists done, rest. constructor; try done.
      * by rewrite Hcl'.
      * by rewrite Hpage'.
      * exists true. split.
        -- cbn [unregister set_timers replays runCallback].
           rewrite Hr'. rewrite list_lookup_alter_eq.
           cbn [dequeue set_timers set_clock replays]. by rewrite Hrep.
        -- apply Reported; [done| |done|].
           ++ unfold lastsOf. rewrite Hla. fold (lastsOf call (timers a)).
              rewrite Hl1, filter_cons_False by (cbn; tauto).
              rewrite filter_nil. cbn [app].
              clear -Hex Eact. induction Hex as [|u extra [_ Hu] _ IH]; [done|].
              rewrite filter_cons_False; [done|].
              destruct (action u) as [| c' | |] eqn:Eu; cbn; try done.
              destruct (Hu c' eq_refl) as (? & ? & ? & ? & _). congruence.
           ++ exact Hlog.
    + (* a timer of the notifications or of another replay *)
      assert (Hla' : lastsOf call (timers (unregister t
                       (runCallback (action t) (dequeue late t a))))
                     = lastsOf call (timers a)).
      { unfold lastsOf. rewrite Hla.
        rewrite (Hkeep (filter _ (timers a))).
        - assert (filter (fun u => isLast call (action u) = true) extra = [])
            as ->; [|by rewrite app_nil_r].
          clear -Hex Eclick Hcall.
          induction Hex as [|u extra [_ Hu] _ IH]; [done|].
          rewrite filter_cons_False; [done|].
          destruct (action u) as [| c' | |] eqn:Eu; cbn; try done.
          destruct (Hu c' eq_refl) as (? & ? & ? & Hact & _).
          by rewrite Hact in Eclick.
        - intros u [Hu Hin]%list_elem_of_filter. split; [done|].
          intros ->. apply Hcall.
          destruct (action t); cbn in Hu |- *; try done.
          apply Nat.eqb_eq in Hu. by subst. }
      exists done, rest. constructor; try done.
      * by rewrite Hcl'.
      * by rewrite Hpage'.
      * exists res. split.
        -- cbn [unregister set_timers replays].
           by rewrite runCallback_replays.
        -- destruct (runCallback_console (action t) (dequeue late t a))
             as [more Hmore].
           destruct Hphase as [? Hl0 ?|t' ? Hl1 ?|? Hl0 ? Hlog].
           ++ apply Clicking; [done|by rewrite Hla'|done].
           ++ eapply Finishing; [done|by rewrite Hla'|done].
           ++ apply Reported; [done|by rewrite Hla'|done|].
              cbn [unregister set_timers console]. rewrite Hmore.
              apply elem_of_app. by left.
Qed.

End OneReplay.

End ReplayFacts.

Section ReplayRuns.
Import Content.
Context {Page Elem : Type} `{Dom Page Elem}.

Lemma scheduleClicks_spec call len index solution (a : agent Page) :
  let a' := scheduleClicks call len index solution a in
  timers a' = timers a
              ++ stepTimers (nextTimeoutId a) (clock a) call len index solution
  /\ nextTimeoutId a' = (nextTimeoutId a + length solution)%nat
  /\ activeTimeouts a'
     = activeTimeouts a ++ seq (nextTimeoutId a) (length solution)
  /\ page a' = page a /\ replays a' = replays a
  /\ console a' = console a /\ clock a' = clock a.
Proof.
  revert index a. induction solution as [|c solution IH]; intros index a.
  - cbn. rewrite !app_nil_r. split_and!; (done || lia).
  - cbn [scheduleClicks stepTimers length seq].
    specialize (IH (S index)
                  (fst (addTimeout (ClickStep call c index len)
                          (Z.of_nat index * CLICK_DELAY_MS) a))).
    cbn zeta in IH. destruct IH as (-> & -> & -> & -> & -> & -> & ->).
    cbn. rewrite <- !app_assoc. split_and!; (done || lia).
Qed.

Lemma stepTimers_ids id now call len index solution :
  map tid (stepTimers id now call len index solution)
  = seq id (length solution).
Proof.
  revert id index. induction solution as [|c solution IH]; intros id index;
    [done|]. cbn. by rewrite IH.
Qed.

Lemma stepTimers_clicks id now call len index solution :
  filter (fun t => isClick (action t) = true)
    (stepTimers id now call len index solution)
  = stepTimers id now call len index solution.
Proof.
  apply filter_all, Forall_forall. by intros u (_ & _ & ? & _)%stepTimers_elem.
Qed.

Lemma stepTimers_no_last id now call len index solution c :
  filter (fun t => isLast c (action t) = true)
    (stepTimers id now call len index solution) = [].
Proof.
  revert id index. induction solution as [|x solution IH]; intros id index;
    [done|].
  cbn [stepTimers]. rewrite filter_cons_False by (cbn; done). apply IH.
Qed.

Lemma quiet_filters (a : agent Page) call :
  quiet a -> (length (replays a) <= call)%nat ->
  filter (fun t => isClick (action t) = true) (timers a) = []
  /\ filter (fun t => isLast call (action t) = true) (timers a) = [].
Proof.
  unfold quiet. intros Hq Hcall.
  induction Hq as [|t ts [Hc Hl] _ IH]; [done|].
  rewrite !filter_cons_False; [done| |].
  - destruct (action t) as [|c| |]; cbn; try done.
    specialize (Hl c eq_refl). intros Heq%Nat.eqb_eq. lia.
  - by rewrite Hc.
Qed.

(** [applySolution] on a non-empty solution starts a replay. *)
Lemma applySolution_progress solution (a : agent Page) :
  solution ≠ [] -> ids_ok a -> quiet a ->
  progress (length (replays a)) (length solution) (nextTimeoutId a)
    (clock a) (page a) solution None [] solution
    (fst (applySolution solution a)).
Proof.
  intros Hne [Hnd Hlt] Hq. unfold applySolution. cbn [fst].
  set (b := set_replays _ a).
  destruct (scheduleClicks_spec (length (replays a)) (length solution) 0
              solution b) as (Ht & Hn & _ & Hp & Hr & _ & _).
  destruct (quiet_filters a (length (replays a)) Hq ltac:(lia)) as [Hc Hl].
  subst b. cbn [set_replays timers nextTimeoutId page replays clock] in *.
  constructor.
  - done.
  - split.
    + rewrite Ht, map_app, stepTimers_ids. cbn. apply NoDup_app.
      split; [done|]. split; [|apply NoDup_seq].
      intros i (u & -> & Hu)%list_elem_of_fmap Hi%elem_of_seq.
      pose proof (proj1 (Forall_forall _ _) Hlt u Hu) as Hu'.
      cbn in Hi, Hu'. lia.
    + rewrite Ht, Hn. apply Forall_app. split.
      * eapply Forall_impl; [exact Hlt|]. cbn. intros; lia.
      * apply Forall_forall. intros u Hu.
        assert (tid u ∈ map tid (stepTimers (nextTimeoutId a) (clock a)
                   (length (replays a)) (length solution) 0 solution)) as Hi
          by (apply list_elem_of_fmap; eauto).
        rewrite stepTimers_ids in Hi. apply elem_of_seq in Hi. lia.
  - unfold clicksOf. rewrite Ht, filter_app, stepTimers_clicks.
    rewrite Hc. cbn. by rewrite Nat.add_0_r.
  - by rewrite Hp.
  - exists false. split.
    + rewrite Hr. cbn. rewrite lookup_app_r by lia.
      by rewrite Nat.sub_diag.
    + apply Clicking; [done| |done].
      unfold lastsOf. by rewrite Ht, filter_app, Hl, stepTimers_no_last.
Qed.

Lemma run_progress call n id0 t0 p0 solution listener lates :
  forall done rest (a : agent Page),
    progress call n id0 t0 p0 solution listener done rest a ->
    n = length solution ->
    exists done' rest',
      progress call n id0 t0 p0 solution listener done' rest' (run lates a).
Proof.
  induction lates as [|late lates IH]; intros done rest a Hp Hn; cbn [run];
    [eauto|].
  destruct (fire late a) as [a'|] eqn:E; [|eauto].
  destruct (fire_progress call n id0 t0 p0 solution listener Hn
              late done rest a a' Hp E) as (done' & rest' & Hp').
  eauto.
Qed.

(** When the queue is empty the replay has reported. *)
Lemma progress_done call n id0 t0 p0 solution listener done rest
    (a : agent Page) :
  progress call n id0 t0 p0 solution listener done rest a ->
  timers a = [] ->
  done = solution
  /\ page a = fst (replayAll p0 solution)
  /\ replays a !! call
     = Some (Replay (successes (snd (replayAll p0 solution)))
               (failures (snd (replayAll p0 solution))) true listener)
  /\ LogGameSolved (successes (snd (replayAll p0 solution)))
       (failures (snd (replayAll p0 solution))) ∈ console a.
Proof.
  intros [Hsplit _ Hclicks Hpage (res & Hrep & Hphase)] Hts.
  unfold clicksOf in Hclicks. rewrite Hts in Hclicks.
  destruct rest as [|c rest]; [|done].
  rewrite app_nil_r in Hsplit. subst done.
  destruct Hphase as [? | t' _ Hl | _ _ -> Hlog]; [done| |done].
  unfold lastsOf in Hl. by rewrite Hts in Hl.
Qed.

(** A position whose cell does not resolve: one failure, the page as it
    was, and the replay goes on. *)
Lemma replayAll_app p l1 l2 :
  replayAll p (l1 ++ l2)
  = (fst (replayAll (fst (replayAll p l1)) l2),
     snd (replayAll p l1) ++ snd (replayAll (fst (replayAll p l1)) l2)).
Proof.
  revert p. induction l1 as [|c l1 IH]; intros p; cbn.
  - by destruct (replayAll p l2).
  - destruct (clickOutcome p c) as [p1 ok]. rewrite IH.
    by destruct (replayAll p1 l1).
Qed.

Lemma replayAll_position p solution k cellNumber :
  solution !! k = Some cellNumber ->
  querySelector (fst (replayAll p (take k solution))) cellNumber = None ->
  snd (replayAll p solution) !! k = Some false
  /\ replayAll p (take (S k) solution)
     = (fst (replayAll p (take k solution)),
        snd (replayAll p (take k solution)) ++ [false]).
Proof.
  intros Hk Hq.
  assert (Hout : clickOutcome (fst (replayAll p (take k solution))) cellNumber
                 = (fst (replayAll p (take k solution)), false)).
  { unfold clickOutcome. by rewrite Hq. }
  split.
  - rewrite <- (take_drop_middle solution k cellNumber Hk) at 1.
    rewrite replayAll_app. cbn [snd replayAll]. rewrite Hout.
    destruct (replayAll _ (drop (S k) solution)) as [p2 oks]. cbn [snd].
    apply list_lookup_middle.
    rewrite replayAll_length, length_take.
    apply lookup_lt_Some in Hk. lia.
  - rewrite (take_S_r _ _ _ Hk), replayAll_snoc. by rewrite Hout.
Qed.

(** Timers that do not belong to a replay leave its record alone. *)
Lemma fire_untouched late call r (a a' : agent Page) :
  replays a !! call = Some r ->
  Forall (fun t => callOf (action t) ≠ Some call) (timers a) ->
  fire late a = Some a' ->
  replays a' !! call = Some r
  /\ Forall (fun t => callOf (action t) ≠ Some call) (timers a').
Proof.
  intros Hr Hts (t & Ht & ->)%fire_inv.
  pose proof (proj1 (Forall_forall _ _) Hts t (earliest_in _ _ Ht)) as Hc.
  cbn beta in Hc.
  destruct (runCallback_timers (action t) (dequeue late t a))
    as (extra & Hts' & _ & _ & Hex).
  cbn [unregister set_timers replays timers]. split.
  - by rewrite runCallback_replays.
  - rewrite Hts'. apply Forall_app. split.
    + cbn [dequeue set_timers set_clock timers].
      apply Forall_forall. intros u [_ Hu]%list_elem_of_filter.
      by apply (proj1 (Forall_forall _ _) Hts).
    + eapply Forall_impl; [exact Hex|]. intros u (_ & _ & Hu & Hl).
      destruct (action u) as [|c| |]; cbn; try done.
      destruct (Hl c eq_refl) as (? & ? & ? & Hact & _).
      rewrite Hact in Hc. cbn in Hc. congruence.
Qed.

Lemma run_untouched call r lates (a : agent Page) :
  replays a !! call = Some r ->
  Forall (fun t => callOf (action t) ≠ Some call) (timers a) ->
  replays (run lates a) !! call = Some r.
Proof.
  revert a. induction lates as [|late lates IH]; intros a Hr Hts; cbn [run];
    [done|].
  destruct (fire late a) as [a'|] eqn:E; [|done].
  destruct (fire_untouched late call r a a' Hr Hts E). by apply IH.
Qed.

(** C2, amended.  [applySolution] on the empty solution registers no
    timer and leaves the registry as it was; its counters are zero and
    stay so, and it never reports: the promise is resolved only by the
    timer that follows the last move, and there is none. *)
Theorem empty_replay_never_reports (a : agent Page) :
  Forall (fun t => forall c, callOf (action t) = Some c ->
                     (c < length (replays a))%nat) (timers a) ->
  let a1 := fst (applySolution [] a) in
  let call := snd (applySolution [] a) in
  timers a1 = timers a
  /\ activeTimeouts a1 = activeTimeouts a
  /\ nextTimeoutId a1 = nextTimeoutId a
  /\ forall lates,
       replays (run lates a1) !! call = Some (Replay 0 0 false None)
       /\ ~ reported (run lates a1) call 0 0.
Proof.
  intros Hfresh a1 call. split_and!; try done.
  intros lates.
  assert (Hr : replays (run lates a1) !! call = Some (Replay 0 0 false None)).
  { apply run_untouched.
    - subst a1 call. cbn. rewrite lookup_app_r by lia.
      by rewrite Nat.sub_diag.
    - subst a1 call. cbn. eapply Forall_impl; [exact Hfresh|].
      intros t Ht Hc. specialize (Ht _ Hc). lia. }
  split; [done|]. intros [l Hl]. rewrite Hr in Hl. done.
Qed.

(** C9.  A replay of a non-empty solution runs every step in order on the
    page; once the timers have fired the promise is resolved, the report
    is logged, and the two counters tally the outcomes of all positions,
    so they sum to the length of the solution.  A position whose cell
    resolves to no element counts as one failure, leaves the page as it
    was and is followed by the remaining steps. *)
Theorem replay_counts_every_step (a : agent Page) solution :
  solution ≠ [] -> ids_ok a -> quiet a ->
  let a1 := fst (applySolution solution a) in
  let call := snd (applySolution solution a) in
  let outcomes := snd (replayAll (page a) solution) in
  forall lates, (load (timers a1) <= length lates)%nat ->
    timers (run lates a1) = []
    /\ page (run lates a1) = fst (replayAll (page a) solution)
    /\ replays (run lates a1) !! call
       = Some (Replay (successes outcomes) (failures outcomes) true None)
    /\ LogGameSolved (successes outcomes) (failures outcomes)
       ∈ console (run lates a1)
    /\ (successes outcomes + failures outcomes = length solution)%nat
    /\ length outcomes = length solution
    /\ forall k cellNumber,
         solution !! k = Some cellNumber ->
         querySelector (fst (replayAll (page a) (take k solution)))
           cellNumber = None ->
         outcomes !! k = Some false
         /\ replayAll (page a) (take (S k) solution)
            = (fst (replayAll (page a) (take k solution)),
               snd (replayAll (page a) (take k solution)) ++ [false]).
Proof.
  intros Hne Hids Hq a1 call outcomes lates Hfuel.
  pose proof (applySolution_progress solution a Hne Hids Hq) as Hp.
  destruct (run_progress _ _ _ _ _ _ _ lates _ _ _ Hp eq_refl)
    as (done & rest & Hp').
  pose proof (run_drains lates a1 Hfuel) as Hempty.
  destruct (progress_done _ _ _ _ _ _ _ _ _ _ Hp' Hempty)
    as (_ & Hpage & Hrep & Hlog).
  split_and!; try done.
  - subst outcomes. rewrite tally_total. apply replayAll_length.
  - apply replayAll_length.
  - intros k cellNumber Hk Hnone. subst outcomes.
    by apply (replayAll_position _ _ _ cellNumber).
Qed.

End ReplayRuns.

Section SolveCycle.
Import Content.
Context {Page Elem : Type} `{Dom Page Elem}.

Lemma is_ws_trimmable c : Json.is_ws c = true -> Js.isTrimmable c = true.
Proof.
  unfold Json.is_ws. rewrite !orb_true_iff, !N.eqb_eq.
  intros [[[->| ->]| ->]| ->]; reflexivity.
Qed.

(** The parsed array is never empty. *)
Lemma parseSolutionData_not_empty data :
  parseSolutionData data ≠ Ok [].
Proof.
  intros (_ & Hparse & Htrim)%parseSolutionData_valid.
  apply parse_empty_array in Hparse.
  destruct (Js.trim data) as [|c r] eqn:E; [done|].
  apply trim_head in E. inversion Hparse as [|? ? Hc _]; subst.
  apply is_ws_trimmable in Hc. congruence.
Qed.

(** The promise of [solveZipGame] is never rejected. *)
Lemma afterExtraction_settles extracted (a a' : agent Page) pr :
  afterExtraction extracted a = (a', pr) ->
  match pr with
  | Rejected _ => False
  | Fulfilled =>
      replays a' = replays a
      /\ (exists e, extracted = Throw e) \/ extracted = Ok []
  | Pending call =>
      exists solution,
        extracted = Ok solution /\ solution ≠ []
        /\ (a', call)
           = applySolution solution
               (showNotification MsgSolving info
                  (log (LogSolutionFound solution) a))
  end.
Proof.
  unfold afterExtraction.
  destruct extracted as [solution|e].
  - destruct solution as [|c solution]; cbn [length Nat.eqb].
    + intros [= <- <-]. by right.
    + destruct (applySolution _ _) as [a1 call] eqn:E.
      intros [= <- <-]. exists (c :: solution). by rewrite E.
  - intros [= <- <-]. left. split; [|by eauto].
    by rewrite showNotification_replays.
Qed.

(** C10.  Extraction never returns an empty solution; when the escaped
    pattern matches with an empty group, extraction fails with "solution
    data not found"; and the solve cycle turns an empty solution into an
    error before any replay, so [applySolution] only ever receives a
    non-empty solution. *)
Theorem no_empty_solution :
  (forall p : Page, extractSolution p ≠ Ok [])
  /\ (forall (p : Page) text m,
        rehydrateData p = Some text ->
        Regex.exec SOLUTION text = Some m ->
        Regex.group1 m = [] ->
        extractSolution p = Throw SolutionDataNotFound)
  /\ (forall a : agent Page,
        afterExtraction (Ok []) a
        = (showNotification (MsgError SolutionEmpty) error_
             (log (LogErrorOccurred SolutionEmpty) a), Fulfilled)
        /\ replays (fst (afterExtraction (Ok []) a)) = replays a)
  /\ (forall (a a' : agent Page) call,
        solveZipGame a = (a', Pending call) ->
        exists solution b,
          solution ≠ [] /\ applySolution solution b = (a', call)).
Proof.
  split_and!.
  - intros p [data Hd]%extract_Ok. by apply parseSolutionData_not_empty in Hd.
  - intros p text m Hp Hm Hg.
    rewrite (extract_firstMatch p text m Hp).
    + unfold fromMatch. by rewrite Hg.
    + unfold patterns, firstMatch. by rewrite Hm.
  - intros a. split; [done|]. cbn. by rewrite showNotification_replays.
  - intros a a' call Hs. unfold solveZipGame in Hs.
    apply afterExtraction_settles in Hs as (solution & _ & Hne & Hs).
    eauto.
Qed.

(** Whatever extraction throws, the listener answers the solve command
    with success: the [catch] of [solveZipGame] has consumed the error,
    so the [catch] of the listener never runs. *)
Lemma solve_error_answered_success (a : agent Page) rid e :
  extractSolution (page a) = Throw e ->
  responses (fst (onMessage SolvePuzzle rid a))
  = responses a ++ [(rid, SuccessResponse)].
Proof.
  intros He. unfold onMessage, solveZipGame.
  cbn [page log clearAllTimeouts set_timers]. rewrite He.
  unfold afterExtraction. cbn.
  unfold showNotification. by destruct (hasBody _).
Qed.

(** *** The registry of timers *)

Lemma clear_registered (a : agent Page) :
  registered a -> timers (clearAllTimeouts a) = [].
Proof.
  unfold registered. cbn. intros Hreg.
  induction Hreg as [|t ts Ht _ IH]; [done|].
  rewrite filter_cons_False; [done|]. by intros [].
Qed.

(** New timers with the next identifiers, registered as they are set. *)
Lemma sound_extend (a a' : agent Page) new :
  ids_ok a -> registered a ->
  timers a' = timers a ++ new ->
  activeTimeouts a' = activeTimeouts a ++ map tid new ->
  map tid new = seq (nextTimeoutId a) (length new) ->
  nextTimeoutId a' = (nextTimeoutId a + length new)%nat ->
  ids_ok a' /\ registered a'.
Proof.
  intros [Hnd Hlt] Hreg Ht Ha Hids Hn. unfold ids_ok, registered.
  rewrite Ht, Ha, Hn. split; [split|].
  - rewrite map_app, Hids. apply NoDup_app.
    split; [done|]. split; [|apply NoDup_seq].
    intros i (u & -> & Hu)%list_elem_of_fmap Hi%elem_of_seq.
    pose proof (proj1 (Forall_forall _ _) Hlt u Hu) as Hu'.
    cbn in Hu'. lia.
  - apply Forall_app. split.
    + eapply Forall_impl; [exact Hlt|]. cbn. intros; lia.
    + apply Forall_forall. intros u Hu.
      assert (tid u ∈ map tid new) as Hi by (apply list_elem_of_fmap; eauto).
      rewrite Hids in Hi. apply elem_of_seq in Hi. lia.
  - apply Forall_app. split.
    + eapply Forall_impl; [exact Hreg|]. cbn. intros u Hu.
      apply elem_of_app. by left.
    + apply Forall_forall. intros u Hu. apply elem_of_app. right.
      apply list_elem_of_fmap. eauto.
Qed.

Lemma showNotification_sound m ty (a : agent Page) :
  ids_ok a -> registered a ->
  ids_ok (showNotification m ty a) /\ registered (showNotification m ty a).
Proof.
  intros Hids Hreg. unfold showNotification. destruct (hasBody (page a)).
  - eapply (sound_extend a _ [_]); try done; cbn; f_equal; lia.
  - eapply (sound_extend a _ []); try done; cbn;
      rewrite ?app_nil_r; (done || lia).
Qed.

Lemma hideNotification_sound n (a : agent Page) :
  ids_ok a -> registered a ->
  ids_ok (hideNotification n a) /\ registered (hideNotification n a).
Proof.
  intros Hids Hreg. unfold hideNotification.
  destruct (bool_decide (banner a = Some n)); [|done].
  eapply (sound_extend a _ [_]); try done; cbn; f_equal; lia.
Qed.

Lemma applySolution_sound solution (a : agent Page) :
  ids_ok a -> registered a ->
  ids_ok (fst (applySolution solution a))
  /\ registered (fst (applySolution solution a)).
Proof.
  intros Hids Hreg. unfold applySolution. cbn [fst].
  set (b := set_replays _ a).
  destruct (scheduleClicks_spec (length (replays a)) (length solution) 0
              solution b) as (Ht & Hn & Ha & _).
  assert (Hlen : length (stepTimers (nextTimeoutId b) (clock b)
                           (length (replays a)) (length solution) 0 solution)
                 = length solution).
  { rewrite <- (length_map tid), stepTimers_ids. apply length_seq. }
  apply (sound_extend a _ (stepTimers (nextTimeoutId b) (clock b)
                             (length (replays a)) (length solution) 0
                             solution) Hids Hreg).
  - exact Ht.
  - rewrite Ha. by rewrite stepTimers_ids.
  - by rewrite stepTimers_ids, Hlen.
  - by rewrite Hn, Hlen.
Qed.

Lemma solveZipGame_sound (a : agent Page) :
  ids_ok a -> registered a ->
  ids_ok (fst (solveZipGame a)) /\ registered (fst (solveZipGame a)).
Proof.
  intros [Hnd Hlt] Hreg. unfold solveZipGame.
  set (b := clearAllTimeouts (log LogSolving a)).
  assert (Hb : ids_ok b /\ registered b).
  { assert (timers b = []) as Hts by by apply (clear_registered (log LogSolving a)).
    unfold ids_ok, registered. rewrite Hts. repeat constructor. }
  destruct Hb as [Hbi Hbr]. unfold afterExtraction.
  destruct (extractSolution (page b)) as [[|c solution]|e]; cbn [length Nat.eqb].
  - by apply showNotification_sound.
  - destruct (applySolution _ _) as [a1 call] eqn:E. cbn [fst].
    change a1 with (fst (a1, call)). rewrite <- E.
    apply applySolution_sound; by apply showNotification_sound.
  - by apply showNotification_sound.
Qed.

(** The registry a callback leaves. *)
Lemma runCallback_registry cb (a : agent Page) :
  exists extra,
    timers (runCallback cb a) = timers a ++ extra
    /\ activeTimeouts (runCallback cb a) = activeTimeouts a ++ map tid extra.
Proof.
  destruct cb as [call cell index len|call|n|n]; cbn [runCallback].
  - unfold clickStep.
    assert (timers (fst (clickCell cell a)) = timers a
            /\ activeTimeouts (fst (clickCell cell a)) = activeTimeouts a)
      as [Ht Ha].
    { unfold clickCell. destruct (querySelector (page a) cell);
        [destruct (dispatchAll _ _ _) as [p []]|]; done. }
    destruct (clickCell cell a) as [a1 ok]. cbn [fst] in *.
    destruct (index =? len - 1)%nat.
    + eexists [_]. cbn. by rewrite Ht, Ha.
    + exists []. cbn. by rewrite Ht, Ha, !app_nil_r.
  - unfold lastMove. destruct (replays a !! call) as [r|].
    2:{ exists []. by rewrite !app_nil_r. }
    assert (Hshow : forall m ty (b : agent Page),
              exists extra,
                timers (showNotification m ty b) = timers b ++ extra
                /\ activeTimeouts (showNotification m ty b)
                   = activeTimeouts b ++ map tid extra).
    { intros m ty b. unfold showNotification. destruct (hasBody (page b)).
      - by eexists [_].
      - exists []. cbn. by rewrite !app_nil_r. }
    set (b := log _ a).
    set (b1 := if (0 <? failedClicks r)%nat then _ else _).
    assert (exists extra,
               timers b1 = timers a ++ extra
               /\ activeTimeouts b1 = activeTimeouts a ++ map tid extra)
      as (extra & Ht & Ha).
    { subst b1. destruct (0 <? failedClicks r)%nat; exact (Hshow _ _ b). }
    exists extra. by destruct (waiter r).
  - unfold hideNotification. destruct (bool_decide (banner a = Some n)).
    + by eexists [_].
    + exists []. by rewrite !app_nil_r.
  - exists []. rewrite !app_nil_r. by destruct (bool_decide _).
Qed.

Lemma fire_registered late (a a' : agent Page) :
  ids_ok a -> registered a -> fire late a = Some a' -> registered a'.
Proof.
  intros [Hnd Hlt] Hreg (t & Ht & ->)%fire_inv.
  destruct (runCallback_timers (action t) (dequeue late t a))
    as (extra & Hts & _ & _ & Hex).
  destruct (runCallback_registry (action t) (dequeue late t a))
    as (extra' & Hts' & Ha).
  rewrite Hts in Hts'. apply app_inv_head in Hts'. subst extra'.
  unfold registered. cbn [unregister set_timers timers activeTimeouts].
  rewrite Hts, Ha. cbn [dequeue set_timers set_clock timers activeTimeouts].
  pose proof (proj1 (Forall_forall _ _) Hlt t (earliest_in _ _ Ht)) as Hlt'.
  cbn in Hlt'.
  apply Forall_app. split; apply Forall_forall; intros u Hu;
    apply list_elem_of_filter.
  - apply list_elem_of_filter in Hu as [Hne Hu]. split; [done|].
    apply elem_of_app. left.
    by apply (proj1 (Forall_forall _ _) Hreg).
  - pose proof (proj1 (Forall_forall _ _) Hex u Hu) as (Hid & _).
    cbn [dequeue set_timers set_clock nextTimeoutId] in Hid. split; [lia|].
    apply elem_of_app. right. apply list_elem_of_fmap. eauto.
Qed.

(** In every state the content script reaches, the pending timers have
    distinct identifiers and are all in the registry. *)
Lemma reachable_sound (a : agent Page) :
  reachable a -> ids_ok a /\ registered a.
Proof.
  induction 1 as [p|req rid a _ [Hi Hr]|late a a' _ [Hi Hr] Hfire
                  |n a _ [Hi Hr]|a _ [Hi Hr]|p a _ [Hi Hr]].
  - unfold ids_ok, registered. cbn. repeat constructor.
  - destruct req; cbn [onMessage fst]; [done| |done].
    pose proof (solveZipGame_sound a Hi Hr) as Hs.
    destruct (solveZipGame a) as [a1 [|e|call]]; by cbn [fst] in *.
  - split; [by apply (fire_ids late a)|by apply (fire_registered late a)].
  - by apply hideNotification_sound.
  - assert (timers (onBeforeUnload a) = []) as Hts by by apply clear_registered.
    unfold ids_ok, registered. rewrite Hts. repeat constructor.
  - done.
Qed.

(** The state in which [solveZipGame] calls [applySolution] meets the
    conditions of the replay: the registry was cleared, and the only timer
    pending is the one of the notification. *)
Lemma solveZipGame_replays (a a' : agent Page) call :
  reachable a ->
  solveZipGame a = (a', Pending call) ->
  exists solution b,
    solution ≠ [] /\ ids_ok b /\ quiet b
    /\ applySolution solution b = (a', call).
Proof.
  intros [_ Hreg]%reachable_sound Hs. unfold solveZipGame in Hs.
  apply afterExtraction_settles in Hs as (solution & _ & Hne & Hs).
  exists solution. eexists. split; [done|].
  pose proof (clear_registered (log LogSolving a) Hreg) as Hc.
  split; [|split; [|by rewrite Hs]].
  - unfold ids_ok, showNotification.
    destruct (hasBody _); cbn in Hc |- *; rewrite Hc; cbn.
    + split; [apply NoDup_singleton|]. repeat constructor.
    + split; constructor.
  - unfold quiet, showNotification.
    destruct (hasBody _); cbn in Hc |- *; rewrite Hc; cbn.
    + constructor; [|constructor]. cbn. split; [done|]. intros ? [=].
    + constructor.
Qed.

End SolveCycle.

Lemma empty_replay_never_reports_counterexample :
  let a := Content.start Grid.withoutPayload in
  ~ reported (fst (Content.applySolution [] a))
             (snd (Content.applySolution [] a)) 0 0.
Proof.
  intros a [listener Hl]. vm_compute in Hl. discriminate Hl.
Qed.

Lemma empty_replay_never_reports_witness :
  let a := Content.start Grid.withoutPayload in
  Content.timers (fst (Content.applySolution [] a)) = []
  /\ forall lates,
       ~ reported (Content.run lates (fst (Content.applySolution [] a)))
                  (snd (Content.applySolution [] a)) 0 0.
Proof.
  intros a.
  destruct (empty_replay_never_reports a) as (Ht & _ & _ & Hn).
  - constructor.
  - split; [exact Ht|]. intros lates. apply (Hn lates).
Defined.

Lemma replay_counts_every_step_witness :
  let a := Content.start (Grid.withPayload text_escaped) in
  let a' := Content.run late_timers (fst (Content.applySolution
                                            solution_with_missing_cell a)) in
  Content.timers a' = []
  /\ Content.replays a' !! 0%nat = Some (Content.Replay 2 1 true None)
  /\ Grid.events (Content.page a')
     = flat_map (fun i => map (pair i) Content.clickEvents) [1; 2].
Proof.
  intros a a'.
  destruct (replay_counts_every_step a solution_with_missing_cell)
    with (lates := late_timers) as (Ht & Hp & Hr & _ & _ & _ & _).
  - discriminate.
  - split; constructor.
  - constructor.
  - vm_compute. lia.
  - split; [exact Ht|]. split; [exact Hr|].
    fold a' in Hp. rewrite Hp. vm_compute. reflexivity.
Defined.

Lemma no_empty_solution_witness :
  Content.extractSolution (Grid.withPayload text_empty_list)
  = Content.Throw Content.SolutionDataNotFound.
Proof.
  destruct (@no_empty_solution _ _ Grid.grid_dom) as (_ & H2 & _ & _).
  eapply (H2 _ text_empty_list); vm_compute; reflexivity.
Defined.

(** C1.  On a page without the payload element extraction throws "game
    data not found", and the solve command is answered with success. *)
Lemma solve_failure_answered_success :
  Content.extractSolution Grid.withoutPayload
  = Content.Throw Content.GameDataNotFound
  /\ Content.responses
       (fst (Content.onMessage Content.SolvePuzzle 1
               (Content.start Grid.withoutPayload)))
     = [(1%nat, Content.SuccessResponse)].
Proof. split; vm_compute; reflexivity. Qed.

(* ===================================================================== *)
(** * Part III.  Further properties                                       *)
(* ===================================================================== *)

(** ** The content script among its events *)

Section AgentFacts.
Import Content.
Context {Page Elem : Type} `{Dom Page Elem}.

Lemma handle_reachable e (a : agent Page) :
  reachable a -> reachable (handle e a).
Proof.
  intros Ha. destruct e as [req rid|late|n| |p]; cbn [handle].
  - by constructor.
  - destruct (fire late a) eqn:E; [|done]. by eapply reach_timer.
  - by constructor.
  - by constructor.
  - by constructor.
Qed.

Lemma play_reachable es (a : agent Page) :
  reachable a -> reachable (play es a).
Proof.
  revert a. induction es as [|e es IH]; intros a Ha; [done|].
  cbn. by apply IH, handle_reachable.
Qed.


(** *** What each function adds to the timers and to the registry *)

Lemma showNotification_registry m ty (a : agent Page) :
  exists new,
    timers (showNotification m ty a) = timers a ++ new
    /\ activeTimeouts (showNotification m ty a)
       = activeTimeouts a ++ map tid new.
Proof.
  unfold showNotification. destruct (hasBody (page a)).
  - by eexists [_].
  - exists []. cbn. by rewrite !app_nil_r.
Qed.

Lemma applySolution_registry solution (a : agent Page) :
  exists new,
    timers (fst (applySolution solution a)) = timers a ++ new
    /\ activeTimeouts (fst (applySolution solution a))
       = activeTimeouts a ++ map tid new.
Proof.
  unfold applySolution. cbn [fst].
  set (b := set_replays _ a).
  destruct (scheduleClicks_spec (length (replays a)) (length solution) 0
              solution b) as (Ht & _ & Ha & _).
  eexists. split; [exact Ht|]. by rewrite Ha, stepTimers_ids.
Qed.

Lemma afterExtraction_registry extracted (a : agent Page) :
  exists new,
    timers (fst (afterExtraction extracted a)) = timers a ++ new
    /\ activeTimeouts (fst (afterExtraction extracted a))
       = activeTimeouts a ++ map tid new.
Proof.
  assert (Herr : forall e,
             exists new,
               timers (showNotification (MsgError e) error_
                         (log (LogErrorOccurred e) a)) = timers a ++ new
               /\ activeTimeouts (showNotification (MsgError e) error_
                                    (log (LogErrorOccurred e) a))
                  = activeTimeouts a ++ map tid new).
  { intros e. apply (showNotification_registry _ _ (log _ a)). }
  unfold afterExtraction.
  destruct extracted as [[|c solution]|e]; cbn [length Nat.eqb fst];
    [apply Herr| |apply Herr].
  destruct (showNotification_registry MsgSolving info
              (log (LogSolutionFound (c :: solution)) a))
    as (new1 & Ht1 & Ha1).
  destruct (applySolution_registry (c :: solution)
              (showNotification MsgSolving info
                 (log (LogSolutionFound (c :: solution)) a)))
    as (new2 & Ht2 & Ha2).
  destruct (applySolution _ _) as [a1 call]. cbn [fst] in *.
  exists (new1 ++ new2).
  rewrite Ht2, Ha2, Ht1, Ha1, map_app, <- !app_assoc. done.
Qed.

Lemma onMessage_registry req rid (a : agent Page) :
  exists new,
    timers (fst (onMessage req rid a))
    = (match req with
       | SolvePuzzle => timers (clearAllTimeouts a)
       | _ => timers a
       end) ++ new
    /\ activeTimeouts (fst (onMessage req rid a))
       = (match req with
          | SolvePuzzle => []
          | _ => activeTimeouts a
          end) ++ map tid new.
Proof.
  destruct req; cbn [onMessage fst].
  - exists []. by rewrite !app_nil_r.
  - unfold solveZipGame.
    destruct (afterExtraction_registry
                (extractSolution (page (clearAllTimeouts (log LogSolving a))))
                (clearAllTimeouts (log LogSolving a)))
      as (new & Ht & Ha).
    destruct (afterExtraction _ _) as [a1 pr]. cbn [fst] in *.
    exists new. by destruct pr.
  - exists []. by rewrite !app_nil_r.
Qed.

(** The registry after a timer fired, when it listed the pending timers
    before. *)
Lemma fire_registry late (a a' : agent Page) :
  ids_ok a ->
  activeTimeouts a = map tid (timers a) ->
  fire late a = Some a' ->
  activeTimeouts a' = map tid (timers a').
Proof.
  intros [Hnd Hlt] Hex (t & Ht & ->)%fire_inv.
  destruct (runCallback_timers (action t) (dequeue late t a))
    as (extra & Hts & _ & _ & Hextra).
  destruct (runCallback_registry (action t) (dequeue late t a))
    as (extra' & Hts' & Ha).
  rewrite Hts in Hts'. apply app_inv_head in Hts'. subst extra'.
  cbn [unregister set_timers timers activeTimeouts].
  rewrite Hts, Ha. cbn [dequeue set_timers set_clock timers activeTimeouts].
  rewrite Hex, map_app, filter_app.
  pose proof (proj1 (Forall_forall _ _) Hlt t (earliest_in _ _ Ht)) as Hlt'.
  cbn in Hlt'. f_equal.
  - clear. induction (timers a) as [|u ts IH]; [done|]. cbn [map].
    rewrite !filter_cons.
    destruct (decide (tid u ≠ tid t)); cbn; by rewrite IH.
  - apply filter_all. apply Forall_forall.
    intros i (u & -> & Hu)%list_elem_of_fmap.
    pose proof (proj1 (Forall_forall _ _) Hextra u Hu) as (Hid & _).
    cbn [dequeue set_timers set_clock nextTimeoutId] in Hid. lia.
Qed.

Lemma handle_registry e (a : agent Page) :
  reachable a ->
  activeTimeouts a = map tid (timers a) ->
  activeTimeouts (handle e a) = map tid (timers (handle e a)).
Proof.
  intros Hr Hex. destruct (reachable_sound a Hr) as [Hids Hreg].
  destruct e as [req rid|late|n| |p]; cbn [handle].
  - destruct (onMessage_registry req rid a) as (new & Ht & Ha).
    rewrite Ht, Ha, map_app. destruct req; [by rewrite Hex| |by rewrite Hex].
    by rewrite clear_registered.
  - destruct (fire late a) as [a'|] eqn:E; [|done].
    by apply (fire_registry late a).
  - unfold onNotificationClick, hideNotification.
    destruct (bool_decide _); [|done]. cbn. by rewrite Hex, map_app.
  - unfold onBeforeUnload. by rewrite clear_registered.
  - done.
Qed.

Lemma play_registry es (a : agent Page) :
  reachable a ->
  activeTimeouts a = map tid (timers a) ->
  activeTimeouts (play es a) = map tid (timers (play es a)).
Proof.
  revert a. induction es as [|e es IH]; intros a Hr Hex; [done|].
  cbn. apply IH; [by apply handle_reachable|by apply handle_registry].
Qed.

(** X1.  The registry [activeTimeouts] lists exactly the timers that are
    pending, in the order they were set, whatever happened to the page
    since the script was loaded: no identifier is listed twice, none is
    stale and no pending timer is missing. *)
Theorem registry_lists_pending_timers (p : Page) (es : list (event Page)) :
  let a := play es (start p) in
  activeTimeouts a = map tid (timers a)
  /\ NoDup (activeTimeouts a)
  /\ Forall (fun i => (i < nextTimeoutId a)%nat) (activeTimeouts a).
Proof.
  intros a.
  assert (Hr : reachable a) by apply play_reachable, reach_start.
  assert (Hex : activeTimeouts a = map tid (timers a))
    by by apply play_registry; [apply reach_start|].
  destruct (reachable_sound a Hr) as [[Hnd Hlt] _].
  split; [done|]. rewrite Hex. split; [done|].
  by apply Forall_fmap.
Qed.


Lemma run_idle lates (a : agent Page) : timers a = [] -> run lates a = a.
Proof.
  intros Ht. destruct lates as [|late lates]; [done|].
  cbn. unfold fire. by rewrite Ht.
Qed.

(** X2.  [beforeunload] cancels every timer the script has pending, whatever
    happened before: nothing fires afterwards, so no further click reaches
    the page. *)
Theorem unload_cancels_every_timer (p : Page) (es : list (event Page))
    (lates : list N) :
  let a := onBeforeUnload (play es (start p)) in
  timers a = [] /\ activeTimeouts a = []
  /\ run lates a = a
  /\ page a = page (play es (start p)).
Proof.
  intros a.
  assert (Hr : reachable (play es (start p)))
    by apply play_reachable, reach_start.
  destruct (reachable_sound _ Hr) as [_ Hreg].
  assert (Ht : timers a = []) by by apply clear_registered.
  split; [done|]. split; [done|]. split; [|done]. by apply run_idle.
Qed.

(** *** A replay whose timers are gone *)

Lemma showNotification_calls m ty (a : agent Page) :
  Forall (fun t => t ∈ timers a \/ callOf (action t) = None)
    (timers (showNotification m ty a)).
Proof.
  unfold showNotification. destruct (hasBody (page a)); cbn.
  - apply Forall_app. split; [|by repeat constructor].
    apply Forall_forall. by left.
  - apply Forall_forall. by left.
Qed.

Lemma afterExtraction_calls extracted (a : agent Page) :
  Forall (fun t => t ∈ timers a
                   \/ forall c, callOf (action t) = Some c ->
                        c = length (replays a))
    (timers (fst (afterExtraction extracted a))).
Proof.
  assert (Hshow : forall m ty e,
             Forall (fun t => t ∈ timers a
                              \/ forall c, callOf (action t) = Some c ->
                                   c = length (replays a))
               (timers (showNotification m ty (log e a)))).
  { intros m ty e. eapply Forall_impl; [apply showNotification_calls|].
    cbn. intros t [Ht|Ht]; [by left|right]. intros c Hc. congruence. }
  unfold afterExtraction.
  destruct extracted as [[|c solution]|e]; cbn [length Nat.eqb fst];
    [apply Hshow| |apply Hshow].
  set (b := showNotification MsgSolving info _).
  assert (Hb : replays b = replays a)
    by (unfold b; by rewrite showNotification_replays).
  unfold applySolution.
  destruct (scheduleClicks_spec (length (replays b)) (length (c :: solution))
              0 (c :: solution)
              (set_replays (replays b ++ [Replay 0 0 false None]) b))
    as (Ht & _).
  cbn [fst]. rewrite Ht. apply Forall_app. split; [apply Hshow|].
  apply Forall_forall. intros t Ht'. right.
  apply stepTimers_elem in Ht' as (_ & _ & _ & Hc).
  intros c' Hc'. rewrite Hb in Hc. congruence.
Qed.

Lemma afterExtraction_replays extracted (a : agent Page) c :
  (c < length (replays a))%nat ->
  replays (fst (afterExtraction extracted a)) !! c = replays a !! c.
Proof.
  intros Hc.
  assert (Hshow : forall m ty e,
             replays (showNotification m ty (log e a)) = replays a)
    by (intros; by rewrite showNotification_replays).
  unfold afterExtraction.
  destruct extracted as [[|c' solution]|e]; cbn [length Nat.eqb fst];
    [by rewrite Hshow| |by rewrite Hshow].
  unfold applySolution.
  set (b := showNotification MsgSolving info _).
  destruct (scheduleClicks_spec (length (replays b)) (length (c' :: solution))
              0 (c' :: solution)
              (set_replays (replays b ++ [Replay 0 0 false None]) b))
    as (_ & _ & _ & _ & Hr & _).
  cbn [fst]. rewrite Hr. cbn. unfold b. rewrite Hshow.
  by apply lookup_app_l.
Qed.

(** A [solvePuzzle] message leaves alone the replays whose timers it
    cancels. *)
Lemma solve_untouched rid call r (a : agent Page) :
  replays a !! call = Some r ->
  Forall (fun t => callOf (action t) ≠ Some call)
    (timers (clearAllTimeouts a)) ->
  replays (fst (onMessage SolvePuzzle rid a)) !! call = Some r
  /\ Forall (fun t => callOf (action t) ≠ Some call)
       (timers (fst (onMessage SolvePuzzle rid a))).
Proof.
  intros Hr Hb. pose proof (lookup_lt_Some _ _ _ Hr) as Hlt.
  cbn [onMessage fst]. unfold solveZipGame.
  set (b := clearAllTimeouts (log LogSolving a)).
  change (timers (clearAllTimeouts a)) with (timers b) in Hb.
  pose proof (afterExtraction_calls (extractSolution (page b)) b) as Hnew.
  pose proof (afterExtraction_replays (extractSolution (page b)) b call Hlt)
    as Hsame.
  destruct (afterExtraction _ _) as [a1 pr] eqn:E. cbn [fst] in *.
  assert (Ha1 : Forall (fun t => callOf (action t) ≠ Some call) (timers a1)).
  { apply Forall_forall. intros t Ht.
    pose proof (proj1 (Forall_forall _ _) Hnew t Ht) as [Hold|Hc].
    - by apply (proj1 (Forall_forall _ _) Hb).
    - intros Hcall. apply Hc in Hcall. cbn in Hcall. lia. }
  assert (Hr1 : replays a1 !! call = Some r) by by rewrite Hsame.
  destruct pr as [|e|c]; cbn; try done.
  split; [|done]. rewrite list_lookup_alter_ne; [done|].
  intros ->. apply afterExtraction_settles in E as (solution & _ & _ & E).
  unfold applySolution in E. injection E as _ E.
  rewrite showNotification_replays in E. cbn in E. lia.
Qed.

Lemma clear_keeps (P : timer -> Prop) (a : agent Page) :
  Forall P (timers a) -> Forall P (timers (clearAllTimeouts a)).
Proof.
  cbn. intros Hts. induction Hts as [|t ts Ht _ IH]; [done|].
  rewrite filter_cons. destruct (decide _); [by constructor|done].
Qed.

(** A replay none of whose timers is pending stays as it is, whatever
    happens. *)
Lemma handle_untouched e call r (a : agent Page) :
  replays a !! call = Some r ->
  Forall (fun t => callOf (action t) ≠ Some call) (timers a) ->
  replays (handle e a) !! call = Some r
  /\ Forall (fun t => callOf (action t) ≠ Some call) (timers (handle e a)).
Proof.
  intros Hr Hts.
  destruct e as [req rid|late|n| |p]; cbn [handle].
  - destruct req; [done| |done].
    apply solve_untouched; [done|]. by apply clear_keeps.
  - destruct (fire late a) as [a'|] eqn:E; [|done].
    by apply (fire_untouched late call r a a').
  - unfold onNotificationClick, hideNotification.
    destruct (bool_decide _); [|done]. cbn. split; [done|].
    apply Forall_app. split; [done|]. by repeat constructor.
  - split; [done|]. by apply clear_keeps.
  - done.
Qed.

Lemma play_untouched es call r (a : agent Page) :
  replays a !! call = Some r ->
  Forall (fun t => callOf (action t) ≠ Some call) (timers a) ->
  replays (play es a) !! call = Some r
  /\ Forall (fun t => callOf (action t) ≠ Some call) (timers (play es a)).
Proof.
  revert a. induction es as [|e es IH]; intros a Hr Hts; [done|].
  cbn. destruct (handle_untouched e call r a Hr Hts). by apply IH.
Qed.

(** X3.  A solve request supersedes the replays before it.  Whatever state a
    replay is in when the next [solvePuzzle] message arrives, its counters
    never change afterwards and it never reports: its remaining clicks are
    cancelled and its promise stays as it is, whatever happens later. *)
Theorem superseded_replay_stops (p : Page) (es es' : list (event Page))
    rid call r :
  let a := play es (start p) in
  replays a !! call = Some r ->
  let a' := play es' (fst (onMessage SolvePuzzle rid a)) in
  replays a' !! call = Some r
  /\ Forall (fun t => callOf (action t) ≠ Some call) (timers a').
Proof.
  intros a Hr a'.
  assert (Hreach : reachable a) by apply play_reachable, reach_start.
  destruct (reachable_sound a Hreach) as [_ Hreg].
  pose proof (lookup_lt_Some _ _ _ Hr) as Hlt.
  destruct (solve_untouched rid call r a Hr) as [Hr1 Hts1].
  { by rewrite clear_registered. }
  by apply play_untouched.
Qed.


(** *** The notification and its timers *)

Lemma attended_grow (a a' : agent Page) :
  attended a -> banner a' = banner a ->
  (forall t, t ∈ timers a -> t ∈ timers a') ->
  attended a'.
Proof.
  intros Ha Hb Hts n Hn. rewrite Hb in Hn.
  destruct (Ha n Hn) as (t & Ht & Hact). eauto.
Qed.

Lemma showNotification_attended m ty (a : agent Page) :
  attended (showNotification m ty a).
Proof.
  unfold showNotification, attended. destruct (hasBody (page a)); cbn.
  - intros n [= <-]. eexists. split.
    + apply elem_of_app. right. apply list_elem_of_here.
    + by left.
  - done.
Qed.

Lemma hideNotification_attended n (a : agent Page) :
  attended a -> attended (hideNotification n a).
Proof.
  intros Ha. unfold hideNotification.
  destruct (bool_decide (banner a = Some n)); [|done].
  apply (attended_grow a); [done|done|].
  cbn. intros t Ht. apply elem_of_app. by left.
Qed.

Lemma scheduleClicks_banner call len index solution (a : agent Page) :
  banner (scheduleClicks call len index solution a) = banner a
  /\ responses (scheduleClicks call len index solution a) = responses a.
Proof.
  revert index a. induction solution as [|c solution IH]; intros index a;
    [done|]. cbn [scheduleClicks].
  destruct (IH (S index)
              (fst (addTimeout (ClickStep call c index len)
                      (Z.of_nat index * CLICK_DELAY_MS) a))) as [-> ->].
  done.
Qed.

Lemma afterExtraction_attended extracted (a : agent Page) :
  attended (fst (afterExtraction extracted a)).
Proof.
  unfold afterExtraction.
  destruct extracted as [[|c solution]|e]; cbn [length Nat.eqb fst];
    [apply showNotification_attended| |apply showNotification_attended].
  set (b := showNotification MsgSolving info _).
  unfold applySolution. cbn [fst].
  destruct (scheduleClicks_spec (length (replays b)) (length (c :: solution))
              0 (c :: solution)
              (set_replays (replays b ++ [Replay 0 0 false None]) b))
    as (Ht & _).
  apply (attended_grow b); [apply showNotification_attended| |].
  - by rewrite (proj1 (scheduleClicks_banner _ _ _ _ _)).
  - intros t Hin. rewrite Ht. apply elem_of_app. by left.
Qed.

Lemma onMessage_attended req rid (a : agent Page) :
  attended a -> attended (fst (onMessage req rid a)).
Proof.
  intros Ha. destruct req; cbn [onMessage fst]; [done| |done].
  unfold solveZipGame.
  pose proof (afterExtraction_attended
                (extractSolution (page (clearAllTimeouts (log LogSolving a))))
                (clearAllTimeouts (log LogSolving a))) as Hat.
  destruct (afterExtraction _ _) as [a1 pr]. cbn [fst] in *.
  by destruct pr.
Qed.

(** The timer that fires is taken from the queue; a notification whose
    timer it is not keeps its timer. *)
Lemma dequeue_attended late t (a : agent Page) :
  ids_ok a -> attended a -> t ∈ timers a ->
  (forall n, banner a = Some n ->
     action t ≠ AutoRemove n /\ action t ≠ RemoveNode n) ->
  attended (dequeue late t a).
Proof.
  intros [Hnd _] Ha Ht Hother n Hn. cbn in Hn.
  destruct (Ha n Hn) as (u & Hu & Hact).
  exists u. split; [|done]. cbn.
  apply list_elem_of_filter. split; [|done].
  intros Heq. assert (u = t) as -> by by eapply ids_distinct.
  destruct (Hother n Hn). by destruct Hact.
Qed.

Lemma fire_attended late (a a' : agent Page) :
  ids_ok a -> attended a -> fire late a = Some a' -> attended a'.
Proof.
  intros Hids Ha (t & Ht & ->)%fire_inv.
  pose proof (earliest_in _ _ Ht) as Hin.
  apply (attended_grow (runCallback (action t) (dequeue late t a)));
    [|done|done].
  destruct (action t) as [call cell index len|call|n|n] eqn:Eact;
    cbn [runCallback].
  - assert (Hd : attended (dequeue late t a)).
    { apply dequeue_attended; try done. intros n _. by rewrite Eact. }
    destruct (clickStep_spec call cell index len (dequeue late t a))
      as (_ & _ & Hts).
    apply (attended_grow (dequeue late t a)); [done| |].
    + unfold clickStep, clickCell.
      destruct (querySelector _ _);
        [destruct (dispatchAll _ _ _) as [p []]|];
        by destruct (index =? len - 1)%nat.
    + intros u Hu. rewrite Hts. apply elem_of_app. by left.
  - unfold lastMove. destruct (replays _ !! call) as [r|].
    2:{ apply dequeue_attended; try done. intros n _. by rewrite Eact. }
    set (b := log _ (dequeue late t a)).
    assert (Hb : attended (if (0 <? failedClicks r)%nat
                           then showNotification
                                  (MsgSolvedWithErrors (failedClicks r))
                                  warning b
                           else showNotification MsgSolved success b)).
    { destruct (0 <? failedClicks r)%nat; apply showNotification_attended. }
    by destruct (waiter r).
  - unfold hideNotification.
    destruct (bool_decide (banner (dequeue late t a) = Some n)) eqn:E.
    + apply bool_decide_eq_true in E. intros m Hm. cbn in Hm, E.
      eexists. split.
      * cbn. apply elem_of_app. right. apply list_elem_of_here.
      * right. cbn. congruence.
    + apply bool_decide_eq_false in E. cbn in E.
      apply dequeue_attended; try done.
      intros m Hm. rewrite Eact. split; [|done]. congruence.
  - destruct (bool_decide (banner (dequeue late t a) = Some n)) eqn:E.
    + by intros m Hm.
    + apply bool_decide_eq_false in E. cbn in E.
      apply dequeue_attended; try done.
      intros m Hm. rewrite Eact. split; [done|]. congruence.
Qed.

Lemma handle_attended e (a : agent Page) :
  e ≠ Unload -> reachable a -> attended a -> attended (handle e a).
Proof.
  intros He Hr Ha. destruct e as [req rid|late|n| |p]; cbn [handle].
  - by apply onMessage_attended.
  - destruct (fire late a) as [a'|] eqn:E; [|done].
    apply (fire_attended late a); [|done|done].
    by apply reachable_sound.
  - by apply hideNotification_attended.
  - done.
  - done.
Qed.

Lemma play_attended es (a : agent Page) :
  Unload ∉ es -> reachable a -> attended a -> attended (play es a).
Proof.
  revert a. induction es as [|e es IH]; intros a Hes Hr Ha; [done|].
  apply not_elem_of_cons in Hes as [He Hes]. cbn.
  apply IH; [done|by apply handle_reachable|].
  apply handle_attended; [congruence|done|done].
Qed.

Lemma run_attended lates (a : agent Page) :
  reachable a -> attended a -> attended (run lates a).
Proof.
  revert a. induction lates as [|late lates IH]; intros a Hr Ha; [done|].
  cbn. destruct (fire late a) as [a'|] eqn:E; [|done].
  apply IH; [by eapply reach_timer|].
  apply (fire_attended late a); [by apply reachable_sound|done|done].
Qed.

Lemma load_bound (ts : list timer) : (load ts <= 4 * length ts)%nat.
Proof.
  induction ts as [|t ts IH]; [done|]. cbn [load foldr length].
  fold (load ts). destruct (action t); cbn [weight]; lia.
Qed.

(** X4.  A notification never stays for ever.  As long as the page is not
    unloading, the notification in the document is one a pending timer
    will take away; so when no timer is pending no notification is
    displayed, and the pending timers run out. *)
Theorem notification_goes_away (p : Page) (es : list (event Page)) :
  Unload ∉ es ->
  let a := play es (start p) in
  attended a
  /\ (timers a = [] -> banner a = None)
  /\ forall lates,
       (4 * length (timers a) <= length lates)%nat ->
       timers (run lates a) = [] /\ banner (run lates a) = None.
Proof.
  intros Hes a.
  assert (Hat : attended a).
  { apply play_attended; [done|apply reach_start|]. by intros n Hn. }
  assert (Hnone : forall b : agent Page,
             attended b -> timers b = [] -> banner b = None).
  { intros b Hb Hts. destruct (banner b) as [n|] eqn:E; [|done].
    destruct (Hb n E) as (t & Ht & _). rewrite Hts in Ht.
    by apply elem_of_nil in Ht. }
  split; [done|]. split; [by apply Hnone|].
  intros lates Hlen.
  assert (Hts : timers (run lates a) = []).
  { apply run_drains. pose proof (load_bound (timers a)). lia. }
  split; [done|]. apply Hnone; [|done].
  apply run_attended; [apply play_reachable, reach_start|done].
Qed.

(** X5.  The timers of the script run out.  Each pending timer leads to at
    most three more (a click to the report, the report to the removal of
    its notification in two steps), so after four firings for each pending
    timer none is left, and nothing fires afterwards. *)
Theorem content_timers_run_out (a : agent Page) (lates more : list N) :
  (4 * length (timers a) <= length lates)%nat ->
  timers (run lates a) = []
  /\ run (lates ++ more) a = run lates a.
Proof.
  intros Hlen.
  assert (Hts : timers (run lates a) = []).
  { apply run_drains. pose proof (load_bound (timers a)). lia. }
  split; [done|]. clear Hlen. revert a Hts.
  induction lates as [|late lates IH]; intros a Hts.
  - by apply run_idle.
  - cbn in *. destruct (fire late a) as [a'|] eqn:E; [by apply IH|done].
Qed.


(** *** The answer to a solve request *)









(** *** The pace of the clicks *)

Lemma runCallback_clock cb (a : agent Page) :
  clock (runCallback cb a) = clock a.
Proof.
  assert (Hshow : forall m ty (b : agent Page),
             clock (showNotification m ty b) = clock b).
  { intros m ty b. unfold showNotification. by destruct (hasBody (page b)). }
  destruct cb as [call cell index len|call|n|n]; cbn [runCallback].
  - unfold clickStep, clickCell.
    destruct (querySelector _ _);
      [destruct (dispatchAll _ _ _) as [p []]|];
      by destruct (index =? len - 1)%nat.
  - unfold lastMove. destruct (replays a !! call) as [r|]; [|done].
    destruct (waiter r), (0 <? failedClicks r)%nat; cbn; by rewrite Hshow.
  - unfold hideNotification. by destruct (bool_decide _).
  - by destruct (bool_decide _).
Qed.

Lemma filter_one_out (l : list timer) t :
  NoDup (map tid l) -> t ∈ l ->
  S (length (filter (fun u => tid u ≠ tid t) l)) = length l.
Proof.
  induction l as [|u l IH]; intros Hnd Ht; [by apply elem_of_nil in Ht|].
  cbn [map] in Hnd. apply NoDup_cons in Hnd as [Hu Hnd].
  rewrite filter_cons. apply elem_of_cons in Ht as [->|Ht].
  - rewrite decide_False by (intros Hne; by apply Hne).
    cbn [length]. f_equal. f_equal. apply filter_all.
    apply Forall_forall. intros v Hv Heq. apply Hu.
    rewrite <- Heq. apply list_elem_of_fmap. eauto.
  - rewrite decide_True.
    + cbn [length]. f_equal. by apply IH.
    + intros Heq. apply Hu. rewrite Heq. apply list_elem_of_fmap. eauto.
Qed.

(** A timer that fires either leaves the clicks made as they are, or makes
    the next click, and then not before its time. *)
Lemma fire_pace call n id0 t0 p0 solution listener late
    done rest done' rest' (a a' : agent Page) :
  progress call n id0 t0 p0 solution listener done rest a ->
  progress call n id0 t0 p0 solution listener done' rest' a' ->
  fire late a = Some a' ->
  (clock a <= clock a')%Z
  /\ (length done' = length done
      \/ (length done' = S (length done)
          /\ (t0 + Z.of_nat (length done) * CLICK_DELAY_MS <= clock a')%Z)).
Proof.
  intros [Hs [Hnd Hlt] Hc _ _] [Hs' _ Hc' _ _] (t & Ht & ->)%fire_inv.
  pose proof (earliest_in _ _ Ht) as Hin.
  assert (Hclock : clock (unregister t (runCallback (action t)
                                          (dequeue late t a)))
                   = (Z.max (clock a) (due t) + Z.of_N late)%Z).
  { cbn [unregister set_timers clock]. by rewrite runCallback_clock. }
  split; [lia|].
  destruct (fired_filter (fun u => isClick (action u) = true) late a t)
    as (extra & _ & Hcl & Hex).
  assert (Hnoclick : filter (fun u => isClick (action u) = true) extra = []).
  { clear -Hex. induction Hex as [|u extra [Hu _] _ IH]; [done|].
    rewrite filter_cons_False; [done|]. by rewrite Hu. }
  unfold clicksOf in Hc, Hc'. rewrite Hcl, Hnoclick, app_nil_r, Hc in Hc'.
  assert (Hlen : forall id index l,
             length (stepTimers id t0 call n index l) = length l).
  { intros id index l. rewrite <- (length_map tid), stepTimers_ids.
    apply length_seq. }
  assert (Hsum : (length done + length rest
                  = length done' + length rest')%nat).
  { rewrite <- !length_app. by rewrite <- Hs, <- Hs'. }
  apply (f_equal length) in Hc'. rewrite Hlen in Hc'.
  destruct (isClick (action t)) eqn:Eclick.
  - right.
    assert (Htin : t ∈ stepTimers (id0 + length done) t0 call n
                         (length done) rest).
    { rewrite <- Hc. by apply list_elem_of_filter. }
    pose proof (filter_one_out _ t
                  ltac:(rewrite stepTimers_ids; apply NoDup_seq) Htin) as Hone.
    rewrite Hlen in Hone.
    apply stepTimers_elem in Htin as (_ & Hdue & _).
    split; [lia|]. lia.
  - left. rewrite filter_all, Hlen in Hc'; [lia|].
    apply Forall_forall. intros u Hu Heq.
    assert (u ∈ timers a /\ isClick (action u) = true) as [Hua Huc].
    { rewrite <- Hc in Hu. by apply list_elem_of_filter in Hu as [? ?]. }
    assert (u = t) as -> by by eapply ids_distinct. congruence.
Qed.

Lemma run_pace call n id0 t0 p0 solution listener lates :
  forall done rest (a : agent Page),
    n = length solution ->
    progress call n id0 t0 p0 solution listener done rest a ->
    ((0 < length done)%nat ->
     (t0 + Z.of_nat (length done - 1) * CLICK_DELAY_MS <= clock a)%Z) ->
    exists done' rest',
      progress call n id0 t0 p0 solution listener done' rest' (run lates a)
      /\ ((0 < length done')%nat ->
          (t0 + Z.of_nat (length done' - 1) * CLICK_DELAY_MS
           <= clock (run lates a))%Z).
Proof.
  induction lates as [|late lates IH]; intros done rest a Hn Hp Hpace;
    cbn [run]; [eauto|].
  destruct (fire late a) as [a'|] eqn:E; [|eauto].
  destruct (fire_progress call n id0 t0 p0 solution listener Hn
              late done rest a a' Hp E) as (done1 & rest1 & Hp1).
  destruct (fire_pace _ _ _ _ _ _ _ _ _ _ _ _ _ _ Hp Hp1 E)
    as (Hmono & [Hsame | [Hnext Hdue]]).
  - apply (IH done1 rest1 a' Hn Hp1). rewrite Hsame. intros Hpos.
    specialize (Hpace Hpos). lia.
  - apply (IH done1 rest1 a' Hn Hp1). rewrite Hnext. intros _.
    by replace (S (length done) - 1)%nat with (length done) by lia.
Qed.

(** X7.  The clicks are paced.  When [k] cells of a solution have had their
    click, successful or not, at least [(k - 1) * 100] ms have passed since
    the replay was started, however early the browser fires its timers and
    whatever else is pending. *)
Theorem clicks_are_paced (a : agent Page) solution :
  solution ≠ [] -> ids_ok a -> quiet a ->
  let a1 := fst (applySolution solution a) in
  let call := snd (applySolution solution a) in
  forall lates,
    exists r,
      replays (run lates a1) !! call = Some r
      /\ (completedClicks r + failedClicks r <= length solution)%nat
      /\ ((0 < completedClicks r + failedClicks r)%nat ->
          (clock a
           + Z.of_nat (completedClicks r + failedClicks r - 1)
             * CLICK_DELAY_MS
           <= clock (run lates a1))%Z).
Proof.
  intros Hne Hids Hq a1 call lates.
  pose proof (applySolution_progress solution a Hne Hids Hq) as Hp.
  destruct (run_pace _ _ _ _ _ _ _ lates _ _ _ eq_refl Hp
              ltac:(cbn; lia)) as (done & rest & Hp' & Hpace).
  destruct Hp' as [Hsplit _ _ _ (res & Hrep & _)].
  eexists. split; [exact Hrep|]. cbn [completedClicks failedClicks].
  rewrite tally_total, replayAll_length.
  split; [|done]. rewrite Hsplit, length_app. lia.
Qed.

(** *** A replay among other events *)




(** *** A solve that fails *)




End AgentFacts.

(** ** The events a page receives *)

Section GridFacts.
Import Content.





End GridFacts.

(** ** The text of the solution *)

Section NumeralFacts.
Import Json.












End NumeralFacts.

Section ExtractionMore.
Import Content.
Context {Page Elem : Type} `{Dom Page Elem}.











(** *** The general pattern *)

Lemma exec_at_LOOSE c body rest :
  Forall (fun c => c ≠ Js.rbracket) (c :: body) ->
  Regex.exec_at LOOSE_SOLUTION
    (Js.lit "solution" ++ (c :: body) ++ Js.rbracket :: rest)
  = Some {| Regex.matched := Js.lit "solution" ++ (c :: body) ++ [Js.rbracket];
            Regex.group1 := c :: body |}.
Proof.
  intros Hbody. unfold Regex.exec_at.
  cbn [LOOSE_SOLUTION Regex.before Regex.group Regex.after].
  rewrite match_chars, startsWith_app, drop_app_length.
  inversion Hbody as [|? ? Hc Hb]; subst.
  cbn [Regex.match_atoms app Regex.lazy_star Regex.in_class].
  apply N.eqb_neq in Hc. rewrite Hc. cbn [negb].
  rewrite greedy_star_to_bracket
    by (done || apply (bracket_then (fun _ _ => Some _))).
  rewrite N.eqb_refl.
  f_equal. f_equal.
  - etransitivity;
      [|apply (consumed_app
                 (Js.lit "solution" ++ (c :: body) ++ [Js.rbracket]) rest)].
    f_equal. by rewrite <- !app_assoc.
  - apply (consumed_app (c :: body) (Js.rbracket :: rest)).
Qed.

Lemma exec_LOOSE_first text i c body :
  Js.indexOf text (Js.lit "solution") = Some i ->
  Js.startsWith ((c :: body) ++ [Js.rbracket])
    (drop (i + length (Js.lit "solution")) text) = true ->
  Forall (fun c => c ≠ Js.rbracket) (c :: body) ->
  Regex.exec LOOSE_SOLUTION text
  = Some {| Regex.matched := Js.lit "solution" ++ (c :: body) ++ [Js.rbracket];
            Regex.group1 := c :: body |}.
Proof.
  intros Hi Hb Hbody.
  rewrite (exec_from_first LOOSE_SOLUTION (Js.lit "solution")
             [Regex.LazyStar (Regex.Dot false)] text i) by done.
  pose proof (indexOf_found _ _ _ Hi) as Hk. apply startsWith_inv in Hk.
  apply startsWith_inv in Hb. rewrite drop_drop in Hk.
  rewrite Hb, <- app_assoc in Hk. rewrite Hk.
  rewrite exec_unfold. simpl ([Js.rbracket] ++ _).
  by rewrite exec_at_LOOSE.
Qed.

(** A string that is never closed. *)
Lemma lex_string_open n :
  forall s, (length s <= n)%nat -> Js.dquote ∉ s -> Json.lex_string s = None.
Proof.
  induction n as [|n IH]; intros s Hlen Hq.
  - destruct s; [done|cbn in Hlen; lia].
  - destruct s as [|c s]; [done|].
    apply not_elem_of_cons in Hq as [Hc Hq].
    cbn [Json.lex_string]. apply N.eqb_neq in Hc. rewrite N.eqb_sym, Hc.
    assert (Hs : Json.lex_string s = None)
      by (apply IH; [cbn in Hlen; lia|done]).
    destruct (c =? Js.backslash).
    + destruct s as [|e s]; [done|].
      apply not_elem_of_cons in Hq as [He Hq].
      destruct (e =? 117).
      * destruct s as [|h1 [|h2 [|h3 [|h4 t]]]]; try done.
        destruct (Json.hex4 h1 h2 h3 h4); [|done].
        rewrite IH; [done|cbn in Hlen |- *; lia|].
        by do 4 apply not_elem_of_cons in Hq as [_ Hq].
      * destruct (Json.unescape e); [|done].
        rewrite IH; [done|cbn in Hlen |- *; lia|done].
    + destruct (c <? 32); [done|]. by rewrite Hs.
Qed.

Lemma trimStart_snoc s x :
  Js.isTrimmable x = false ->
  Js.trimStart (s ++ [x]) = Js.trimStart s ++ [x].
Proof.
  intros Hx. induction s as [|c s IH]; cbn; [by rewrite Hx|].
  by destruct (Js.isTrimmable c).
Qed.

Lemma trimStart_elem c s : c ∈ Js.trimStart s -> c ∈ s.
Proof.
  destruct (trimStart_suffix s) as [l Hl]. intros Hc. rewrite Hl.
  apply elem_of_app. by right.
Qed.

(** A group that opens a string and never closes it does not parse. *)
Lemma parseSolutionData_open_string body :
  Js.dquote ∉ body ->
  Js.rbracket ∉ body ->
  parseSolutionData (Js.dquote :: body) = Throw JsonSyntaxError.
Proof.
  intros Hq Hb.
  assert (Htrim : Js.trim (Js.dquote :: body)
                  = Js.dquote :: rev (Js.trimStart (rev body))).
  { unfold Js.trim, Js.trimEnd.
    change (Js.trimStart (Js.dquote :: body)) with (Js.dquote :: body).
    cbn [rev]. rewrite trimStart_snoc by done.
    by rewrite rev_app_distr. }
  set (kept := rev (Js.trimStart (rev body))) in *.
  assert (Hkept : forall c, c ∈ kept -> c ∈ body).
  { intros c Hc. unfold kept in Hc.
    apply list_elem_of_In, in_rev, list_elem_of_In, trimStart_elem in Hc.
    by apply list_elem_of_In, in_rev, list_elem_of_In in Hc. }
  unfold parseSolutionData. rewrite Htrim.
  assert (Js.eqb (Js.dquote :: body) (Js.lit "undefined") = false) as ->
    by (by apply bool_decide_eq_false).
  assert (Js.eqb (Js.dquote :: kept) [] = false) as ->
    by (by apply bool_decide_eq_false).
  cbn [Js.truthy negb orb].
  assert (Json.parse ([Js.lbracket] ++ (Js.dquote :: kept) ++ [Js.rbracket])
          = None) as ->; [|done].
  unfold Json.parse, Json.parse_text, Json.enough.
  cbn [app length]. rewrite Nat.add_comm. cbn [Nat.add Nat.mul].
  change (Json.skip_ws (Js.lbracket :: ?x)) with (Js.lbracket :: x).
  cbn [Json.parse_value].
  rewrite N.eqb_refl.
  change (Json.skip_ws (Js.dquote :: ?x)) with (Js.dquote :: x).
  change (Js.dquote =? Js.rbracket) with false. cbn [Json.parse_elements].
  rewrite Nat.add_succ_r. cbn [Json.parse_value].
  change (Js.dquote =? Js.lbracket) with false.
  change (Js.dquote =? Js.lbrace) with false.
  rewrite N.eqb_refl.
  rewrite (lex_string_open (length (kept ++ [Js.rbracket]))); [done|done|].
  intros [Hin|Hin]%elem_of_app.
  - by apply Hq, Hkept.
  - apply list_elem_of_singleton in Hin. done.
Qed.

(** X12.  The general pattern skips nothing.  When neither keyed pattern
    matches, what follows the first occurrence of the word [solution], up
    to the next closing bracket, is taken as the list, whatever it is; so
    a payload that writes the key, a colon, a space and the list is not
    extracted: the text taken opens a string that is never closed. *)
Theorem general_pattern_takes_all_before_bracket (p : Page) text i c body :
  rehydrateData p = Some text ->
  Regex.exec SOLUTION text = None ->
  Regex.exec PLAIN_SOLUTION text = None ->
  Js.indexOf text (Js.lit "solution") = Some i ->
  Js.startsWith ((c :: body) ++ [Js.rbracket])
    (drop (i + length (Js.lit "solution")) text) = true ->
  Forall (fun x => x ≠ Js.rbracket) (c :: body) ->
  Regex.exec LOOSE_SOLUTION text
  = Some {| Regex.matched := Js.lit "solution" ++ (c :: body) ++ [Js.rbracket];
            Regex.group1 := c :: body |}
  /\ extractSolution p
     = match parseSolutionData (c :: body) with
       | Ok solution => Ok solution
       | Throw parseError => Throw (CouldNotParse parseError)
       end
  /\ (c = Js.dquote -> Js.dquote ∉ body ->
      extractSolution p = Throw (CouldNotParse JsonSyntaxError)).
Proof.
  intros Hp H1 H2 Hi Hs Hbody.
  pose proof (exec_LOOSE_first text i c body Hi Hs Hbody) as Hm.
  assert (Hex : extractSolution p
                = match parseSolutionData (c :: body) with
                  | Ok solution => Ok solution
                  | Throw parseError => Throw (CouldNotParse parseError)
                  end).
  { by rewrite (extract_firstMatch p text _ Hp
                  ltac:(unfold patterns, firstMatch;
                        rewrite H1, H2, Hm; done)). }
  split; [done|]. split; [done|].
  intros -> Hq. rewrite Hex, parseSolutionData_open_string; [done|done|].
  apply Forall_cons in Hbody as [_ Hbody]. intros Hin.
  by apply (proj1 (Forall_forall _ _) Hbody) in Hin.
Qed.


(** *** The errors of extraction *)

(** A text that opens a bracket parses to an array or not at all. *)
Lemma parse_bracket_array s v :
  Json.parse (Js.lbracket :: s) = Some v -> exists arr, v = Json.Arr arr.
Proof.
  unfold Json.parse, Json.parse_text, Json.enough.
  change (Json.skip_ws (Js.lbracket :: s)) with (Js.lbracket :: s).
  rewrite Nat.add_comm. cbn [Nat.add Json.parse_value].
  rewrite N.eqb_refl.
  destruct (Json.skip_ws s) as [|c' s'']; [done|].
  destruct (c' =? Js.rbracket).
  - destruct (Json.skip_ws s''); [|done]. intros [= <-]. eauto.
  - destruct (Json.parse_elements _ _) as [vs r| |]; [|done|done].
    destruct (Json.skip_ws r); [|done]. intros [= <-]. eauto.
Qed.

Lemma parseSolutionData_errors data e :
  parseSolutionData data = Throw e ->
  e = SolutionDataInvalid \/ e = JsonSyntaxError \/ e = InvalidCellNumbers.
Proof.
  unfold parseSolutionData.
  destruct (negb (Js.truthy data) || _ || _); [intros [= <-]; by left|].
  destruct (Json.parse _) as [v|] eqn:E; [|intros [= <-]; right; by left].
  apply parse_bracket_array in E as [arr ->].
  destruct (existsb invalidCell arr); [|done].
  intros [= <-]. right. by right.
Qed.

Lemma blank_spec text :
  negb (Js.truthy text) || (length (Js.trim text) =? 0)%nat = true
  <-> Forall (fun c => Js.isTrimmable c = true) text.
Proof.
  split.
  - intros Hb. apply Forall_forall. intros c Hc.
    destruct (Js.isTrimmable c) eqn:E; [done|].
    by rewrite (not_blank c text Hc E) in Hb.
  - intros Hall. apply orb_true_intro. right.
    assert (Js.trimStart text = []) as Hs.
    { induction Hall as [|c text Hc _ IH]; [done|]. cbn. by rewrite Hc. }
    unfold Js.trim. by rewrite Hs.
Qed.

(** X13.  The errors of extraction, each with the payloads that raise it.
    Of the messages the function can build, 'Solution is not a valid
    array' is never raised: the text handed to [JSON.parse] opens a
    bracket, so what it yields is an array. *)
Theorem extraction_errors_classified (p : Page) :
  (extractSolution p = Throw GameDataNotFound <-> rehydrateData p = None)
  /\ (extractSolution p = Throw GameDataEmpty
      <-> exists text, rehydrateData p = Some text
                       /\ Forall (fun c => Js.isTrimmable c = true) text)
  /\ (extractSolution p = Throw SolutionDataNotFound
      <-> exists text,
            rehydrateData p = Some text
            /\ ~ Forall (fun c => Js.isTrimmable c = true) text
            /\ (firstMatch patterns text = None
                \/ exists m, firstMatch patterns text = Some m
                             /\ Regex.group1 m = []))
  /\ (forall e, extractSolution p = Throw e ->
        e = GameDataNotFound \/ e = GameDataEmpty
        \/ e = SolutionDataNotFound
        \/ e = CouldNotParse SolutionDataInvalid
        \/ e = CouldNotParse JsonSyntaxError
        \/ e = CouldNotParse InvalidCellNumbers).
Proof.
  assert (Hcases :
    match rehydrateData p with
    | None => extractSolution p = Throw GameDataNotFound
    | Some text =>
        if negb (Js.truthy text) || (length (Js.trim text) =? 0)%nat
        then extractSolution p = Throw GameDataEmpty
        else match firstMatch patterns text with
             | None => extractSolution p = Throw SolutionDataNotFound
             | Some m => extractSolution p = fromMatch m
             end
    end).
  { destruct (rehydrateData p) as [text|] eqn:Hp;
      [|by unfold extractSolution; rewrite Hp].
    destruct (negb (Js.truthy text) || _) eqn:Hb;
      [by unfold extractSolution; rewrite Hp, Hb|].
    destruct (firstMatch patterns text) as [m|] eqn:Hm.
    - by apply (extract_firstMatch p text).
    - unfold extractSolution. rewrite Hp, Hb.
      unfold patterns, firstMatch in Hm.
      destruct (Regex.exec SOLUTION text); [done|].
      destruct (Regex.exec PLAIN_SOLUTION text); [done|].
      by destruct (Regex.exec LOOSE_SOLUTION text). }
  assert (Hfrom : forall m,
             (fromMatch m = Throw SolutionDataNotFound
              <-> Regex.group1 m = [])
             /\ fromMatch m ≠ Throw GameDataNotFound
             /\ fromMatch m ≠ Throw GameDataEmpty
             /\ forall e, fromMatch m = Throw e ->
                  e = SolutionDataNotFound
                  \/ e = CouldNotParse SolutionDataInvalid
                  \/ e = CouldNotParse JsonSyntaxError
                  \/ e = CouldNotParse InvalidCellNumbers).
  { intros m. unfold fromMatch.
    destruct (Regex.group1 m) as [|c g] eqn:Eg; cbn [Js.truthy].
    - split; [done|]. split; [done|]. split; [done|].
      intros e [= <-]. by left.
    - destruct (parseSolutionData (c :: g)) as [sol|e'] eqn:Ep.
      + by repeat split.
      + split; [done|]. split; [done|]. split; [done|].
        intros e [= <-]. right.
        apply parseSolutionData_errors in Ep as [-> | [-> | ->]]; eauto. }
  destruct (rehydrateData p) as [text|] eqn:Hp.
  2:{ rewrite Hcases. split; [done|]. split.
      { split; [done|]. by intros (text & [=] & _). }
      split.
      { split; [done|]. by intros (text & [=] & _). }
      intros e [= <-]. by left. }
  pose proof (blank_spec text) as Hblank.
  destruct (negb (Js.truthy text) || _) eqn:Hb.
  { rewrite Hcases. split; [done|]. split.
    { split; [|done]. intros _. exists text. split; [done|]. by apply Hblank. }
    split.
    { split; [done|]. intros (text' & [= <-] & Hn & _). destruct Hn.
      by apply Hblank. }
    intros e [= <-]. right. by left. }
  assert (Hnb : ~ Forall (fun c => Js.isTrimmable c = true) text).
  { intros Hall. apply Hblank in Hall. done. }
  destruct (firstMatch patterns text) as [m|] eqn:Hm.
  - destruct (Hfrom m) as (Hnf & H1 & H2 & Hall). rewrite Hcases.
    split; [done|]. split.
    { split; [done|]. by intros (text' & [= <-] & Hall'). }
    split.
    { rewrite Hnf. split.
      - intros Hg. exists text. split; [done|]. split; [done|]. right. eauto.
      - intros (text' & [= <-] & _ & [Hno | (m' & Hm' & Hg)]);
          congruence. }
    intros e He. right. right. by apply Hall.
  - rewrite Hcases. split; [done|]. split.
    { split; [done|]. by intros (text' & [= <-] & Hall'). }
    split.
    { split; [|done]. intros _. exists text. split; [done|]. split; [done|].
      by left. }
    intros e [= <-]. right. right. by left.
Qed.

(** X14.  Readiness only measures the payload.  A payload of more than 100
    characters of white space is reported ready, and extraction then fails
    with 'Game data is empty'; a payload of at most 100 characters is never
    ready, whatever it holds. *)
Theorem ready_is_not_extractable (p : Page) text :
  rehydrateData p = Some text ->
  (isPageReady p = true <-> (100 < length text)%nat)
  /\ ((100 < length text)%nat ->
      Forall (fun c => Js.isTrimmable c = true) text ->
      isPageReady p = true /\ extractSolution p = Throw GameDataEmpty).
Proof.
  intros Hp.
  assert (Hready : isPageReady p = true <-> (100 < length text)%nat).
  { unfold isPageReady. rewrite Hp. unfold READY_MIN_LENGTH. split.
    - intros [_ Hl]%andb_prop. by apply Nat.ltb_lt in Hl.
    - intros Hl. apply andb_true_intro. split; [|by apply Nat.ltb_lt].
      destruct text; [cbn in Hl; lia|done]. }
  split; [done|]. intros Hl Hall. split; [by apply Hready|].
  unfold extractSolution. rewrite Hp.
  by rewrite (proj2 (blank_spec text) Hall).
Qed.

End ExtractionMore.

(** ** The service worker, whatever the browser does *)

Section WorkerMore.
Import Background.
Variable deliver : list call -> Z -> message -> answer.
Variable reject : list call -> call -> option jsstring.

Abbreviation solvePuzzleInTab := (solvePuzzleInTab deliver reject).
Abbreviation handleActionClick := (handleActionClick deliver reject).
Abbreviation runTask := (runTask deliver reject).

Ltac answer_calls :=
  repeat (cbn [trace pendingSolveTabId timers fst snd negb andb];
          rewrite <- ?app_assoc; cbn [app];
          match goal with
          | |- context [match deliver ?h ?t ?m with _ => _ end] =>
              destruct (deliver h t m)
          | |- context [match reject ?h ?c with _ => _ end] =>
              destruct (reject h c)
          | |- context [readyOf ?r] => destruct (readyOf r)
          | |- context [(0 <? ?n)%nat] => destruct (0 <? n)%nat
          end).

(** X15.  No handler of the worker ever rejects.  Whatever the browser
    answers and whichever call it refuses, a solve cycle, a click on the
    icon, a tab update and a timer callback all return normally: every
    error ends in a [catch]. *)
Theorem handlers_never_reject (w : worker) :
  (forall tabId n, snd (solvePuzzleInTab tabId n w) = inl tt)
  /\ (forall t, snd (handleActionClick t w) = inl tt)
  /\ (forall tabId changeInfo t,
        snd (handleTabUpdate tabId changeInfo t w) = inl tt)
  /\ (forall t, snd (runTask t w) = inl tt).
Proof.
  assert (Hsolve : forall tabId n v, snd (solvePuzzleInTab tabId n v) = inl tt).
  { intros tabId n v.
    unfold Background.solvePuzzleInTab,
      Background.sendMessageWithInjection, injectContentScript,
      showErrorBadge, catch, bind, api, sendMessageToTab, sleep, setTimeout,
      throw, ret, record.
    answer_calls; done. }
  split; [done|]. split; [|split].
  - intros [[tabId|] u]; [|done]. unfold Background.handleActionClick. cbn [id url].
    destruct (tabId =? 0)%Z; [done|].
    destruct (negb (isLinkedInZipPage u)); [|apply Hsolve].
    unfold catch, bind, api, setPending, record.
    answer_calls; done.
  - intros tabId changeInfo t. unfold handleTabUpdate.
    destruct (bool_decide _ && _); [|done].
    unfold bind, setPending, setTimeout, ret.
    by destruct (isLinkedInZipPage (url t)).
  - intros [tabId n|tabId|tabId]; cbn [Background.runTask]; [apply Hsolve..|].
    unfold catch, api, ret. by destruct (reject _ _).
Qed.


Lemma pollRoundsFrom_S tabId n k :
  (k <= n)%nat ->
  pollRoundsFrom tabId (S n) (S k)
  = pollRound tabId n ++ pollRoundsFrom tabId n k.
Proof.
  intros Hk. unfold pollRoundsFrom.
  replace (S n - S k)%nat with (n - k)%nat by lia.
  rewrite seq_S, rev_app_distr. cbn [rev app flat_map].
  by replace (n - k + k)%nat with n by lia.
Qed.

(** X16.  Polling stops at the first ready answer.  When the first [k]
    readiness checks of a cycle are answered "not ready" and the next one
    "ready", with [k] within the budget, the cycle makes exactly [k] rounds
    of one check and one retry timer, then one more check followed at once
    by the solve command; no timer is left and nothing is injected. *)
Theorem polling_stops_when_ready tabId n k w :
  (forall h, reject h (SetBadgeText tabId BadgeEmpty) = None) ->
  (forall h, (length (List.filter isCheck h) < k)%nat ->
     exists r, deliver (trace w ++ h) tabId CHECK_READY = Answered r
               /\ readyOf r = false) ->
  (forall h, length (List.filter isCheck h) = k ->
     exists r, deliver (trace w ++ h) tabId CHECK_READY = Answered r
               /\ readyOf r = true) ->
  (forall h, exists r, deliver h tabId SOLVE_PUZZLE = Answered r) ->
  (k <= n)%nat ->
  timers w = [] ->
  settle deliver reject k (after (solvePuzzleInTab tabId n) w)
  = Worker (pendingSolveTabId w)
      (trace w ++ pollRoundsFrom tabId n k
       ++ [SetBadgeText tabId BadgeEmpty; SendMessage tabId CHECK_READY;
           SendMessage tabId SOLVE_PUZZLE])
      [].
Proof.
  intros Hbadge Hnot Hready Hsolve. revert n w Hnot Hready.
  induction k as [|k IH]; intros n [p tr ts] Hnot Hready Hk Hts;
    cbn [timers trace pendingSolveTabId] in *; subst ts.
  - cbn [settle].
    unfold after, Background.solvePuzzleInTab, catch, bind, api,
      sendMessageToTab, ret, record.
    rewrite Hbadge. cbn [trace pendingSolveTabId timers].
    destruct (Hready [SetBadgeText tabId BadgeEmpty] eq_refl)
      as (r & -> & ->).
    cbn [negb andb].
    unfold Background.sendMessageWithInjection, catch, sendMessageToTab,
      record.
    cbn [trace pendingSolveTabId timers].
    destruct (Hsolve ((tr ++ [SetBadgeText tabId BadgeEmpty])
                      ++ [SendMessage tabId CHECK_READY])) as (r' & ->).
    cbn. unfold pollRoundsFrom. cbn.
    by rewrite <- !app_assoc.
  - destruct n as [|n]; [lia|].
    assert (Hstep : after (solvePuzzleInTab tabId (S n)) (Worker p tr [])
                    = Worker p (tr ++ pollRound tabId n)
                        [(RetrySolve tabId n, RETRY_DELAY_MS)]).
    { unfold after, Background.solvePuzzleInTab, catch, bind, api,
        sendMessageToTab, ret, record.
      rewrite Hbadge. cbn [trace pendingSolveTabId timers].
      destruct (Hnot [SetBadgeText tabId BadgeEmpty] ltac:(cbn; lia))
        as (r & -> & ->).
      cbn. rewrite Nat.sub_0_r. by rewrite <- !app_assoc. }
    rewrite Hstep. cbn [settle]. rewrite fire_head. cbn [Background.runTask].
    rewrite IH; [| | |lia|done].
    + cbn [pendingSolveTabId trace]. f_equal.
      rewrite pollRoundsFrom_S by lia. by rewrite <- !app_assoc.
    + intros h Hh. cbn [trace]. rewrite <- app_assoc. apply Hnot.
      rewrite List.filter_app, length_app. cbn. lia.
    + intros h Hh. cbn [trace]. rewrite <- app_assoc. apply Hready.
      rewrite List.filter_app, length_app. cbn. lia.
Qed.


(** X17.  A failed injection ends the cycle.  When the readiness check
    finds no content script and the browser refuses to inject it, nothing
    is retried, whatever budget is left, and the solve command is not sent:
    the worker asks for the error badge and, if the browser takes both
    badge calls, sets the timer that clears the badge; that timer asks for
    the empty badge and leaves nothing behind. *)
Theorem failed_injection_ends_cycle tabId n w m :
  reject (trace w) (SetBadgeText tabId BadgeEmpty) = None ->
  (forall r, deliver (trace w ++ [SetBadgeText tabId BadgeEmpty])
               tabId CHECK_READY ≠ Answered r) ->
  reject (trace w ++ [SetBadgeText tabId BadgeEmpty;
                      SendMessage tabId CHECK_READY])
    (ExecuteScript tabId) = Some m ->
  let tried := trace w ++ [SetBadgeText tabId BadgeEmpty;
                           SendMessage tabId CHECK_READY;
                           ExecuteScript tabId] in
  after (solvePuzzleInTab tabId n) w
  = match reject tried (SetBadgeText tabId BadgeFailed) with
    | Some _ =>
        Worker (pendingSolveTabId w)
          (tried ++ [SetBadgeText tabId BadgeFailed]) (timers w)
    | None =>
        match reject (tried ++ [SetBadgeText tabId BadgeFailed])
                (SetBadgeBackgroundColor tabId "#ef4444") with
        | Some _ =>
            Worker (pendingSolveTabId w)
              (tried ++ [SetBadgeText tabId BadgeFailed;
                         SetBadgeBackgroundColor tabId "#ef4444"])
              (timers w)
        | None =>
            Worker (pendingSolveTabId w)
              (tried ++ [SetBadgeText tabId BadgeFailed;
                         SetBadgeBackgroundColor tabId "#ef4444";
                         SetTimeout (ClearBadge tabId) BADGE_CLEAR_DELAY_MS])
              (timers w ++ [(ClearBadge tabId, BADGE_CLEAR_DELAY_MS)])
        end
    end
  /\ forall v,
       after (runTask (ClearBadge tabId)) v
       = Worker (pendingSolveTabId v)
           (trace v ++ [SetBadgeText tabId BadgeEmpty]) (timers v).
Proof.
  intros Hbadge Hcheck Hinject tried. split.
  - unfold after, Background.solvePuzzleInTab, injectContentScript,
      showErrorBadge, catch, bind, api, sendMessageToTab, sleep, setTimeout,
      throw, ret, record.
    rewrite Hbadge. cbn [trace pendingSolveTabId timers].
    destruct (deliver (trace w ++ [SetBadgeText tabId BadgeEmpty])
                tabId CHECK_READY) as [r| |] eqn:E;
      [by destruct (Hcheck r)| |];
      cbn [trace pendingSolveTabId timers];
      rewrite <- !app_assoc; cbn [app];
      rewrite Hinject; cbn [trace pendingSolveTabId timers];
      rewrite <- ?app_assoc; cbn [app];
      subst tried;
      (destruct (reject _ (SetBadgeText tabId BadgeFailed));
       cbn [trace pendingSolveTabId timers fst];
       rewrite <- ?app_assoc; cbn [app]; [done|];
       destruct (reject _ (SetBadgeBackgroundColor tabId "#ef4444"));
       cbn [trace pendingSolveTabId timers fst];
       rewrite <- ?app_assoc; cbn [app]; done).
  - intros v. unfold after. cbn [Background.runTask].
    unfold catch, api, ret, record. by destruct (reject (trace v) _).
Qed.


(** *** One run of [solvePuzzleInTab], whatever the browser does *)

Lemma solve_once tabId n w :
  exists calls ts,
    trace (after (solvePuzzleInTab tabId n) w) = trace w ++ calls
    /\ timers (after (solvePuzzleInTab tabId n) w) = timers w ++ ts
    /\ pendingSolveTabId (after (solvePuzzleInTab tabId n) w)
       = pendingSolveTabId w
    /\ (length (List.filter isCheck calls) <= 1)%nat
    /\ ((exists n', n = S n'
                    /\ ts = [(RetrySolve tabId n', RETRY_DELAY_MS)]
                    /\ length (List.filter isRetry calls) = 1%nat
                    /\ List.filter isSolve calls = []
                    /\ (length (List.filter isInjection calls) <= 1)%nat)
        \/ ((ts = [] \/ ts = [(ClearBadge tabId, BADGE_CLEAR_DELAY_MS)])
            /\ List.filter isRetry calls = []
            /\ (length (List.filter isSolve calls) <= 2)%nat
            /\ (length (List.filter isInjection calls) <= 2)%nat)).
Proof.
  destruct n as [|n];
    unfold after, Background.solvePuzzleInTab,
      Background.sendMessageWithInjection, injectContentScript,
      showErrorBadge, catch, bind, api, sendMessageToTab, sleep, setTimeout,
      throw, ret, record;
    cbn [Nat.ltb Nat.leb andb];
    answer_calls;
    cbn [trace pendingSolveTabId timers fst snd negb andb];
    rewrite <- ?app_assoc; cbn [app];
    (eexists _, _; split; [reflexivity|];
     split; [first [reflexivity | symmetry; apply app_nil_r]|];
     split; [reflexivity|];
     cbn; split; [lia|];
     first [ left; eexists; split; [reflexivity|];
             split; [by rewrite Nat.sub_0_r|];
             split; [reflexivity|]; split; [reflexivity|lia]
           | right; split; [by (left + right)|];
             split; [reflexivity|]; split; lia ]).
Qed.

Lemma settle_idle k w : timers w = [] -> settle deliver reject k w = w.
Proof. intros Hts. destruct k; [done|]. cbn. unfold fire. by rewrite Hts. Qed.

(** After a run that set no retry, at most the timer of the badge is
    left, and it sets none. *)
Lemma settle_final tabId k w calls ts bound :
  ts = [] \/ ts = [(ClearBadge tabId, BADGE_CLEAR_DELAY_MS)] ->
  List.filter isRetry calls = [] ->
  exists more,
    trace (settle deliver reject k
             (Worker (pendingSolveTabId w) (trace w ++ calls) ts))
    = trace w ++ calls ++ more
    /\ pendingSolveTabId
         (settle deliver reject k
            (Worker (pendingSolveTabId w) (trace w ++ calls) ts))
       = pendingSolveTabId w
    /\ List.filter isCheck more = [] /\ List.filter isRetry more = []
    /\ List.filter isSolve more = [] /\ List.filter isInjection more = []
    /\ ((bound + 1 <= k)%nat ->
        timers (settle deliver reject k
                  (Worker (pendingSolveTabId w) (trace w ++ calls) ts)) = []).
Proof.
  intros [-> | ->] Hr.
  - rewrite settle_idle by done. exists []. by rewrite !app_nil_r.
  - destruct k as [|k].
    + exists []. rewrite !app_nil_r. cbn. split_and!; (done || lia).
    + cbn [settle]. rewrite fire_head. unfold after.
      cbn [Background.runTask].
      unfold catch, api, ret, record. cbn [trace pendingSolveTabId timers].
      rewrite settle_idle by (by destruct (reject (trace w ++ calls) _)).
      exists [SetBadgeText tabId BadgeEmpty].
      destruct (reject (trace w ++ calls) _); cbn; rewrite <- app_assoc; done.
Qed.

Lemma cycle_bounded tabId n :
  forall k w,
    timers w = [] ->
    let w' := settle deliver reject k (after (solvePuzzleInTab tabId n) w) in
    exists calls,
      trace w' = trace w ++ calls
      /\ pendingSolveTabId w' = pendingSolveTabId w
      /\ (length (List.filter isCheck calls) <= n + 1)%nat
      /\ (length (List.filter isRetry calls) <= n)%nat
      /\ (length (List.filter isSolve calls) <= 2)%nat
      /\ (length (List.filter isInjection calls) <= n + 2)%nat
      /\ ((n + 1 <= k)%nat -> timers w' = []).
Proof.
  induction n as [|n IH]; intros k w Hts w'; subst w'.
  - destruct (solve_once tabId 0 w)
      as (calls & ts & Htr & Hti & Hp & Hc & [(n' & Hn & _)|(Hfin & Hr & Hs & Hi)]);
      [done|].
    destruct (after _ w) as [p tr ts'].
    cbn [trace timers pendingSolveTabId] in *. subst p tr ts'.
    rewrite Hts. cbn [app].
    destruct (settle_final tabId k w calls ts 0 Hfin Hr)
      as (more & -> & -> & Hc' & Hr' & Hs' & Hi' & Hts').
    exists (calls ++ more).
    rewrite !List.filter_app, !length_app, Hc', Hr', Hs', Hi', Hr. cbn.
    split_and!; (done || lia).
  - destruct (solve_once tabId (S n) w)
      as (calls & ts & Htr & Hti & Hp & Hc
          & [(n' & Hn & -> & Hr & Hs & Hi)|(Hfin & Hr & Hs & Hi)]);
      destruct (after _ w) as [p tr ts'];
      cbn [trace timers pendingSolveTabId] in *; subst p tr ts';
      rewrite Hts; cbn [app].
    + injection Hn as <-. destruct k as [|k].
      * exists calls. rewrite Hs. cbn. split_and!; (done || lia).
      * cbn [settle]. rewrite fire_head. cbn [Background.runTask].
        destruct (IH k (Worker (pendingSolveTabId w) (trace w ++ calls) [])
                    eq_refl)
          as (calls2 & Htr2 & Hp2 & Hc2 & Hr2 & Hs2 & Hi2 & Hts2).
        exists (calls ++ calls2).
        rewrite !List.filter_app, !length_app, Hs, Htr2, Hp2.
        cbn [trace pendingSolveTabId]. rewrite <- app_assoc.
        split_and!; try (done || cbn; lia). intros Hk. apply Hts2. lia.
    + destruct (settle_final tabId k w calls ts (S n) Hfin Hr)
        as (more & -> & -> & Hc' & Hr' & Hs' & Hi' & Hts').
      exists (calls ++ more).
      rewrite !List.filter_app, !length_app, Hc', Hr', Hs', Hi', Hr. cbn.
      split_and!; (done || lia).
Qed.

(** X18.  A solve cycle is bounded, whatever the browser does.  Started with
    a budget of [n] retries, a cycle checks readiness at most [n + 1]
    times, sets at most [n] retry timers, injects the content script at
    most [n + 2] times and sends the solve command at most twice; it never
    touches the pending tab, and after [n + 1] timers none is left. *)
Theorem solve_cycle_is_bounded tabId n k w :
  timers w = [] ->
  let w' := settle deliver reject k (after (solvePuzzleInTab tabId n) w) in
  (length (List.filter isCheck (asked w w')) <= n + 1)%nat
  /\ (length (List.filter isRetry (asked w w')) <= n)%nat
  /\ (length (List.filter isInjection (asked w w')) <= n + 2)%nat
  /\ (length (List.filter isSolve (asked w w')) <= 2)%nat
  /\ pendingSolveTabId w' = pendingSolveTabId w
  /\ take (length (trace w)) (trace w') = trace w
  /\ ((n + 1 <= k)%nat -> timers w' = []).
Proof.
  intros Hts w'.
  destruct (cycle_bounded tabId n k w Hts)
    as (calls & Htr & Hp & Hc & Hr & Hs & Hi & Hdone).
  fold w' in Htr, Hp, Hdone.
  assert (Hasked : asked w w' = calls).
  { unfold asked. rewrite Htr. apply drop_app_length. }
  rewrite Hasked, Htr, take_app_length. done.
Qed.


(** *** Recognising the page of the game *)

Lemma includes_spec s p :
  Js.includes s p = true <-> exists pre post, s = pre ++ p ++ post.
Proof.
  split.
  - induction s as [|c s IH]; cbn [Js.includes].
    + rewrite orb_false_r. intros Hs%startsWith_inv.
      exists [], (drop (length p) []). done.
    + intros [Hs%startsWith_inv | Hin]%orb_prop.
      * exists [], (drop (length p) (c :: s)). done.
      * destruct (IH Hin) as (pre & post & ->). by exists (c :: pre), post.
  - intros (pre & post & ->). induction pre as [|c pre IH].
    + cbn [app]. destruct (p ++ post) eqn:E; cbn [Js.includes];
        rewrite <- ?E, startsWith_app; done.
    + cbn [app Js.includes]. rewrite IH. apply orb_true_r.
Qed.

(** X19.  A URL is taken for the game exactly when the pattern
    [linkedin.com/games/zip] occurs somewhere in it, be it in the host, the
    path or the query; a tab without URL is not.  The address the worker
    redirects to is one it recognises, with anything appended. *)
Theorem game_page_is_recognised_by_substring (u : option jsstring) :
  (isLinkedInZipPage u = true
   <-> exists pre post, u = Some (pre ++ LINKEDIN_ZIP_URL_PATTERN ++ post))
  /\ (forall rest, isLinkedInZipPage (Some (LINKEDIN_ZIP_URL ++ rest)) = true).
Proof.
  assert (Hiff : isLinkedInZipPage u = true
                 <-> exists pre post,
                       u = Some (pre ++ LINKEDIN_ZIP_URL_PATTERN ++ post)).
  { destruct u as [u|]; cbn [isLinkedInZipPage].
    - rewrite andb_true_iff, includes_spec. split.
      + intros (_ & pre & post & ->). eauto.
      + intros (pre & post & [= ->]). split; [|eauto].
        by destruct pre.
    - split; [done|]. by intros (pre & post & [=]). }
  split; [done|]. intros rest. cbn [isLinkedInZipPage].
  apply andb_true_intro. split; [done|]. apply includes_spec.
  exists (Js.lit "https://www."), (Js.lit "/" ++ rest).
  change LINKEDIN_ZIP_URL
    with (Js.lit "https://www." ++ LINKEDIN_ZIP_URL_PATTERN ++ Js.lit "/").
  by rewrite <- !app_assoc.
Qed.

(** *** The load that starts the automatic solve *)

(** X20.  The automatic solve follows the first completed load.  While a tab
    is pending, updates of other tabs and updates that are not "complete"
    change nothing.  The first completed load of the pending tab clears
    the slot without asking anything of the browser; it sets the timer of
    the automatic solve, 500 ms ahead, only when the URL loaded is the
    game's, and whatever the URL, no later update starts a solve: a load
    that ends elsewhere loses the pending solve.  The timer, when it
    fires, starts the cycle with the full budget. *)
Theorem auto_solve_follows_first_complete_load tabId w :
  pendingSolveTabId w = Some tabId ->
  (forall other changeInfo t,
     other ≠ tabId -> after (handleTabUpdate other changeInfo t) w = w)
  /\ (forall s t, s ≠ Some complete ->
        after (handleTabUpdate tabId (ChangeInfo s) t) w = w)
  /\ forall t,
       let w1 := after (handleTabUpdate tabId (ChangeInfo (Some complete)) t)
                   w in
       w1 = Worker None
              (trace w ++ (if isLinkedInZipPage (url t)
                           then [SetTimeout (AutoSolve tabId)
                                   PAGE_LOAD_DELAY_MS]
                           else []))
              (timers w ++ (if isLinkedInZipPage (url t)
                            then [(AutoSolve tabId, PAGE_LOAD_DELAY_MS)]
                            else []))
       /\ (forall tabId' changeInfo t',
             after (handleTabUpdate tabId' changeInfo t') w1 = w1)
       /\ (isLinkedInZipPage (url t) = true ->
           fire deliver reject (length (timers w)) w1
           = Some (after (solvePuzzleInTab tabId MAX_RETRIES)
                     (Worker None (trace w1) (timers w)))).
Proof.
  intros Hp. split; [|split].
  - intros other changeInfo t Hne. unfold after, handleTabUpdate.
    rewrite Hp, bool_decide_eq_false_2; [done|]. congruence.
  - intros s t Hs. unfold after, handleTabUpdate. cbn [status].
    destruct s as [[]|]; try done; by rewrite andb_false_r.
  - intros t w1.
    assert (Hw1 : w1 = Worker None
                         (trace w ++ (if isLinkedInZipPage (url t)
                                      then [SetTimeout (AutoSolve tabId)
                                              PAGE_LOAD_DELAY_MS]
                                      else []))
                         (timers w ++ (if isLinkedInZipPage (url t)
                                       then [(AutoSolve tabId,
                                              PAGE_LOAD_DELAY_MS)]
                                       else []))).
    { unfold w1, after, handleTabUpdate. rewrite Hp.
      rewrite bool_decide_eq_true_2 by done. cbn [andb status].
      unfold bind, setPending, setTimeout, ret.
      destruct (isLinkedInZipPage (url t));
        cbn [fst trace timers pendingSolveTabId]; by rewrite ?app_nil_r. }
    split; [done|]. split.
    + intros tabId' changeInfo t'. rewrite Hw1.
      unfold after, handleTabUpdate. cbn [pendingSolveTabId].
      by rewrite bool_decide_eq_false_2.
    + intros Hu. rewrite Hw1, Hu. unfold fire. cbn [timers trace].
      rewrite lookup_app_r, Nat.sub_diag by done. cbn [lookup list_lookup].
      cbn [pendingSolveTabId Background.runTask].
      unfold solvePuzzleInTabWithRetry. do 3 f_equal.
      clear. induction (timers w) as [|x l IH]; [done|]. cbn. by f_equal.
Qed.

(** X21.  A redirect that fails forgets the pending tab.  On a click away
    from the game, as soon as the browser refuses one of the two badge
    calls or the navigation, the pending slot is emptied, also when it
    held another tab; no timer is set, and no later load starts a solve. *)
Theorem failed_redirect_forgets_pending_tab tabId u w :
  tabId ≠ 0%Z ->
  isLinkedInZipPage u = false ->
  let c1 := SetBadgeText tabId BadgeRedirecting in
  let c2 := SetBadgeBackgroundColor tabId "#3b82f6" in
  let c3 := TabsUpdate tabId LINKEDIN_ZIP_URL in
  ~ (reject (trace w) c1 = None
     /\ reject (trace w ++ [c1]) c2 = None
     /\ reject (trace w ++ [c1; c2]) c3 = None) ->
  let w' := after (handleActionClick (Tab (Some tabId) u)) w in
  pendingSolveTabId w' = None
  /\ timers w' = timers w
  /\ (exists calls, trace w' = trace w ++ calls
                    /\ (c3 ∈ calls ->
                        reject (trace w) c1 = None
                        /\ reject (trace w ++ [c1]) c2 = None))
  /\ (forall tabId' changeInfo t,
        after (handleTabUpdate tabId' changeInfo t) w' = w').
Proof.
  intros Hid Hu c1 c2 c3 Hfail w'.
  assert (Hw' : pendingSolveTabId w' = None
                /\ timers w' = timers w
                /\ exists calls, trace w' = trace w ++ calls
                                 /\ (c3 ∈ calls ->
                                     reject (trace w) c1 = None
                                     /\ reject (trace w ++ [c1]) c2 = None)).
  { subst w'. unfold after, Background.handleActionClick. cbn [id url].
    apply Z.eqb_neq in Hid. rewrite Hid, Hu. cbn [negb].
    unfold catch, bind, api, setPending, record.
    fold c1 c2 c3.
    destruct (reject (trace w) c1) eqn:E1;
      cbn [trace pendingSolveTabId timers fst].
    { split; [done|]. split; [done|]. exists [c1]. split; [done|].
      intros Hin%list_elem_of_singleton. discriminate Hin. }
    destruct (reject (trace w ++ [c1]) c2) eqn:E2;
      cbn [trace pendingSolveTabId timers fst].
    { split; [done|]. split; [done|]. exists [c1; c2].
      split; [by rewrite <- app_assoc|].
      intros Hin. repeat (apply elem_of_cons in Hin as [Hin|Hin];
                          [discriminate Hin|]).
      by apply elem_of_nil in Hin. }
    rewrite <- app_assoc. cbn [app].
    destruct (reject (trace w ++ [c1; c2]) c3) eqn:E3;
      cbn [trace pendingSolveTabId timers fst].
    { split; [done|]. split; [done|]. exists [c1; c2; c3].
      split; [by rewrite <- app_assoc|]. done. }
    by destruct Hfail. }
  destruct Hw' as (Hp & Hts & Hcalls).
  split; [done|]. split; [done|]. split; [done|].
  intros tabId' changeInfo t. unfold after, handleTabUpdate.
  by rewrite Hp, bool_decide_eq_false_2.
Qed.


End WorkerMore.

(** ** Examples of the further properties *)

Lemma superseded_replay_stops_witness :
  let a := play [Message Content.SolvePuzzle 1; TimerFires 0; TimerFires 0]
             (Content.start (Grid.withPayload text_escaped)) in
  let a' := play (map TimerFires late_timers_twice)
              (fst (Content.onMessage Content.SolvePuzzle 2 a)) in
  Content.replays a' !! 0%nat = Some (Content.Replay 2 0 false (Some 1%nat))
  /\ Content.replays a' !! 1%nat = Some (Content.Replay 3 0 true (Some 2%nat)).
Proof.
  split.
  - apply (@superseded_replay_stops _ _ Grid.grid_dom
             (Grid.withPayload text_escaped)
             [Message Content.SolvePuzzle 1; TimerFires 0; TimerFires 0]
             (map TimerFires late_timers_twice) 2 0
             (Content.Replay 2 0 false (Some 1%nat))).
    vm_compute. reflexivity.
  - vm_compute. reflexivity.
Defined.


Lemma notification_goes_away_witness :
  let a := play [Message Content.SolvePuzzle 1; NotificationClicked 0]
             (Content.start Grid.withoutPayload) in
  Content.banner a = Some 0%nat
  /\ Content.banner (Content.run [0; 0; 0; 0; 0; 0; 0; 0] a) = None.
Proof.
  split; [vm_compute; reflexivity|].
  apply (@notification_goes_away _ _ Grid.grid_dom Grid.withoutPayload
           [Message Content.SolvePuzzle 1; NotificationClicked 0]).
  - intros Hin.
    repeat (apply elem_of_cons in Hin as [Hin|Hin]; [discriminate Hin|]).
    by apply elem_of_nil in Hin.
  - apply Nat.leb_le. vm_compute. reflexivity.
Defined.

Lemma content_timers_run_out_witness :
  let a := fst (Content.applySolution solution_with_missing_cell
                  (Content.start (Grid.withPayload text_escaped))) in
  Content.timers (Content.run late_timers a) = []
  /\ Content.run (late_timers ++ [5]) a = Content.run late_timers a.
Proof.
  apply (@content_timers_run_out _ _ Grid.grid_dom).
  apply Nat.leb_le. vm_compute. reflexivity.
Defined.

Lemma clicks_are_paced_witness :
  let a := Content.start (Grid.withPayload text_escaped) in
  let a1 := fst (Content.applySolution solution_with_missing_cell a) in
  let a2 := Content.run [0; 0] a1 in
  Content.replays a2 !! 0%nat = Some (Content.Replay 1 1 false None)
  /\ (100 <= Content.clock a2)%Z.
Proof.
  intros a a1 a2.
  destruct (@clicks_are_paced _ _ Grid.grid_dom a solution_with_missing_cell
              ltac:(discriminate)
              ltac:(split; [apply NoDup_nil_2|apply Forall_nil_2])
              ltac:(apply Forall_nil_2)
              [0; 0]) as (r & Hr & _ & Hpace).
  assert (Some r = Some (Content.Replay 1 1 false None)) as [= ->]
    by (rewrite <- Hr; vm_compute; reflexivity).
  split; [vm_compute; reflexivity|].
  apply Hpace. cbn. lia.
Defined.





Lemma general_pattern_takes_all_before_bracket_witness :
  Content.extractSolution (Grid.withPayload text_spaced_json)
  = Content.Throw (Content.CouldNotParse Content.JsonSyntaxError).
Proof.
  assert (Hbody : Forall (fun x => x ≠ Js.rbracket)
                    (Js.dquote :: Js.lit ": [1, 2, 3")).
  { vm_compute. repeat constructor; discriminate. }
  assert (Hopen : Js.dquote ∉ Js.lit ": [1, 2, 3").
  { vm_compute. intros Hin.
    repeat (apply elem_of_cons in Hin as [Hin|Hin]; [discriminate Hin|]).
    by apply elem_of_nil in Hin. }
  exact (proj2 (proj2 (@general_pattern_takes_all_before_bracket
                         _ _ Grid.grid_dom
                         (Grid.withPayload text_spaced_json)
                         text_spaced_json 2%nat Js.dquote
                         (Js.lit ": [1, 2, 3") eq_refl eq_refl eq_refl
                         eq_refl eq_refl Hbody))
           eq_refl Hopen).
Defined.

Lemma ready_is_not_extractable_witness :
  Content.isPageReady (Grid.withPayload text_blank) = true
  /\ Content.extractSolution (Grid.withPayload text_blank)
     = Content.Throw Content.GameDataEmpty.
Proof.
  apply (@ready_is_not_extractable _ _ Grid.grid_dom
           (Grid.withPayload text_blank) text_blank eq_refl).
  - apply Nat.ltb_lt. vm_compute. reflexivity.
  - apply Forall_forall. intros c Hc.
    apply list_elem_of_In, repeat_spec in Hc. by subst c.
Defined.

Lemma polling_stops_when_ready_witness :
  Background.settle (deliver_ready_after 3) accept_all 3
    (Background.after
       (Background.solvePuzzleInTab (deliver_ready_after 3) accept_all
          7 Background.MAX_RETRIES) Background.start)
  = Background.Worker None
      (pollRound 7 9 ++ pollRound 7 8 ++ pollRound 7 7
       ++ [Background.SetBadgeText 7 Background.BadgeEmpty;
           Background.SendMessage 7 Background.CHECK_READY;
           Background.SendMessage 7 Background.SOLVE_PUZZLE])
      [].
Proof.
  apply (polling_stops_when_ready (deliver_ready_after 3) accept_all
           7 Background.MAX_RETRIES 3 Background.start).
  - reflexivity.
  - intros h Hh. eexists. split; [reflexivity|].
    cbn [Background.readyOf Background.trace Background.start app].
    apply Nat.ltb_lt in Hh. by rewrite Hh.
  - intros h Hh. eexists. split; [reflexivity|].
    cbn [Background.readyOf Background.trace Background.start app].
    by rewrite Hh.
  - intros h. eexists. reflexivity.
  - apply Nat.leb_le. reflexivity.
  - reflexivity.
Defined.

Lemma failed_injection_ends_cycle_witness :
  Background.after
    (Background.solvePuzzleInTab deliver_nothing refuse_injection
       7 Background.MAX_RETRIES) Background.start
  = Background.Worker None
      [Background.SetBadgeText 7 Background.BadgeEmpty;
       Background.SendMessage 7 Background.CHECK_READY;
       Background.ExecuteScript 7;
       Background.SetBadgeText 7 Background.BadgeFailed;
       Background.SetBadgeBackgroundColor 7 "#ef4444";
       Background.SetTimeout (Background.ClearBadge 7)
         Background.BADGE_CLEAR_DELAY_MS]
      [(Background.ClearBadge 7, Background.BADGE_CLEAR_DELAY_MS)].
Proof.
  apply (failed_injection_ends_cycle deliver_nothing refuse_injection
           7 Background.MAX_RETRIES Background.start
           (Js.lit "Cannot access the page")).
  - reflexivity.
  - discriminate.
  - reflexivity.
Defined.

Lemma solve_cycle_is_bounded_witness :
  let w' := Background.settle deliver_nothing accept_all 11
              (Background.after
                 (Background.solvePuzzleInTab deliver_nothing accept_all
                    7 Background.MAX_RETRIES) Background.start) in
  (length (List.filter isCheck (asked Background.start w')) <= 10 + 1)%nat
  /\ (length (List.filter isRetry (asked Background.start w')) <= 10)%nat
  /\ (length (List.filter isInjection (asked Background.start w'))
      <= 10 + 2)%nat
  /\ (length (List.filter isSolve (asked Background.start w')) <= 2)%nat
  /\ Background.pendingSolveTabId w' = None
  /\ take 0 (Background.trace w') = []
  /\ ((10 + 1 <= 11)%nat -> Background.timers w' = []).
Proof.
  exact (solve_cycle_is_bounded deliver_nothing accept_all
           7 Background.MAX_RETRIES 11 Background.start eq_refl).
Defined.

Lemma auto_solve_follows_first_complete_load_witness :
  let w := Background.after
             (Background.handleActionClick deliver_not_ready accept_all
                (Background.Tab (Some 3%Z) (Some (Js.lit "https://example.org/"))))
             Background.start in
  let loaded := Background.after
                  (Background.handleTabUpdate 3
                     (Background.ChangeInfo (Some Background.complete))
                     (Background.Tab (Some 3%Z)
                        (Some Background.LINKEDIN_ZIP_URL))) w in
  Background.pendingSolveTabId w = Some 3%Z
  /\ Background.pendingSolveTabId loaded = None
  /\ Background.timers loaded
     = [(Background.AutoSolve 3, Background.PAGE_LOAD_DELAY_MS)]
  /\ forall tabId' changeInfo t',
       Background.after (Background.handleTabUpdate tabId' changeInfo t')
         loaded = loaded.
Proof.
  intros w loaded.
  destruct (auto_solve_follows_first_complete_load
              deliver_not_ready accept_all 3 w eq_refl) as (_ & _ & H).
  destruct (H (Background.Tab (Some 3%Z) (Some Background.LINKEDIN_ZIP_URL)))
    as (Hloaded & Honce & _).
  split; [reflexivity|]. split; [reflexivity|]. split; [reflexivity|].
  exact Honce.
Defined.

Lemma failed_redirect_forgets_pending_tab_witness :
  let w := Background.after
             (Background.handleActionClick deliver_nothing accept_all
                (Background.Tab (Some 5%Z) None)) Background.start in
  let w' := Background.after
              (Background.handleActionClick deliver_nothing refuse_navigation
                 (Background.Tab (Some 3%Z) None)) w in
  Background.pendingSolveTabId w = Some 5%Z
  /\ Background.pendingSolveTabId w' = None
  /\ Background.timers w' = [].
Proof.
  intros w w'.
  destruct (failed_redirect_forgets_pending_tab deliver_nothing
              refuse_navigation 3 None w) as (Hp & Hts & _).
  - discriminate.
  - reflexivity.
  - intros (_ & _ & H). vm_compute in H. discriminate H.
  - split; [reflexivity|]. split; [exact Hp|exact Hts].
Defined.
